(** * go-imap: the sequence-number tracker, the server command loop and the
      client command engine

    A shallow embedding of
    - [imapserver/conn.go]: [MailboxTracker], [SessionTracker],
      [UpdateWriter], [Conn.poll], the tail of [Conn.readCommand], the
      loop of [Conn.serve], [handleLogout] and [checkBufferedLiteral];
    - [imapserver/server.go]: the accept loop of [Server.Serve];
    - package [imapserver], the LIST handler: [matchList];
    - [imapserver/imapmemserver]: [UserSession.Poll], the message list of
      [Mailbox] ([appendBytes], [Expunge], [NewView], [staticNumRange])
      and the mailboxes of [User];
    - package [imapclient]: the pending-command list, [beginCommand],
      [readResponseTagged], [completeCommand], [closeWithError] and
      [commandBase.wait] of [client.go], the untagged LIST and STATUS
      responses ([handleList], [handleStatus]) and [ListCommand.Next].

    Go's [uint32] is a [Z] with the wrap-around written out, a panic is an
    explicit outcome, pointers are addresses into a finite map, and a
    buffered channel is its buffer together with its closed flag. *)

From Stdlib Require Import ZArith Lia Ascii.
From stdpp Require Import gmap list sorting strings pretty.

Local Open Scope Z_scope.

(** ** Machine integers and outcomes *)

Definition uint32_modulus : Z := 2 ^ 32.

Definition is_uint32 (z : Z) : Prop := 0 ≤ z < uint32_modulus.

(** Arithmetic on [uint32] wraps. *)
Definition wrap32 (z : Z) : Z := z mod uint32_modulus.

(** A Go call either returns or panics.  A panic or error built with a
    format string is given by the format string. *)
Inductive outcome (A : Type) : Type :=
  | Ok (a : A)
  | Panic (msg : string).
Arguments Ok {A} a.
Arguments Panic {A} msg.

#[global] Instance outcome_ret : MRet outcome := fun A a => Ok a.
#[global] Instance outcome_bind : MBind outcome := fun A B k m =>
  match m with
  | Ok a => k a
  | Panic msg => Panic msg
  end.

(** [error] values: only their identity matters. *)
Definition error : Type := string.

(** [imap.Flag] is a string, [imap.UID] a [uint32]. *)
Definition Flag : Type := string.

(** [imap.ConnState] *)
Inductive ConnState : Type :=
  | ConnStateNone
  | ConnStateNotAuthenticated
  | ConnStateAuthenticated
  | ConnStateSelected
  | ConnStateLogout.

#[global] Instance ConnState_eq_dec : EqDecision ConnState.
Proof. solve_decision. Defined.

(** ** Package [imapserver] *)

Module Imapserver.

(** [trackerUpdateFetch] *)
Record trackerUpdateFetch : Type := {
  seqNum : Z;
  uid : Z;
  flags : list Flag;
}.

(** [trackerUpdate]: a struct used as a tagged union, the tag being the
    first field that is not its zero value.  [mailboxFlags] is a slice
    ([None] is the nil slice), [fetch] a pointer ([None] is nil). *)
Record trackerUpdate : Type := {
  expunge : Z;
  numMessages : Z;
  mailboxFlags : option (list Flag);
  fetch : option trackerUpdateFetch;
}.

Definition update_expunge (n : Z) : trackerUpdate :=
  {| expunge := n; numMessages := 0; mailboxFlags := None; fetch := None |}.
Definition update_numMessages (n : Z) : trackerUpdate :=
  {| expunge := 0; numMessages := n; mailboxFlags := None; fetch := None |}.
Definition update_mailboxFlags (fl : list Flag) : trackerUpdate :=
  {| expunge := 0; numMessages := 0; mailboxFlags := Some fl; fetch := None |}.
Definition update_fetch (f : trackerUpdateFetch) : trackerUpdate :=
  {| expunge := 0; numMessages := 0; mailboxFlags := None; fetch := Some f |}.

(** Addresses of [SessionTracker] objects. *)
Definition SessionPtr : Type := positive.

(** [SessionTracker].  The development follows one [MailboxTracker], so a
    non-nil [mailbox] pointer carries no data; [Close] sets it to nil.
    [updates] is nil or the channel made by the running [Idle]: a channel
    of [struct{}] is the number of buffered tokens. *)
Record SessionTracker : Type := {
  mailbox : option unit;
  queue : list trackerUpdate;
  updates : option nat;
}.

Definition updates_capacity : nat := 64.

(** [MailboxTracker] *)
Record MailboxTracker : Type := {
  t_numMessages : Z;
  t_sessions : gset SessionPtr;
}.

(** The store: the mailbox tracker, every [SessionTracker] ever allocated
    (attached or closed), and the next free address. *)
Record World : Type := {
  tracker : MailboxTracker;
  heap : gmap SessionPtr SessionTracker;
  next : SessionPtr;
}.

Definition set_queue (st : SessionTracker) (q : list trackerUpdate) : SessionTracker :=
  {| mailbox := mailbox st; queue := q; updates := updates st |}.
Definition set_updates (st : SessionTracker) (u : option nat) : SessionTracker :=
  {| mailbox := mailbox st; queue := queue st; updates := u |}.
Definition set_mailbox (st : SessionTracker) (m : option unit) : SessionTracker :=
  {| mailbox := m; queue := queue st; updates := updates st |}.

(** [NewMailboxTracker] *)
Definition NewMailboxTracker (numMessages : Z) : World :=
  {| tracker := {| t_numMessages := numMessages; t_sessions := ∅ |};
     heap := ∅;
     next := 1%positive |}.

(** [MailboxTracker.NewSession] *)
Definition NewSession (w : World) : World * SessionPtr :=
  let st := {| mailbox := Some (); queue := []; updates := None |} in
  let p := next w in
  ({| tracker := {| t_numMessages := t_numMessages (tracker w);
                    t_sessions := {[ p ]} ∪ t_sessions (tracker w) |};
      heap := <[ p := st ]> (heap w);
      next := Pos.succ p |}, p).

(** [SessionTracker.queueUpdate]: append, then a non-blocking send on
    [updates] (dropped when the buffer is full). *)
Definition session_queueUpdate (update : trackerUpdate) (st : SessionTracker) : SessionTracker :=
  {| mailbox := mailbox st;
     queue := queue st ++ [update];
     updates := match updates st with
                | Some k => if decide (k < updates_capacity)%nat then Some (S k) else Some k
                | None => None
                end |}.

(** The [for st := range t.sessions] loop of [MailboxTracker.queueUpdate]. *)
Definition broadcast (update : trackerUpdate) (source : option SessionPtr)
    (sessions : gset SessionPtr) (h : gmap SessionPtr SessionTracker)
    : gmap SessionPtr SessionTracker :=
  map_imap (fun p st =>
    Some (if decide (p ∈ sessions)
          then if decide (source = Some p) then st else session_queueUpdate update st
          else st)) h.

(** [MailboxTracker.queueUpdate] *)
Definition queueUpdate (update : trackerUpdate) (source : option SessionPtr)
    (w : World) : outcome World :=
  let t := tracker w in
  if decide (expunge update ≠ 0 ∧ expunge update > t_numMessages t) then
    Panic "imapserver: 删除序号 (%v) 超出范围 (%v 邮件在邮箱中)"
  else if decide (numMessages update ≠ 0 ∧ numMessages update < t_numMessages t) then
    Panic "imapserver: 不能将邮箱邮件数量从 %v 减少到 %v"
  else
    let h := broadcast update source (t_sessions t) (heap w) in
    let n :=
      if decide (expunge update ≠ 0) then wrap32 (t_numMessages t - 1)
      else if decide (numMessages update ≠ 0) then numMessages update
      else t_numMessages t in
    Ok {| tracker := {| t_numMessages := n; t_sessions := t_sessions t |};
          heap := h;
          next := next w |}.

(** [MailboxTracker.QueueExpunge] *)
Definition QueueExpunge (seqNum : Z) (w : World) : outcome World :=
  if decide (seqNum = 0) then Panic "imapserver: 无效的删除邮件序号"
  else queueUpdate (update_expunge seqNum) None w.

(** [MailboxTracker.QueueNumMessages] *)
Definition QueueNumMessages (n : Z) (w : World) : outcome World :=
  queueUpdate (update_numMessages n) None w.

(** [MailboxTracker.QueueMailboxFlags]: a nil slice becomes the empty one. *)
Definition QueueMailboxFlags (fl : option (list Flag)) (w : World) : outcome World :=
  let fl := match fl with None => [] | Some l => l end in
  queueUpdate (update_mailboxFlags fl) None w.

(** [MailboxTracker.QueueMessageFlags] *)
Definition QueueMessageFlags (seqNum uid : Z) (fl : list Flag)
    (source : option SessionPtr) (w : World) : outcome World :=
  queueUpdate (update_fetch {| seqNum := seqNum; uid := uid; flags := fl |}) source w.

(** [SessionTracker.Close]; a second [Close] dereferences the nil
    [mailbox]. *)
Definition Close (p : SessionPtr) (w : World) : outcome World :=
  match heap w !! p with
  | None => Panic "nil SessionTracker"
  | Some st =>
    match mailbox st with
    | None => Panic "nil pointer dereference"
    | Some _ =>
      Ok {| tracker := {| t_numMessages := t_numMessages (tracker w);
                          t_sessions := t_sessions (tracker w) ∖ {[ p ]} |};
            heap := <[ p := set_mailbox st None ]> (heap w);
            next := next w |}
    end
  end.

(** The loop of [SessionTracker.DecodeSeqNum]; [None] is the early
    [return 0]. *)
Fixpoint decode_loop (q : list trackerUpdate) (seqNum : Z) : option Z :=
  match q with
  | [] => Some seqNum
  | update :: q' =>
    if decide (expunge update = 0) then decode_loop q' seqNum
    else if decide (seqNum = expunge update) then None
    else if decide (seqNum > expunge update) then decode_loop q' (wrap32 (seqNum - 1))
    else decode_loop q' seqNum
  end.

(** [SessionTracker.DecodeSeqNum] *)
Definition DecodeSeqNum (t : MailboxTracker) (st : SessionTracker) (seqNum : Z) : outcome Z :=
  if decide (seqNum = 0) then Ok 0
  else match decode_loop (queue st) seqNum with
       | None => Ok 0
       | Some seqNum =>
         match mailbox st with
         | None => Panic "nil pointer dereference"
         | Some _ => if decide (seqNum > t_numMessages t) then Ok 0 else Ok seqNum
         end
       end.

(** The loop of [SessionTracker.EncodeSeqNum], over the queue reversed
    ([i] runs from [len(t.queue) - 1] down to 0); [None] is the early
    [return 0]. *)
Fixpoint encode_loop (rq : list trackerUpdate) (seqNum : Z) : option Z :=
  match rq with
  | [] => Some seqNum
  | update :: rq' =>
    if decide (numMessages update ≠ 0 ∧ seqNum = numMessages update) then None
    else if decide (expunge update ≠ 0 ∧ seqNum >= expunge update)
         then encode_loop rq' (wrap32 (seqNum + 1))
         else encode_loop rq' seqNum
  end.

(** [SessionTracker.EncodeSeqNum] *)
Definition EncodeSeqNum (t : MailboxTracker) (st : SessionTracker) (seqNum : Z) : outcome Z :=
  if decide (seqNum = 0) then Ok 0
  else match mailbox st with
       | None => Panic "nil pointer dereference"
       | Some _ =>
         if decide (seqNum > t_numMessages t) then Ok 0
         else match encode_loop (reverse (queue st)) seqNum with
              | None => Ok 0
              | Some seqNum => Ok seqNum
              end
       end.


(** *** The connection and its writers *)

(** [imap.StatusResponseType] *)
Inductive StatusResponseType : Type :=
  | StatusResponseTypeOK
  | StatusResponseTypeNo
  | StatusResponseTypeBad
  | StatusResponseTypePreAuth
  | StatusResponseTypeBye.

(** [imap.StatusResponse] *)
Record StatusResponse : Type := {
  Type_ : StatusResponseType;
  Code : string;
  Text : string;
}.

(** One response line handed to the transport.  [RespData] stands for what
    a command handler writes itself. *)
Inductive Response : Type :=
  | RespExpunge (seqNum : Z)
  | RespExists (n : Z)
  | RespFlags (flags : list Flag)
  | RespFetchFlags (seqNum : Z) (uid : option Z) (flags : list Flag)
  | RespStatus (tag : string) (resp : StatusResponse)
  | RespData (line : string).

(** What a call returns: nil, an error, or a panic unwinding through it. *)
Inductive ret : Type :=
  | Nil
  | Err (e : error)
  | Panicked (msg : string).

(** [imapmemserver.UserSession]: [mailbox] is nil or the selected
    [MailboxView], of which only its [tracker] matters here. *)
Record UserSession : Type := {
  us_mailbox : option SessionPtr;
}.

(** [Conn]: the protocol state, the session and the responses written to
    the transport so far, oldest first. *)
Record Conn : Type := {
  state : ConnState;
  session : UserSession;
  wire : list Response;
}.

(** [UpdateWriter]; its [conn] is the connection threaded through the
    calls. *)
Record UpdateWriter : Type := {
  allowExpunge : bool;
}.

Section Transport.

(** The transport: whether the next write fails, given what was written
    before it. *)
Variable io_err : list Response → option error.

Definition conn_write (r : Response) (c : Conn) : Conn * ret :=
  match io_err (wire c) with
  | Some e => (c, Err e)
  | None => ({| state := state c; session := session c; wire := wire c ++ [r] |}, Nil)
  end.

(** [Conn.writeStatusResp] *)
Definition writeStatusResp (tag : string) (statusResp : StatusResponse) (c : Conn) : Conn * ret :=
  conn_write (RespStatus tag statusResp) c.

(** [UpdateWriter.WriteExpunge] *)
Definition WriteExpunge (w : UpdateWriter) (seqNum : Z) (c : Conn) : Conn * ret :=
  if allowExpunge w then conn_write (RespExpunge seqNum) c
  else (c, Err "imapserver：在此上下文中不允许进行 EXPUNGE 更新").

(** [UpdateWriter.WriteNumMessages] *)
Definition WriteNumMessages (w : UpdateWriter) (n : Z) (c : Conn) : Conn * ret :=
  conn_write (RespExists n) c.

(** [UpdateWriter.WriteMailboxFlags] *)
Definition WriteMailboxFlags (w : UpdateWriter) (fl : list Flag) (c : Conn) : Conn * ret :=
  conn_write (RespFlags fl) c.

(** [UpdateWriter.WriteMessageFlags]: the UID is written when non-zero. *)
Definition WriteMessageFlags (w : UpdateWriter) (seqNum uid : Z) (fl : list Flag)
    (c : Conn) : Conn * ret :=
  conn_write (RespFetchFlags seqNum (if decide (uid ≠ 0) then Some uid else None) fl) c.

(** *** [SessionTracker.Poll] *)

(** The scan of [Poll] when expunges are not allowed: the collected
    [updates] and [stopIndex] ([None] is -1). *)
Fixpoint poll_scan (i : nat) (q updates : list trackerUpdate)
    : list trackerUpdate * option nat :=
  match q with
  | [] => (updates, None)
  | update :: q' =>
    if decide (expunge update ≠ 0) then (updates, Some i)
    else poll_scan (S i) q' (updates ++ [update])
  end.

(** The part of [Poll] under the session mutex. *)
Definition Poll_dequeue (allowExpunge : bool) (st : SessionTracker)
    : list trackerUpdate * SessionTracker :=
  if allowExpunge then (queue st, set_queue st [])
  else
    let '(updates, stopIndex) := poll_scan 0 (queue st) [] in
    (updates,
     set_queue st match stopIndex with
                  | Some i => drop i (queue st)
                  | None => []
                  end).

(** The [switch] of [Poll] on one dequeued update. *)
Definition Poll_write1 (w : UpdateWriter) (update : trackerUpdate) (c : Conn) : Conn * ret :=
  if decide (expunge update ≠ 0) then WriteExpunge w (expunge update) c
  else if decide (numMessages update ≠ 0) then WriteNumMessages w (numMessages update) c
  else match mailboxFlags update with
       | Some fl => WriteMailboxFlags w fl c
       | None =>
         match fetch update with
         | Some f => WriteMessageFlags w (seqNum f) (uid f) (flags f) c
         | None => (c, Panicked "imapserver: 未知的跟踪更新 %#v")
         end
       end.

(** The delivery loop of [Poll]. *)
Fixpoint Poll_write (w : UpdateWriter) (updates : list trackerUpdate) (c : Conn) : Conn * ret :=
  match updates with
  | [] => (c, Nil)
  | update :: rest =>
    match Poll_write1 w update c with
    | (c', Nil) => Poll_write w rest c'
    | (c', r) => (c', r)
    end
  end.

(** [SessionTracker.Poll] *)
Definition Poll (w : UpdateWriter) (allowExpunge : bool) (st : SessionTracker) (c : Conn)
    : SessionTracker * Conn * ret :=
  let '(updates, st') := Poll_dequeue allowExpunge st in
  let '(c', r) := Poll_write w updates c in
  (st', c', r).

(** *** [SessionTracker.Idle]

    [Idle] blocks, so it is cut at its suspension points: the registration
    under the mutex, one turn of the [select] loop, and the deferred
    function.  [IdleSys] is one session tracker, the connection it writes
    to, and the number of [Idle] calls that registered and have not
    returned; the channel of a registered call is the one in [updates]. *)

Definition Idle_register (st : SessionTracker) : option SessionTracker :=
  match updates st with
  | None => Some (set_updates st (Some 0%nat))
  | Some _ => None
  end.

Definition Idle_deferred (st : SessionTracker) : SessionTracker :=
  set_updates st None.

Record IdleSys : Type := {
  i_st : SessionTracker;
  i_conn : Conn;
  i_running : nat;
}.

Inductive idle_action : Type :=
  | ACall                                (* a goroutine calls Idle *)
  | AQueued (update : trackerUpdate)     (* MailboxTracker.queueUpdate reaches this session *)
  | AUpdates                             (* the select receives from updates *)
  | AStop                                (* the select receives from stop *)
  | APoll (allowExpunge : bool).         (* Conn.poll on the command loop *)

(** One step; [None] when the action cannot happen in this state,
    otherwise the new state and the value returned by an [Idle] call that
    returns in this step. *)
Definition idle_step (a : idle_action) (s : IdleSys) : option (IdleSys * option ret) :=
  match a with
  | ACall =>
    match Idle_register (i_st s) with
    | None => Some (s, Some (Err "imapserver: 同一时间只允许一个 SessionTracker.Idle 调用"))
    | Some st =>
      Some ({| i_st := st; i_conn := i_conn s; i_running := S (i_running s) |}, None)
    end
  | AQueued update =>
    Some ({| i_st := session_queueUpdate update (i_st s);
             i_conn := i_conn s; i_running := i_running s |}, None)
  | AUpdates =>
    match i_running s, updates (i_st s) with
    | S k, Some (S n) =>
      let st := set_updates (i_st s) (Some n) in
      match Poll {| allowExpunge := true |} true st (i_conn s) with
      | (st', c', Nil) => Some ({| i_st := st'; i_conn := c'; i_running := S k |}, None)
      | (st', c', r) =>
        Some ({| i_st := Idle_deferred st'; i_conn := c'; i_running := k |}, Some r)
      end
    | _, _ => None
    end
  | AStop =>
    match i_running s with
    | S k =>
      Some ({| i_st := Idle_deferred (i_st s); i_conn := i_conn s; i_running := k |}, Some Nil)
    | O => None
    end
  | APoll allow =>
    match Poll {| allowExpunge := allow |} allow (i_st s) (i_conn s) with
    | (st', c', _) => Some ({| i_st := st'; i_conn := c'; i_running := i_running s |}, None)
    end
  end.

(** States reached from a fresh session tracker. *)
Inductive idle_reachable (c0 : Conn) : IdleSys → Prop :=
  | idle_reach_init :
      idle_reachable c0
        {| i_st := {| mailbox := Some (); queue := []; updates := None |};
           i_conn := c0; i_running := 0 |}
  | idle_reach_step s a s' r :
      idle_reachable c0 s → idle_step a s = Some (s', r) → idle_reachable c0 s'.

(** *** Method calls on a [SessionTracker] held in the store *)

Definition DecodeSeqNum_at (p : SessionPtr) (seqNum : Z) (w : World) : outcome Z :=
  match heap w !! p with
  | Some st => DecodeSeqNum (tracker w) st seqNum
  | None => Panic "nil SessionTracker"
  end.

Definition EncodeSeqNum_at (p : SessionPtr) (seqNum : Z) (w : World) : outcome Z :=
  match heap w !! p with
  | Some st => EncodeSeqNum (tracker w) st seqNum
  | None => Panic "nil SessionTracker"
  end.

Definition Poll_at (wr : UpdateWriter) (allow : bool) (p : SessionPtr)
    (cw : Conn * World) : (Conn * World) * ret :=
  let '(c, w) := cw in
  match heap w !! p with
  | Some st =>
    let '(st', c', r) := Poll wr allow st c in
    ((c', {| tracker := tracker w; heap := <[ p := st' ]> (heap w); next := next w |}), r)
  | None => ((c, w), Panicked "nil SessionTracker")
  end.

(** *** The command loop *)

(** [imapmemserver.UserSession.Poll] *)
Definition UserSession_Poll (wr : UpdateWriter) (allow : bool)
    (cw : Conn * World) : (Conn * World) * ret :=
  match us_mailbox (session cw.1) with
  | None => (cw, Nil)
  | Some p => Poll_at wr allow p cw
  end.

(** [Conn.poll] *)
Definition Conn_poll (cmd : string) (cw : Conn * World) : (Conn * World) * ret :=
  match state cw.1 with
  | ConnStateAuthenticated | ConnStateSelected =>
    let allow :=
      if decide (cmd = "FETCH" ∨ cmd = "STORE" ∨ cmd = "SEARCH") then false else true in
    UserSession_Poll {| allowExpunge := allow |} allow cw
  | _ => (cw, Nil)
  end.

(** What a command handler returns, by the cases [readCommand] tells
    apart with [errors.As]. *)
Inductive handler_error : Type :=
  | HNil
  | HImapError (resp : StatusResponse)
  | HDecoderExpectError (message : string)
  | HOther (e : error).

(** The command names of the [switch] in [readCommand]. *)
Definition known_commands : list string :=
  [ "NOOP"; "CHECK"; "LOGOUT"; "CAPABILITY"; "STARTTLS"; "AUTHENTICATE";
    "UNAUTHENTICATE"; "LOGIN"; "ENABLE"; "CREATE"; "DELETE"; "RENAME";
    "SUBSCRIBE"; "UNSUBSCRIBE"; "STATUS"; "LIST"; "LSUB"; "NAMESPACE"; "IDLE";
    "SELECT"; "EXAMINE"; "CLOSE"; "UNSELECT"; "APPEND"; "FETCH"; "UID FETCH";
    "EXPUNGE"; "UID EXPUNGE"; "STORE"; "UID STORE"; "COPY"; "UID COPY";
    "MOVE"; "UID MOVE"; "SEARCH"; "UID SEARCH" ].

(** The cases that set [sendOK = false]: the handler writes the tagged
    response itself. *)
Definition no_sendOK_commands : list string :=
  [ "STARTTLS"; "AUTHENTICATE"; "LOGIN"; "SELECT"; "EXAMINE"; "APPEND";
    "COPY"; "UID COPY" ].

Definition sendOK (name : string) : bool :=
  bool_decide (name ∉ no_sendOK_commands).

Definition internalServerErrorResp : StatusResponse :=
  {| Type_ := StatusResponseTypeNo; Code := "SERVERBUG"; Text := "内部服务器错误" |}.

Definition set_state (c : Conn) (s : ConnState) : Conn :=
  {| state := s; session := session c; wire := wire c |}.

(** The command handlers are the session's business. *)
Variable handle : string → string → Conn * World → (Conn * World) * handler_error.

(** [Conn.readCommand], from the dispatch on the parsed [tag] and [name]
    (upper-cased, with "UID " prefixed for a UID command) onwards. *)
Definition readCommand (tag name : string) (cw : Conn * World) : (Conn * World) * ret :=
  let known := bool_decide (name ∈ known_commands) in
  let bye := bool_decide ((name ∉ known_commands) ∧ state (cw.1) = ConnStateNotAuthenticated) in
  let '(cw1, err) :=
    if known then handle name tag cw
    else
      ((if bye then set_state cw.1 ConnStateLogout else cw.1, cw.2),
       HImapError {| Type_ := StatusResponseTypeBad; Code := "";
                     Text := "命令无法识别" |}) in
  let status (resp : StatusResponse) (cw : Conn * World) : (Conn * World) * ret :=
    let '(c, r) := writeStatusResp tag resp cw.1 in ((c, cw.2), r) in
  let '(cw2, r) :=
    match err with
    | HImapError resp => status resp cw1
    | HDecoderExpectError message =>
      status {| Type_ := StatusResponseTypeBad; Code := "CLIENTBUG";
                Text := "语法错误: " +:+ message |} cw1
    | HOther _ => status internalServerErrorResp cw1
    | HNil =>
      if sendOK name then
        match Conn_poll name cw1 with
        | (cw2, Nil) =>
          status {| Type_ := StatusResponseTypeOK; Code := "";
                    Text := name +:+ " 完成" |} cw2
        | (cw2, r) => (cw2, r)
        end
      else (cw1, Nil)
    end in
  (* the deferred c.Bye of the default case *)
  if bye then
    let '(c, _) := writeStatusResp "" {| Type_ := StatusResponseTypeBye; Code := "";
                                         Text := "命令无法识别" |} cw2.1 in
    ((c, cw2.2), r)
  else (cw2, r).

End Transport.

(** *** Histories of tracker operations *)

(** The four notifications of [MailboxTracker]. *)
Inductive mutation : Type :=
  | MExpunge (seqNum : Z)
  | MNumMessages (n : Z)
  | MMailboxFlags (fl : option (list Flag))
  | MMessageFlags (seqNum uid : Z) (fl : list Flag) (source : option SessionPtr).

Definition notify (m : mutation) (w : World) : outcome World :=
  match m with
  | MExpunge seqNum => QueueExpunge seqNum w
  | MNumMessages n => QueueNumMessages n w
  | MMailboxFlags fl => QueueMailboxFlags fl w
  | MMessageFlags seqNum uid fl source => QueueMessageFlags seqNum uid fl source w
  end.

(** The record a notification broadcasts, and the session it leaves out. *)
Definition mutation_record (m : mutation) : trackerUpdate :=
  match m with
  | MExpunge seqNum => update_expunge seqNum
  | MNumMessages n => update_numMessages n
  | MMailboxFlags fl => update_mailboxFlags (default [] fl)
  | MMessageFlags seqNum uid fl _ =>
    update_fetch {| seqNum := seqNum; uid := uid; flags := fl |}
  end.

Definition mutation_source (m : mutation) : option SessionPtr :=
  match m with
  | MMessageFlags _ _ _ source => source
  | _ => None
  end.

Inductive op : Type :=
  | OpNewSession
  | OpClose (p : SessionPtr)
  | OpNotify (m : mutation)
  | OpPoll (p : SessionPtr) (allow : bool).

(** [OpPoll] keeps what [Poll] does to the store: the dequeueing. *)
Definition run_op (o : op) (w : World) : outcome World :=
  match o with
  | OpNewSession => Ok (NewSession w).1
  | OpClose p => Close p w
  | OpNotify m => notify m w
  | OpPoll p allow =>
    match heap w !! p with
    | Some st =>
      Ok {| tracker := tracker w;
            heap := <[ p := (Poll_dequeue allow st).2 ]> (heap w);
            next := next w |}
    | None => Panic "nil SessionTracker"
    end
  end.

Fixpoint run (ops : list op) (w : World) : outcome World :=
  match ops with
  | [] => Ok w
  | o :: ops' => w' ← run_op o w; run ops' w'
  end.

(** Arguments of type [uint32] are in range. *)
Definition mutation_typed (m : mutation) : Prop :=
  match m with
  | MExpunge seqNum => is_uint32 seqNum
  | MNumMessages n => is_uint32 n
  | MMailboxFlags _ => True
  | MMessageFlags seqNum uid _ _ => is_uint32 seqNum ∧ is_uint32 uid
  end.

Definition op_typed (o : op) : Prop :=
  match o with
  | OpNotify m => mutation_typed m
  | _ => True
  end.

(** *** The update record as the tagged union it stands for *)

Inductive Update : Type :=
  | UExpunge (position : Z)
  | UGrow (newCount : Z)
  | UMailboxFlags (fl : list Flag)
  | UMessageFlags (seqNum uid : Z) (fl : list Flag).

(** The variant a record stands for, by the order of the [switch] in
    [Poll]; the record with no field set stands for none. *)
Definition view (u : trackerUpdate) : option Update :=
  if decide (expunge u ≠ 0) then Some (UExpunge (expunge u))
  else if decide (numMessages u ≠ 0) then Some (UGrow (numMessages u))
  else match mailboxFlags u, fetch u with
       | Some fl, _ => Some (UMailboxFlags fl)
       | None, Some f => Some (UMessageFlags (seqNum f) (uid f) (flags f))
       | None, None => None
       end.

(** The pending records of a queue, oldest first. *)
Definition pending (q : list trackerUpdate) : list Update := omap view q.

(** A record as the [Queue...] functions build it: one variant, at most one
    field set, numbers in range. *)
Definition update_wf (u : trackerUpdate) : Prop :=
  (∃ n, u = update_expunge n ∧ 0 < n < uint32_modulus) ∨
  (∃ n, u = update_numMessages n ∧ is_uint32 n) ∨
  (∃ fl, u = update_mailboxFlags fl) ∨
  (∃ f, u = update_fetch f).

(** What every history keeps true of the store. *)
Definition world_wf (w : World) : Prop :=
  is_uint32 (t_numMessages (tracker w)) ∧
  (∀ p, p ∈ t_sessions (tracker w) → is_Some (heap w !! p)) ∧
  (∀ p st, heap w !! p = Some st →
     (p < next w)%positive ∧
     Forall update_wf (queue st) ∧
     (p ∈ t_sessions (tracker w) ↔ mailbox st = Some ())).

(** What Go's types give for a record: its numbers are [uint32]. *)
Definition update_typed (u : trackerUpdate) : Prop :=
  is_uint32 (expunge u) ∧ is_uint32 (numMessages u).

(** Decode in the words of the specification: replay the pending expunges
    oldest first; [None] is not found. *)
Fixpoint decode_replay (pend : list Update) (n : Z) : option Z :=
  match pend with
  | [] => Some n
  | UExpunge target :: rest =>
    if decide (target = n) then None
    else if decide (target < n) then decode_replay rest (n - 1)
    else decode_replay rest n
  | _ :: rest => decode_replay rest n
  end.

Definition decode_spec (count : Z) (pend : list Update) (n : Z) : Z :=
  match decode_replay pend n with
  | None => 0
  | Some r => if decide (r > count) then 0 else r
  end.

(** Expunge positions are sequence numbers: positive [uint32]s. *)
Definition Update_typed (v : Update) : Prop :=
  match v with
  | UExpunge target => 0 < target < uint32_modulus
  | _ => True
  end.

(** The successor of a [uint32]. *)
Definition succ32 (n : Z) : Z := wrap32 (n + 1).

(** Encode in the words of the specification: walk the pending records
    newest first; [None] is not yet visible. *)
Fixpoint encode_walk (newest_first : list Update) (n : Z) : option Z :=
  match newest_first with
  | [] => Some n
  | UGrow newCount :: rest =>
    if decide (newCount = n) then None else encode_walk rest n
  | UExpunge target :: rest =>
    if decide (target ≤ n) then encode_walk rest (succ32 n) else encode_walk rest n
  | _ :: rest => encode_walk rest n
  end.

Definition encode_spec (pend : list Update) (n : Z) : Z :=
  default 0 (encode_walk (reverse pend) n).

(** The observer's outdated view of the mailbox as a list of messages, and
    what the pending expunges do to it; an expunge beyond the messages of
    the view removes none of them. *)
Fixpoint apply_expunges {A} (pend : list Update) (msgs : list A) : list A :=
  match pend with
  | [] => msgs
  | UExpunge target :: rest =>
    apply_expunges rest
      (if decide (0 < target) then delete (Z.to_nat (target - 1)) msgs else msgs)
  | _ :: rest => apply_expunges rest msgs
  end.

(** The pending queue marks the client-view number [m] as expunged: of the
    messages 1..m of the observer's view, message [m] does not survive the
    pending expunges. *)
Definition marks_expunged (pend : list Update) (m : Z) : Prop :=
  0 < m ∧ m ∉ apply_expunges pend (seqZ 1 m).

(** The response an update is delivered as. *)
Definition response_of (u : Update) : Response :=
  match u with
  | UExpunge position => RespExpunge position
  | UGrow newCount => RespExists newCount
  | UMailboxFlags fl => RespFlags fl
  | UMessageFlags seqNum uid fl =>
    RespFetchFlags seqNum (if decide (uid ≠ 0) then Some uid else None) fl
  end.

(** The session tracker [Conn.poll] polls, if any. *)
Definition polled_session (c : Conn) : option SessionPtr :=
  match state c with
  | ConnStateAuthenticated | ConnStateSelected => us_mailbox (session c)
  | _ => None
  end.

(** The tagged OK written by [readCommand]. *)
Definition completion (tag name : string) : Response :=
  RespStatus tag {| Type_ := StatusResponseTypeOK; Code := "";
                    Text := name +:+ " 完成" |}.

(** *** The scenarios of the specification *)

(** A mailbox of 42 messages, observer A with nothing pending, then an
    expunge of position 20. *)
Definition decode_scenario (n : Z) : outcome Z :=
  let '(w, A) := NewSession (NewMailboxTracker 42) in
  w ← QueueExpunge 20 w;
  DecodeSeqNum_at A n w.

(** The count grows from 42 to 43 while observer B has not polled; then B
    polls. *)
Definition encode_scenario_before_poll (n : Z) : outcome Z :=
  let '(w, B) := NewSession (NewMailboxTracker 42) in
  w ← QueueNumMessages 43 w;
  EncodeSeqNum_at B n w.

Definition encode_scenario_after_poll (allow : bool) (n : Z) : outcome Z :=
  let '(w, B) := NewSession (NewMailboxTracker 42) in
  w ← QueueNumMessages 43 w;
  w ← run_op (OpPoll B allow) w;
  EncodeSeqNum_at B n w.

(** *** The handlers of [conn.go] and the loop of [Conn.serve] *)

(** A call that returns an [error] which is not an IMAP error. *)
Definition ret_error (r : ret) : handler_error :=
  match r with
  | Nil => HNil
  | Err e => HOther e
  | Panicked msg => HOther msg
  end.

(** The two responses to a command that is not recognised. *)
Definition unknownBad : StatusResponse :=
  {| Type_ := StatusResponseTypeBad; Code := ""; Text := "命令无法识别" |}.
Definition unknownBye : StatusResponse :=
  {| Type_ := StatusResponseTypeBye; Code := ""; Text := "命令无法识别" |}.

Definition byeLogout : StatusResponse :=
  {| Type_ := StatusResponseTypeBye; Code := ""; Text := "注销" |}.

Definition literalTooBig : StatusResponse :=
  {| Type_ := StatusResponseTypeNo; Code := "TOOBIG";
     Text := "此命令的字面量限制为 4096 字节" |}.

Definition nonSyncLiteralTooBig : StatusResponse :=
  {| Type_ := StatusResponseTypeBad; Code := "";
     Text := "非同步字面量限制为 4096 字节" |}.

Section Serve.

Variable io_err : list Response → option error.
Variable handle : string → string → Conn * World → (Conn * World) * handler_error.

(** [Conn.handleLogout].  The decoder is not part of the development: the
    handler is given whether [dec.ExpectCRLF()] holds and what [dec.Err()]
    is when it does not. *)
Definition handleLogout (ExpectCRLF : bool) (decErr : handler_error) (c : Conn)
    : Conn * handler_error :=
  if ExpectCRLF then
    let '(c', r) := writeStatusResp io_err "" byeLogout (set_state c ConnStateLogout) in
    (c', ret_error r)
  else (c, decErr).

(** [Conn.writeContReq]: the line [+ text]. *)
Definition writeContReq (text : string) (c : Conn) : Conn * ret :=
  conn_write io_err (RespData ("+ " +:+ text)) c.

(** [Conn.acceptLiteral]; [literalPlus] is whether the server's
    capabilities have LITERAL+. *)
Definition acceptLiteral (literalPlus : bool) (size : Z) (nonSync : bool) (c : Conn)
    : Conn * handler_error :=
  if nonSync && bool_decide (size > 4096) && negb literalPlus then
    (c, HImapError nonSyncLiteralTooBig)
  else if nonSync then (c, HNil)
  else let '(c', r) := writeContReq "中文什么意思" c in (c', ret_error r).

(** [Conn.checkBufferedLiteral] *)
Definition checkBufferedLiteral (literalPlus : bool) (size : Z) (nonSync : bool) (c : Conn)
    : Conn * handler_error :=
  if decide (size > 4096) then (c, HImapError literalTooBig)
  else acceptLiteral literalPlus size nonSync c.

(** The [for] loop of [Conn.serve], after the greeting.  The input is the
    command lines still to come, each with the tag and the name
    [readCommand] parses from it, [None] when they do not parse; the empty
    input is EOF.  A panic of [readCommand] ends the loop through the
    deferred [recover]. *)
Fixpoint serve_loop (input : list (option (string * string))) (cw : Conn * World)
    : Conn * World :=
  match input with
  | [] => cw
  | line :: rest =>
    if decide (state cw.1 = ConnStateLogout) then cw
    else match line with
         | None => cw
         | Some (tag, name) =>
           match readCommand io_err handle tag name cw with
           | (cw', Nil) => serve_loop rest cw'
           | (cw', _) => cw'
           end
         end
  end.

End Serve.

(** *** Runs of [Idle] steps *)

Section IdleRun.

Variable io_err : list Response → option error.

(** A run of steps; [None] when one of them cannot happen. *)
Fixpoint idle_run (acts : list idle_action) (s : IdleSys) : option IdleSys :=
  match acts with
  | [] => Some s
  | a :: acts' =>
    match idle_step io_err a s with
    | Some (s', _) => idle_run acts' s'
    | None => None
    end
  end.

End IdleRun.

(** The records queued by a run. *)
Definition queued (acts : list idle_action) : list trackerUpdate :=
  omap (λ a, match a with AQueued update => Some update | _ => None end) acts.

(** The steps of the mailbox side and of the [select] loop while an
    [Idle] call is registered. *)
Definition idling_action (a : idle_action) : Prop :=
  match a with
  | AQueued _ | AUpdates => True
  | _ => False
  end.

(** *** [Server.Serve]: the accept loop *)

(** [time.Duration] is an [int64] of nanoseconds. *)
Definition wrap_int64 (z : Z) : Z := (z + 2 ^ 63) mod 2 ^ 64 - 2 ^ 63.
Definition Millisecond : Z := 1000000.
Definition Second : Z := 1000000000.

(** What a call of [ln.Accept] gives, by the branch of the loop that takes
    it. *)
Inductive accept_result : Type :=
  | AcceptTemporary
  | AcceptClosed
  | AcceptError (e : error)
  | AcceptConn (conn : positive).

Inductive serve_event : Type :=
  | Sleep (d : Z)
  | GoServe (conn : positive).

(** The loop of [Server.Serve] over the results of the calls of
    [ln.Accept] still to come: what the loop does, and its return value
    ([None] while it is still accepting). *)
Fixpoint Serve_loop (accepts : list accept_result) (delay : Z)
    : list serve_event * option ret :=
  match accepts with
  | [] => ([], None)
  | AcceptTemporary :: rest =>
    let delay := if decide (delay = 0) then 5 * Millisecond else wrap_int64 (delay * 2) in
    let delay := if decide (delay > 1 * Second) then 1 * Second else delay in
    let '(ev, r) := Serve_loop rest delay in
    (Sleep delay :: ev, r)
  | AcceptClosed :: _ => ([], Some Nil)
  | AcceptError e :: _ => ([], Some (Err ("接受错误：" +:+ e)))
  | AcceptConn conn :: rest =>
    let '(ev, r) := Serve_loop rest 0 in
    (GoServe conn :: ev, r)
  end.

(** The delay after [j + 1] temporary errors in a row. *)
Definition backoff (j : nat) : Z := Z.min (5 * Millisecond * 2 ^ Z.of_nat j) Second.

(** *** [MatchList]

    A Go string is its bytes. *)

Definition gostring : Type := list ascii.

(** [string(b)] for a byte [b]: the UTF-8 encoding of the code point
    [b]. *)
Definition string_of_byte (b : ascii) : gostring :=
  let n := N_of_ascii b in
  if decide (n < 128)%N then [b]
  else [ascii_of_N (192 + n / 64); ascii_of_N (128 + n mod 64)].

Definition is_wildcard (c : ascii) : bool :=
  bool_decide (c = "*"%char ∨ c = "%"%char).

(** [strings.IndexAny(pattern, "*%")]; [None] is -1. *)
Fixpoint IndexAny_wildcard (pattern : gostring) : option nat :=
  match pattern with
  | [] => None
  | c :: rest => if is_wildcard c then Some 0%nat else S <$> IndexAny_wildcard rest
  end.

(** [strings.HasPrefix] and [strings.TrimPrefix] *)
Definition HasPrefix (s prefix : gostring) : bool :=
  bool_decide (take (length prefix) s = prefix).
Definition TrimPrefix (s prefix : gostring) : gostring :=
  if HasPrefix s prefix then drop (length prefix) s else s.

(** The [for j] loop of [matchList] with the call after it, on
    [name[j:]]; [rec] is [matchList] on the rest of the pattern. *)
Fixpoint matchList_expand (rec : gostring → bool) (wildcard : ascii) (delim : gostring)
    (name : gostring) : bool :=
  match name with
  | [] => rec []
  | b :: name' =>
    if bool_decide (wildcard = "%"%char) && bool_decide (string_of_byte b = delim)
    then rec name
    else if rec name then true
    else matchList_expand rec wildcard delim name'
  end.

(** [matchList]; every call is on a shorter pattern, which [fuel]
    bounds. *)
Fixpoint matchList_fuel (fuel : nat) (name delim pattern : gostring) : bool :=
  match fuel with
  | O => false
  | S fuel =>
    match IndexAny_wildcard pattern with
    | None => bool_decide (name = pattern)
    | Some i =>
      match pattern !! i with
      | None => false
      | Some wildcard =>
        let chunk := take i pattern in
        let rest := drop (S i) pattern in
        if bool_decide (0 < length chunk)%nat && negb (HasPrefix name chunk) then false
        else
          matchList_expand (λ n, matchList_fuel fuel n delim rest) wildcard delim
            (TrimPrefix name chunk)
      end
    end
  end.

Definition matchList (name delim pattern : gostring) : bool :=
  matchList_fuel (S (length pattern)) name delim pattern.

(** What a pattern matches: a character other than the wildcards
    matches itself, [*] any bytes, [%] any bytes none of which is the
    delimiter. *)
Inductive Matches (delim : gostring) : gostring → gostring → Prop :=
  | Matches_nil : Matches delim [] []
  | Matches_char c pattern name :
      is_wildcard c = false →
      Matches delim pattern name → Matches delim (c :: pattern) (c :: name)
  | Matches_star pattern s name :
      Matches delim pattern name → Matches delim ("*"%char :: pattern) (s ++ name)
  | Matches_percent pattern s name :
      Forall (λ b, string_of_byte b ≠ delim) s →
      Matches delim pattern name → Matches delim ("%"%char :: pattern) (s ++ name).

End Imapserver.

(** ** Package [imapclient] *)

Module Imapclient.

(** [imap.StatusData] and [imap.ListData], with the fields the command
    engine reads and writes. *)
Record StatusData : Type := {
  sd_Mailbox : string;
  sd_NumMessages : option Z;
}.

Record ListData : Type := {
  ld_Mailbox : string;
  ld_Status : option StatusData;
}.

(** A buffered channel: the buffered values, oldest first, the capacity,
    and whether the channel is closed.  In a [chan error] the value [None]
    is the nil error. *)
Record chan (A : Type) : Type := {
  buf : list A;
  cap : nat;
  closed : bool;
}.
Arguments Build_chan {A} buf cap closed.
Arguments buf {A} c.
Arguments cap {A} c.
Arguments closed {A} c.

(** [make(chan T, n)] *)
Definition make_chan {A : Type} (n : nat) : chan A :=
  {| buf := []; cap := n; closed := false |}.

(** The dynamic types [completeCommand], [handleList] and [handleStatus]
    switch on, with the fields that are set when the command is made. *)
Inductive command_kind : Type :=
  | authenticateCommand
  | loginCommand
  | unauthenticateCommand
  | SelectCommand (mailbox : string)
  | unselectCommand
  | logoutCommand
  | ListCommand (returnStatus : bool)
  | StatusCommand (mailbox : string)
  | FetchCommand
  | ExpungeCommand
  | otherCommand.

(** [commandBase] *)
Record commandBase : Type := {
  tag : string;
  done : chan (option error);
  err : option error;
}.

(** A command: its base, its dynamic type, and the fields of the command
    types that change while the command is pending.  A field belongs to
    one command type and keeps its first value in a command of another
    type.
    - [stream_closed]: whether [FetchCommand.msgs] or
      [ExpungeCommand.seqNums] is closed; the values sent on these two
      are left out;
    - [mailboxes] and [pendingData]: of [ListCommand];
    - [data_List]: [SelectCommand.data.List];
    - [st_data]: [StatusCommand.data]. *)
Record command : Type := {
  base : commandBase;
  kind : command_kind;
  stream_closed : bool;
  mailboxes : chan ListData;
  pendingData : option ListData;
  data_List : option ListData;
  st_data : option StatusData;
}.

Definition CmdPtr : Type := positive.

(** [continuationRequest]: the request and the command it belongs to. *)
Record continuationRequest : Type := {
  cr_id : positive;
  cr_cmd : CmdPtr;
}.

(** [Client]: the fields under [mutex] that the command engine uses, the
    commands allocated so far, the continuation requests cancelled so far
    with the error given to [Cancel], and whether [conn.Close] was
    called. *)
Record Client : Type := {
  state : ConnState;
  mailbox : option string;
  cmdTag : Z;
  pendingCmds : list CmdPtr;
  contReqs : list continuationRequest;
  cmds : gmap CmdPtr command;
  next_cmd : CmdPtr;
  cancelled : list (positive * option error);
  conn_closed : bool;
}.

(** A call returns, panics, or does not get past a channel operation.
    The calls of the reading goroutine send on the result stream of a
    LIST command; a call that cannot get past such a send is parked in
    it, and [Parked] holds the client as the call has left it, which is
    what the other goroutines see from then on. *)
Inductive result (A : Type) : Type :=
  | Done (a : A)
  | Panics (msg : string)
  | Blocks
  | Parked (c : Client).
Arguments Done {A} a.
Arguments Panics {A} msg.
Arguments Blocks {A}.
Arguments Parked {A} c.

#[global] Instance result_ret : MRet result := fun A a => Done a.
#[global] Instance result_bind : MBind result := fun A B k m =>
  match m with
  | Done a => k a
  | Panics msg => Panics msg
  | Blocks => Blocks
  | Parked c => Parked c
  end.

(** [ch <- v] *)
Definition chan_send {A : Type} (v : A) (ch : chan A) : result (chan A) :=
  if closed ch then Panics "send on closed channel"
  else if decide (length (buf ch) < cap ch)%nat
       then Done {| buf := buf ch ++ [v]; cap := cap ch; closed := false |}
       else Blocks.

(** [close(ch)] *)
Definition chan_close {A : Type} (ch : chan A) : result (chan A) :=
  if closed ch then Panics "close of closed channel"
  else Done {| buf := buf ch; cap := cap ch; closed := true |}.

(** A send on a result stream, made when the call has brought the client
    to [c]: a send that cannot proceed parks the call there. *)
Definition parks {A : Type} (c : Client) (r : result A) : result A :=
  match r with
  | Blocks => Parked c
  | _ => r
  end.

Definition uint64_modulus : Z := 2 ^ 64.

(** [New] *)
Definition New : Client :=
  {| state := ConnStateNone; mailbox := None; cmdTag := 0; pendingCmds := [];
     contReqs := []; cmds := ∅; next_cmd := 1%positive; cancelled := [];
     conn_closed := false |}.

Definition set_cmd (p : CmdPtr) (cmd : command) (c : Client) : Client :=
  {| state := state c; mailbox := mailbox c; cmdTag := cmdTag c;
     pendingCmds := pendingCmds c; contReqs := contReqs c;
     cmds := <[ p := cmd ]> (cmds c); next_cmd := next_cmd c;
     cancelled := cancelled c; conn_closed := conn_closed c |}.

Definition set_base (b : commandBase) (cmd : command) : command :=
  {| base := b; kind := kind cmd; stream_closed := stream_closed cmd;
     mailboxes := mailboxes cmd; pendingData := pendingData cmd;
     data_List := data_List cmd; st_data := st_data cmd |}.

Definition set_done (cmd : command) (ch : chan (option error)) : command :=
  set_base {| tag := tag (base cmd); done := ch; err := err (base cmd) |} cmd.

Definition set_stream_closed (b : bool) (cmd : command) : command :=
  {| base := base cmd; kind := kind cmd; stream_closed := b;
     mailboxes := mailboxes cmd; pendingData := pendingData cmd;
     data_List := data_List cmd; st_data := st_data cmd |}.

Definition set_mailboxes (ch : chan ListData) (cmd : command) : command :=
  {| base := base cmd; kind := kind cmd; stream_closed := stream_closed cmd;
     mailboxes := ch; pendingData := pendingData cmd;
     data_List := data_List cmd; st_data := st_data cmd |}.

Definition set_pendingData (d : option ListData) (cmd : command) : command :=
  {| base := base cmd; kind := kind cmd; stream_closed := stream_closed cmd;
     mailboxes := mailboxes cmd; pendingData := d;
     data_List := data_List cmd; st_data := st_data cmd |}.

Definition set_data_List (d : option ListData) (cmd : command) : command :=
  {| base := base cmd; kind := kind cmd; stream_closed := stream_closed cmd;
     mailboxes := mailboxes cmd; pendingData := pendingData cmd;
     data_List := d; st_data := st_data cmd |}.

Definition set_st_data (d : option StatusData) (cmd : command) : command :=
  {| base := base cmd; kind := kind cmd; stream_closed := stream_closed cmd;
     mailboxes := mailboxes cmd; pendingData := pendingData cmd;
     data_List := data_List cmd; st_data := d |}.

Definition set_state (s : ConnState) (mb : option string) (c : Client) : Client :=
  {| state := s; mailbox := mb; cmdTag := cmdTag c;
     pendingCmds := pendingCmds c; contReqs := contReqs c;
     cmds := cmds c; next_cmd := next_cmd c;
     cancelled := cancelled c; conn_closed := conn_closed c |}.

(** [Client.setState]: outside the selected state there is no mailbox. *)
Definition setState (s : ConnState) (c : Client) : Client :=
  set_state s (match s with ConnStateSelected => mailbox c | _ => None end) c.

(** [Client.beginCommand], with the command object as its caller has made
    it ([Client.List]: a [mailboxes] channel of capacity 64 and nothing
    held back; [Client.Fetch], [Client.Expunge]: an open stream;
    [Client.Select], [Client.Status]: no data yet): the next tag, a fresh
    [done] channel of capacity 1, and the command appended to
    [pendingCmds]. *)
Definition beginCommand (k : command_kind) (c : Client) : Client * CmdPtr :=
  let n := (cmdTag c + 1) mod uint64_modulus in
  let p := next_cmd c in
  let cmd := {| base := {| tag := "T" +:+ pretty n; done := make_chan 1; err := None |};
                kind := k; stream_closed := false;
                mailboxes := make_chan 64; pendingData := None;
                data_List := None; st_data := None |} in
  ({| state := state c; mailbox := mailbox c; cmdTag := n;
      pendingCmds := pendingCmds c ++ [p]; contReqs := contReqs c;
      cmds := <[ p := cmd ]> (cmds c); next_cmd := Pos.succ p;
      cancelled := cancelled c; conn_closed := conn_closed c |}, p).

(** [Client.registerContReq] *)
Definition registerContReq (id : positive) (p : CmdPtr) (c : Client) : Client :=
  {| state := state c; mailbox := mailbox c; cmdTag := cmdTag c;
     pendingCmds := pendingCmds c;
     contReqs := contReqs c ++ [{| cr_id := id; cr_cmd := p |}];
     cmds := cmds c; next_cmd := next_cmd c;
     cancelled := cancelled c; conn_closed := conn_closed c |}.

(** The loop of [Client.deletePendingCmdByTag]: the first pending command
    with the tag, and the list without it. *)
Fixpoint delete_by_tag (h : gmap CmdPtr command) (t : string) (l : list CmdPtr)
    : option (CmdPtr * list CmdPtr) :=
  match l with
  | [] => None
  | p :: l' =>
    if bool_decide (tag ∘ base <$> h !! p = Some t) then Some (p, l')
    else '(q, l'') ← delete_by_tag h t l'; Some (q, p :: l'')
  end.

(** [Client.deletePendingCmdByTag] *)
Definition deletePendingCmdByTag (t : string) (c : Client) : Client * option CmdPtr :=
  match delete_by_tag (cmds c) t (pendingCmds c) with
  | Some (p, l) =>
    ({| state := state c; mailbox := mailbox c; cmdTag := cmdTag c;
        pendingCmds := l; contReqs := contReqs c;
        cmds := cmds c; next_cmd := next_cmd c;
        cancelled := cancelled c; conn_closed := conn_closed c |}, Some p)
  | None => (c, None)
  end.

(** The loop of [Client.findPendingCmdFunc]: the first pending command
    that [f] accepts. *)
Fixpoint find_cmd (h : gmap CmdPtr command) (f : command → bool) (l : list CmdPtr)
    : option CmdPtr :=
  match l with
  | [] => None
  | p :: l' => if from_option f false (h !! p) then Some p else find_cmd h f l'
  end.

(** [Client.findPendingCmdFunc] *)
Definition findPendingCmdFunc (f : command → bool) (c : Client) : option CmdPtr :=
  find_cmd (cmds c) f (pendingCmds c).

(** The [switch cmd := cmd.(type)] of [completeCommand].  The LIST case
    sends the entry the command holds back, if any, on [mailboxes], then
    closes the channel; the field [pendingData] stays as it is. *)
Definition complete_kind (p : CmdPtr) (cmd : command) (e : option error) (c : Client)
    : result Client :=
  let ok := bool_decide (e = None) in
  match kind cmd with
  | authenticateCommand | loginCommand =>
    Done (if ok then setState ConnStateAuthenticated c else c)
  | unauthenticateCommand =>
    Done (if ok then set_state ConnStateNotAuthenticated None c else c)
  | SelectCommand mb =>
    Done (if ok then set_state ConnStateSelected (Some mb) c else c)
  | unselectCommand =>
    Done (if ok then setState ConnStateAuthenticated c else c)
  | logoutCommand =>
    Done (if ok then setState ConnStateLogout c else c)
  | ListCommand _ =>
    ch ← match pendingData cmd with
         | Some d => parks c (chan_send d (mailboxes cmd))
         | None => Done (mailboxes cmd)
         end;
    ch ← chan_close ch;
    Done (set_cmd p (set_mailboxes ch cmd) c)
  | FetchCommand | ExpungeCommand =>
    if stream_closed cmd then Panics "close of closed channel"
    else Done (set_cmd p (set_stream_closed true cmd) c)
  | StatusCommand _ | otherCommand => Done c
  end.

(** [Client.completeCommand]: send on [done], close it, cancel the
    continuation requests of the command, then the switch. *)
Definition completeCommand (p : CmdPtr) (e : option error) (c : Client) : result Client :=
  match cmds c !! p with
  | None => Panics "nil pointer dereference"
  | Some cmd =>
    ch ← chan_send e (done (base cmd));
    ch ← chan_close ch;
    let cmd := set_done cmd ch in
    let mine := filter (λ cr, cr_cmd cr = p) (contReqs c) in
    let c :=
      {| state := state c; mailbox := mailbox c; cmdTag := cmdTag c;
         pendingCmds := pendingCmds c;
         contReqs := filter (λ cr, cr_cmd cr ≠ p) (contReqs c);
         cmds := <[ p := cmd ]> (cmds c); next_cmd := next_cmd c;
         cancelled := cancelled c ++ ((λ cr, (cr_id cr, e)) <$> mine);
         conn_closed := conn_closed c |} in
    complete_kind p cmd e c
  end.

(** The loop of [closeWithError]. *)
Fixpoint complete_all (l : list CmdPtr) (e : option error) (c : Client) : result Client :=
  match l with
  | [] => Done c
  | p :: l' => c ← completeCommand p e c; complete_all l' e c
  end.

(** [Client.closeWithError] *)
Definition closeWithError (e : option error) (c : Client) : result Client :=
  let pending := pendingCmds c in
  let c :=
    {| state := ConnStateLogout; mailbox := mailbox c; cmdTag := cmdTag c;
       pendingCmds := []; contReqs := contReqs c;
       cmds := cmds c; next_cmd := next_cmd c;
       cancelled := cancelled c; conn_closed := true |} in
  complete_all pending e c.

(** [Client.readResponseTagged], with the parsing of the response left
    out: on every path past the tag lookup the command is completed once,
    with nil for OK and an error otherwise.  An unknown tag is an error
    of the connection. *)
Definition readResponseTagged (t : string) (e : option error) (c : Client)
    : result (Client * option error) :=
  match deletePendingCmdByTag t c with
  | (c, None) => Done (c, Some "收到未知标签 %q 的带标签响应")
  | (c, Some p) => c ← completeCommand p e c; Done (c, None)
  end.

(** [Client.handleList], for the LIST entry [readList] has decoded.  The
    entry goes to the first pending command that is a LIST, or a SELECT
    of the entry's mailbox that has no entry yet.  A LIST command with
    [returnStatus] holds the entry back and sends the one it held before;
    without, it sends the entry at once. *)
Definition handleList (data : ListData) (c : Client) : result (Client * option error) :=
  let f cmd :=
    match kind cmd with
    | ListCommand _ => true
    | SelectCommand mb =>
      bool_decide (mb = ld_Mailbox data) && bool_decide (data_List cmd = None)
    | _ => false
    end in
  match findPendingCmdFunc f c with
  | None => Done (c, None)
  | Some p =>
    match cmds c !! p with
    | None => Panics "nil pointer dereference"
    | Some cmd =>
      match kind cmd with
      | ListCommand returnStatus =>
        if returnStatus then
          ch ← match pendingData cmd with
               | Some d => parks c (chan_send d (mailboxes cmd))
               | None => Done (mailboxes cmd)
               end;
          Done (set_cmd p (set_pendingData (Some data) (set_mailboxes ch cmd)) c, None)
        else
          ch ← parks c (chan_send data (mailboxes cmd));
          Done (set_cmd p (set_mailboxes ch cmd) c, None)
      | SelectCommand _ => Done (set_cmd p (set_data_List (Some data) cmd) c, None)
      | _ => Done (c, None)
      end
    end
  end.

(** [Client.handleStatus], for the STATUS data [readStatus] has decoded.
    The data goes to the first pending command that is a STATUS of the
    mailbox, or a LIST with [returnStatus] that holds back an entry of
    the mailbox; the LIST command puts the data into that entry, sends
    the entry and holds nothing back any more. *)
Definition handleStatus (data : StatusData) (c : Client) : result (Client * option error) :=
  let f cmd :=
    match kind cmd with
    | StatusCommand mb => bool_decide (mb = sd_Mailbox data)
    | ListCommand returnStatus =>
      returnStatus &&
      match pendingData cmd with
      | Some d => bool_decide (ld_Mailbox d = sd_Mailbox data)
      | None => false
      end
    | _ => false
    end in
  match findPendingCmdFunc f c with
  | None => Done (c, None)
  | Some p =>
    match cmds c !! p with
    | None => Panics "nil pointer dereference"
    | Some cmd =>
      match kind cmd with
      | StatusCommand _ => Done (set_cmd p (set_st_data (Some data) cmd) c, None)
      | ListCommand _ =>
        match pendingData cmd with
        | None => Panics "nil pointer dereference"
        | Some d =>
          let d := {| ld_Mailbox := ld_Mailbox d; ld_Status := Some data |} in
          let cmd := set_pendingData (Some d) cmd in
          let c := set_cmd p cmd c in
          ch ← parks c (chan_send d (mailboxes cmd));
          Done (set_cmd p (set_pendingData None (set_mailboxes ch cmd)) c, None)
        end
      | _ => Done (c, None)
      end
    end
  end.

(** [ListCommand.Next]: receive from [mailboxes]; nil once the channel is
    closed and empty. *)
Definition Next (p : CmdPtr) (c : Client) : result (Client * option ListData) :=
  match cmds c !! p with
  | None => Panics "nil pointer dereference"
  | Some cmd =>
    match buf (mailboxes cmd) with
    | d :: rest =>
      let ch := {| buf := rest; cap := cap (mailboxes cmd);
                   closed := closed (mailboxes cmd) |} in
      Done (set_cmd p (set_mailboxes ch cmd) c, Some d)
    | [] => if closed (mailboxes cmd) then Done (c, None) else Blocks
    end
  end.

(** [commandBase.wait]: the first call receives from [done]. *)
Definition wait (p : CmdPtr) (c : Client) : result (Client * option error) :=
  match cmds c !! p with
  | None => Panics "nil pointer dereference"
  | Some cmd =>
    match err (base cmd) with
    | Some e => Done (c, Some e)
    | None =>
      match buf (done (base cmd)) with
      | v :: rest =>
        let ch := {| buf := rest; cap := cap (done (base cmd));
                     closed := closed (done (base cmd)) |} in
        let cmd := set_base {| tag := tag (base cmd); done := ch; err := v |} cmd in
        Done (set_cmd p cmd c, v)
      | [] => if closed (done (base cmd)) then Done (c, None) else Blocks
      end
    end
  end.

(** The steps of the command engine: the calls of the goroutines that
    use the client ([beginCommand], [registerContReq], [wait], [Next]),
    and those of the reading goroutine for a tagged response, an untagged
    LIST or STATUS response, and the end of the connection.  Calls are
    taken one at a time, and a parked call is not taken up again. *)
Inductive op : Type :=
  | OpBegin (k : command_kind)
  | OpContReq (id : positive) (p : CmdPtr)
  | OpTagged (t : string) (e : option error)
  | OpWait (p : CmdPtr)
  | OpCloseWithError (e : option error)
  | OpList (data : ListData)
  | OpStatus (data : StatusData)
  | OpNext (p : CmdPtr).

Definition run_op (o : op) (c : Client) : result Client :=
  match o with
  | OpBegin k => Done (beginCommand k c).1
  | OpContReq id p => Done (registerContReq id p c)
  | OpTagged t e => '(c, _) ← readResponseTagged t e c; Done c
  | OpWait p => '(c, _) ← wait p c; Done c
  | OpCloseWithError e => closeWithError e c
  | OpList data => '(c, _) ← handleList data c; Done c
  | OpStatus data => '(c, _) ← handleStatus data c; Done c
  | OpNext p => '(c, _) ← Next p c; Done c
  end.

Fixpoint run (ops : list op) (c : Client) : result Client :=
  match ops with
  | [] => Done c
  | o :: ops' => c' ← run_op o c; run ops' c'
  end.

Inductive reachable : Client → Prop :=
  | reach_New : reachable New
  | reach_step o c c' : reachable c → run_op o c = Done c' → reachable c'.

(** The completion signal of a command: its [done] channel. *)
Definition done_of (c : Client) (p : CmdPtr) : option (chan (option error)) :=
  done ∘ base <$> cmds c !! p.

(** A LIST command that holds an entry back while its result stream is
    full: the send of [completeCommand] cannot proceed. *)
Definition stream_stuck (cmd : command) : bool :=
  match kind cmd with
  | ListCommand _ =>
    bool_decide (is_Some (pendingData cmd)) &&
    bool_decide (cap (mailboxes cmd) ≤ length (buf (mailboxes cmd)))%nat
  | _ => false
  end.

(** One command changed, and of it neither the base nor whether its
    streams are closed. *)
Definition updates_stream (c c' : Client) : Prop :=
  c' = c ∨
  ∃ p cmd cmd',
    cmds c !! p = Some cmd ∧ c' = set_cmd p cmd' c ∧
    base cmd' = base cmd ∧ stream_closed cmd' = stream_closed cmd ∧
    closed (mailboxes cmd') = closed (mailboxes cmd).

(** What holds of the commands in a reachable client: the pending ones
    are distinct and not completed. *)
Definition client_inv (c : Client) : Prop :=
  NoDup (pendingCmds c) ∧
  (∀ p, p ∈ pendingCmds c →
     ∃ cmd, cmds c !! p = Some cmd ∧ done (base cmd) = make_chan 1 ∧
            stream_closed cmd = false ∧ closed (mailboxes cmd) = false) ∧
  (∀ p cmd, cmds c !! p = Some cmd → (p < next_cmd c)%positive).

(** What holds of the tags in a reachable client: the command at the
    p-th address carries the p-th tag, and a pending command has not been
    waited for to the end. *)
Definition client_tags (c : Client) : Prop :=
  cmdTag c = (Z.pos (next_cmd c) - 1) mod uint64_modulus ∧
  (∀ p cmd, cmds c !! p = Some cmd →
     tag (base cmd) = "T" +:+ pretty (Z.pos p mod uint64_modulus)) ∧
  (∀ p, p ∈ pendingCmds c → err ∘ base <$> cmds c !! p = Some None).

End Imapclient.

(** ** Package [imapmemserver] *)

Module Imapmemserver.

Import Imapserver.

(** Addresses of [message] objects. *)
Definition MsgPtr : Type := positive.

(** [message]: what the mailbox itself reads of a message, its UID and
    whether its flag set holds the canonical \Deleted. *)
Record message : Type := {
  m_uid : Z;
  m_deleted : bool;
}.

(** [Mailbox]: the tracker (with the session trackers made from it), the
    message list [l], [uidNext], and the message objects allocated so
    far. *)
Record Mailbox : Type := {
  mb_tracker : World;
  l : list MsgPtr;
  uidNext : Z;
  messages : gmap MsgPtr message;
  next_msg : MsgPtr;
}.

(** [NewMailbox] *)
Definition NewMailbox : Mailbox :=
  {| mb_tracker := NewMailboxTracker 0; l := []; uidNext := 1; messages := ∅;
     next_msg := 1%positive |}.

(** [Mailbox.appendBytes]; [deleted] is whether [options.Flags] holds
    \Deleted.  The UID given to the message is returned. *)
Definition appendBytes (deleted : bool) (mbox : Mailbox) : outcome (Mailbox * Z) :=
  let msg := next_msg mbox in
  let uid := uidNext mbox in
  let l' := l mbox ++ [msg] in
  w ← QueueNumMessages (wrap32 (Z.of_nat (length l'))) (mb_tracker mbox);
  Ok ({| mb_tracker := w; l := l'; uidNext := wrap32 (uid + 1);
         messages := <[ msg := {| m_uid := uid; m_deleted := deleted |} ]> (messages mbox);
         next_msg := Pos.succ msg |}, uid).

(** The first loop of [Mailbox.Expunge]; [uids] is nil or the membership
    test of the UID set. *)
Fixpoint Expunge_collect (uids : option (Z → bool)) (h : gmap MsgPtr message)
    (msgs : list MsgPtr) (expunged : gset MsgPtr) : outcome (gset MsgPtr) :=
  match msgs with
  | [] => Ok expunged
  | msg :: msgs' =>
    match h !! msg with
    | None => Panic "nil pointer dereference"
    | Some m =>
      if match uids with Some contains => negb (contains (m_uid m)) | None => false end
      then Expunge_collect uids h msgs' expunged
      else if m_deleted m then Expunge_collect uids h msgs' ({[ msg ]} ∪ expunged)
      else Expunge_collect uids h msgs' expunged
    end
  end.

(** The loop of [Mailbox.expungeLocked], over the messages from index [i]
    down to 0, last first. *)
Fixpoint expunge_loop (rl : list MsgPtr) (i : Z) (expunged : gset MsgPtr)
    (filtered : list MsgPtr) (seqNums : list Z) (w : World)
    : outcome (list MsgPtr * list Z * World) :=
  match rl with
  | [] => Ok (filtered, seqNums, w)
  | msg :: rl' =>
    if decide (msg ∈ expunged) then
      let seqNum := wrap32 (i + 1) in
      w' ← QueueExpunge seqNum w;
      expunge_loop rl' (i - 1) expunged filtered (seqNums ++ [seqNum]) w'
    else expunge_loop rl' (i - 1) expunged (filtered ++ [msg]) seqNums w
  end.

(** [Mailbox.expungeLocked] *)
Definition expungeLocked (expunged : gset MsgPtr) (mbox : Mailbox)
    : outcome (Mailbox * list Z) :=
  r ← expunge_loop (reverse (l mbox)) (Z.of_nat (length (l mbox)) - 1) expunged [] []
         (mb_tracker mbox);
  let '(filtered, seqNums, w) := r in
  Ok ({| mb_tracker := w; l := reverse filtered; uidNext := uidNext mbox;
         messages := messages mbox; next_msg := next_msg mbox |}, seqNums).

(** [Mailbox.Expunge] *)
Definition Expunge (uids : option (Z → bool)) (mbox : Mailbox) : outcome Mailbox :=
  expunged ← Expunge_collect uids (messages mbox) (l mbox) ∅;
  if decide (expunged = ∅) then Ok mbox
  else r ← expungeLocked expunged mbox; Ok r.1.

(** [Mailbox.NewView]: the view is its session tracker. *)
Definition NewView (mbox : Mailbox) : Mailbox * SessionPtr :=
  let '(w, p) := NewSession (mb_tracker mbox) in
  ({| mb_tracker := w; l := l mbox; uidNext := uidNext mbox;
      messages := messages mbox; next_msg := next_msg mbox |}, p).

(** [staticNumRange], on the values of [start] and [stop]. *)
Definition staticNumRange (start stop max : Z) : Z * Z :=
  let dyn := bool_decide (start = 0) || bool_decide (stop = 0) in
  let start := if decide (start = 0) then max else start in
  let stop := if decide (stop = 0) then max else stop in
  if dyn && bool_decide (start > stop) then (stop, start) else (start, stop).

(** Whether [Expunge] takes the message. *)
Definition to_expunge (uids : option (Z → bool)) (h : gmap MsgPtr message)
    (msg : MsgPtr) : bool :=
  match h !! msg with
  | Some m =>
    m_deleted m && match uids with Some contains => contains (m_uid m) | None => true end
  | None => false
  end.

Definition uid_of (h : gmap MsgPtr message) (msg : MsgPtr) : Z :=
  default 0 (m_uid <$> h !! msg).

(** What the operations keep true of a mailbox: the tracker counts the
    messages of [l], which are distinct allocated objects, and their
    UIDs are ascending in sequence order and below [uidNext]. *)
Definition mailbox_inv (mbox : Mailbox) : Prop :=
  world_wf (mb_tracker mbox) ∧
  t_numMessages (tracker (mb_tracker mbox)) = Z.of_nat (length (l mbox)) ∧
  NoDup (l mbox) ∧
  (∀ msg, msg ∈ l mbox → is_Some (messages mbox !! msg)) ∧
  (∀ msg m, messages mbox !! msg = Some m → (msg < next_msg mbox)%positive) ∧
  StronglySorted Z.lt (uid_of (messages mbox) <$> l mbox) ∧
  Forall (λ u, 0 < u < uidNext mbox) (uid_of (messages mbox) <$> l mbox) ∧
  0 < uidNext mbox.

(** [User]: the mailboxes by name, each given by the UIDVALIDITY it was
    created with, and [prevUidValidity]. *)
Record User : Type := {
  mailboxes : gmap gostring Z;
  prevUidValidity : Z;
}.

(** [NewUser] *)
Definition NewUser : User := {| mailboxes := ∅; prevUidValidity := 0 |}.

(** [strings.TrimRight(name, string(mailboxDelim))] *)
Fixpoint TrimRight_delim (name : gostring) : gostring :=
  match name with
  | [] => []
  | c :: rest =>
    match TrimRight_delim rest with
    | [] => if decide (c = "/"%char) then [] else [c]
    | rest' => c :: rest'
    end
  end.

Definition errNonExistent : StatusResponse :=
  {| Type_ := StatusResponseTypeNo; Code := "NONEXISTENT"; Text := "找不到该邮箱" |}.
Definition errAlreadyExists : StatusResponse :=
  {| Type_ := StatusResponseTypeNo; Code := "ALREADYEXISTS"; Text := "邮箱已存在" |}.

(** [User.Create]; the error is nil ([None]) or an [imap.Error]. *)
Definition Create (name : gostring) (u : User) : User * option StatusResponse :=
  let name := TrimRight_delim name in
  match mailboxes u !! name with
  | Some _ => (u, Some errAlreadyExists)
  | None =>
    let v := wrap32 (prevUidValidity u + 1) in
    ({| mailboxes := <[ name := v ]> (mailboxes u); prevUidValidity := v |}, None)
  end.

(** [User.Delete] *)
Definition Delete (name : gostring) (u : User) : User * option StatusResponse :=
  match mailboxes u !! name with
  | None => (u, Some errNonExistent)
  | Some _ =>
    ({| mailboxes := delete name (mailboxes u); prevUidValidity := prevUidValidity u |},
     None)
  end.

(** [User.Rename] *)
Definition Rename (oldName newName : gostring) (u : User) : User * option StatusResponse :=
  let newName := TrimRight_delim newName in
  match mailboxes u !! oldName with
  | None => (u, Some errNonExistent)
  | Some mbox =>
    match mailboxes u !! newName with
    | Some _ => (u, Some errAlreadyExists)
    | None =>
      ({| mailboxes := delete oldName (<[ newName := mbox ]> (mailboxes u));
          prevUidValidity := prevUidValidity u |}, None)
    end
  end.

Inductive user_op : Type :=
  | UCreate (name : gostring)
  | UDelete (name : gostring)
  | URename (oldName newName : gostring).

Definition user_step (u : User) (o : user_op) : User :=
  match o with
  | UCreate name => (Create name u).1
  | UDelete name => (Delete name u).1
  | URename oldName newName => (Rename oldName newName u).1
  end.

Definition user_run (ops : list user_op) (u : User) : User :=
  foldl user_step u ops.

End Imapmemserver.

(** * Theorems *)

Import Imapserver.

#[local] Set Warnings "-clear-no-such-hyp".

Ltac u32 := unfold is_uint32, uint32_modulus in *; lia.

Section SeqNum.

Lemma wrap32_id z : is_uint32 z → wrap32 z = z.
Proof. intros ?. unfold wrap32. apply Z.mod_small. done. Qed.

Lemma view_expunge u : expunge u ≠ 0 → view u = Some (UExpunge (expunge u)).
Proof. intros ?. unfold view. by rewrite decide_True. Qed.

Lemma decode_replay_not_expunge u pend n :
  (∀ target, u ≠ UExpunge target) →
  decode_replay (u :: pend) n = decode_replay pend n.
Proof. intros Hu. destruct u; try done. by destruct (Hu position). Qed.

Lemma view_no_expunge u v : expunge u = 0 → view u = Some v → ∀ target, v ≠ UExpunge target.
Proof.
  intros He Hv target ->. unfold view in Hv.
  rewrite decide_False in Hv by (intros ?; done).
  repeat case_match; naive_solver.
Qed.

Lemma decode_loop_replay q : ∀ n,
  Forall update_typed q → 0 < n < uint32_modulus →
  decode_loop q n = decode_replay (pending q) n.
Proof.
  induction q as [|u q IH]; intros n Hq Hn; [done|].
  apply Forall_cons in Hq as [[[He _] _] Hq].
  cbn [decode_loop]. unfold pending. cbn [omap list_omap]. fold (pending q).
  destruct (decide (expunge u = 0)) as [Hz|Hz].
  - rewrite IH by done.
    destruct (view u) as [v|] eqn:Hv; [|done].
    symmetry. eapply decode_replay_not_expunge, view_no_expunge; done.
  - rewrite view_expunge by done. cbn [decode_replay].
    repeat case_decide; try lia; try done.
    + rewrite wrap32_id by u32. apply IH; [done|lia].
    + by apply IH.
Qed.

(** C9.  Zero is a fixed point of both translations, whatever the pending
    queue, the canonical count and the state of the session tracker. *)
Theorem SeqNum_zero_fixed_point (t : MailboxTracker) (st : SessionTracker) :
  DecodeSeqNum t st 0 = Ok 0 ∧ EncodeSeqNum t st 0 = Ok 0.
Proof. done. Qed.

(** C1.  For an attached observer and a client-view number n > 0,
    [DecodeSeqNum] replays the pending expunge records oldest first (equal
    to the target: not found; above the target: one less), then answers 0
    when the replayed number exceeds the canonical count and the replayed
    number otherwise.  With 42 messages and one pending expunge of position
    20: decode 20 = 0, decode 10 = 10, decode 30 = 29. *)
Theorem DecodeSeqNum_replays_pending_expunges
    (t : MailboxTracker) (st : SessionTracker) (n : Z) :
  mailbox st = Some () →
  Forall update_typed (queue st) →
  0 < n < uint32_modulus →
  DecodeSeqNum t st n = Ok (decode_spec (t_numMessages t) (pending (queue st)) n)
  ∧ decode_scenario 20 = Ok 0
  ∧ decode_scenario 10 = Ok 10
  ∧ decode_scenario 30 = Ok 29.
Proof.
  intros Hm Hq Hn. split; [|by vm_compute].
  unfold DecodeSeqNum, decode_spec.
  rewrite decide_False by lia.
  rewrite decode_loop_replay by done.
  destruct (decode_replay _ _); [|done].
  rewrite Hm. by destruct (decide _).
Qed.

Lemma pending_app q1 q2 : pending (q1 ++ q2) = pending q1 ++ pending q2.
Proof. apply omap_app. Qed.

Lemma pending_reverse q : pending (reverse q) = reverse (pending q).
Proof.
  induction q as [|u q IH]; [done|].
  rewrite reverse_cons, pending_app, IH.
  unfold pending at 2 3. cbn [omap list_omap].
  destruct (view u); [by rewrite reverse_cons|by rewrite app_nil_r].
Qed.

Lemma update_wf_typed u : update_wf u → update_typed u.
Proof.
  unfold update_typed.
  intros [(n & -> & ?)|[(n & -> & ?)|[(fl & ->)|(f & ->)]]]; cbn; u32.
Qed.

Lemma view_update_expunge n : n ≠ 0 → view (update_expunge n) = Some (UExpunge n).
Proof. intros ?. by apply view_expunge. Qed.

Lemma view_update_numMessages n :
  view (update_numMessages n) = if decide (n = 0) then None else Some (UGrow n).
Proof. unfold view. cbn. by repeat case_decide. Qed.

Lemma view_update_mailboxFlags fl : view (update_mailboxFlags fl) = Some (UMailboxFlags fl).
Proof. done. Qed.

Lemma view_update_fetch f :
  view (update_fetch f) = Some (UMessageFlags (seqNum f) (uid f) (flags f)).
Proof. done. Qed.

Lemma encode_loop_walk rq : ∀ n,
  Forall update_wf rq → encode_loop rq n = encode_walk (pending rq) n.
Proof.
  induction rq as [|u rq IH]; intros n Hq; [done|].
  apply Forall_cons in Hq as [Hu Hq].
  cbn [encode_loop]. unfold pending. cbn [omap list_omap]. fold (pending rq).
  destruct Hu as [(e & -> & ?)|[(c & -> & ?)|[(fl & ->)|(f & ->)]]].
  - rewrite view_update_expunge by lia. cbn.
    repeat case_decide; try lia; by apply IH.
  - rewrite view_update_numMessages. cbn.
    repeat case_decide; try lia; try done; cbn;
      try (case_decide; try lia; try done); by apply IH.
  - rewrite view_update_mailboxFlags. cbn.
    rewrite !decide_False by tauto. by apply IH.
  - rewrite view_update_fetch. cbn.
    rewrite !decide_False by tauto. by apply IH.
Qed.

(** A number above the canonical count is no server-view number. *)
Lemma EncodeSeqNum_beyond_count t st n :
  mailbox st = Some () → n > t_numMessages t → EncodeSeqNum t st n = Ok 0.
Proof.
  intros Hm Hn. unfold EncodeSeqNum. rewrite Hm.
  case_decide; [done|]. by rewrite decide_True.
Qed.

(** The [uint32] successor is the successor below the largest value. *)
Lemma succ32_below n : 0 ≤ n < uint32_modulus - 1 → succ32 n = n + 1.
Proof. intros ?. apply wrap32_id. u32. Qed.

Lemma succ32_max : succ32 (uint32_modulus - 1) = 0.
Proof. done. Qed.

(** C2.  For an attached observer and a server-view number n (1 up to the
    canonical count), [EncodeSeqNum] walks the pending queue newest first:
    a pending grow record whose count equals the number gives 0, a pending
    expunge record whose target is at or below the number adds one (in
    [uint32]).  When the count grows from 42 to 43 and B has not polled,
    encode 43 = 0; once B has polled, encode 43 = 43. *)
Theorem EncodeSeqNum_walks_newest_first
    (t : MailboxTracker) (st : SessionTracker) (n : Z) :
  mailbox st = Some () →
  Forall update_wf (queue st) →
  0 < n ≤ t_numMessages t →
  EncodeSeqNum t st n = Ok (encode_spec (pending (queue st)) n)
  ∧ encode_scenario_before_poll 43 = Ok 0
  ∧ (∀ allow, encode_scenario_after_poll allow 43 = Ok 43).
Proof.
  intros Hm Hq Hn. split; [|split; [by vm_compute|by intros []; vm_compute]].
  unfold EncodeSeqNum, encode_spec. rewrite Hm.
  rewrite decide_False by lia. rewrite decide_False by lia.
  rewrite encode_loop_walk by (by apply Forall_reverse).
  rewrite pending_reverse. by destruct (encode_walk _ _).
Qed.

Lemma DecodeSeqNum_replays_pending_expunges_witness :
  DecodeSeqNum {| t_numMessages := 41; t_sessions := ∅ |}
    {| mailbox := Some (); queue := [update_expunge 3; update_expunge 20]; updates := None |}
    30 = Ok 28.
Proof.
  destruct (DecodeSeqNum_replays_pending_expunges
              {| t_numMessages := 41; t_sessions := ∅ |}
              {| mailbox := Some (); queue := [update_expunge 3; update_expunge 20];
                 updates := None |} 30) as [H _].
  - done.
  - repeat constructor; cbn; u32.
  - u32.
  - exact H.
Defined.

Lemma EncodeSeqNum_walks_newest_first_witness :
  EncodeSeqNum {| t_numMessages := 41; t_sessions := ∅ |}
    {| mailbox := Some ();
       queue := [update_expunge 3; update_numMessages 41; update_expunge 20];
       updates := None |}
    28 = Ok 30.
Proof.
  destruct (EncodeSeqNum_walks_newest_first
              {| t_numMessages := 41; t_sessions := ∅ |}
              {| mailbox := Some ();
                 queue := [update_expunge 3; update_numMessages 41; update_expunge 20];
                 updates := None |} 28) as [H _].
  - done.
  - apply Forall_cons. split; [left; exists 3; split; [done|u32]|].
    apply Forall_cons. split; [right; left; exists 41; split; [done|u32]|].
    apply Forall_cons. split; [left; exists 20; split; [done|u32]|].
    constructor.
  - cbn. lia.
  - exact H.
Defined.

(** *** The round trip *)

Lemma pending_typed q : Forall update_typed q → Forall Update_typed (pending q).
Proof.
  induction 1 as [|u q [Hu _] _ IH]; [constructor|].
  unfold pending. cbn [omap list_omap]. fold (pending q).
  destruct (view u) as [v|] eqn:Hv; [|done].
  constructor; [|done].
  destruct v; try done. cbn.
  destruct (decide (expunge u = 0)) as [Hz|Hz].
  - by destruct (view_no_expunge _ _ Hz Hv position).
  - rewrite view_expunge in Hv by done. injection Hv as <-. u32.
Qed.

Lemma decode_replay_app pend1 pend2 n :
  decode_replay (pend1 ++ pend2) n = decode_replay pend1 n ≫= decode_replay pend2.
Proof.
  revert n. induction pend1 as [|v pend1 IH]; intros n; [done|].
  destruct v; cbn [app decode_replay]; repeat case_decide; by rewrite ?IH.
Qed.

(** Once the number has wrapped to 0 no record brings it back. *)
Lemma encode_walk_zero pend m :
  Forall Update_typed pend → encode_walk pend 0 = Some m → m = 0.
Proof.
  induction 1 as [|v pend Hv _ IH]; cbn [encode_walk]; [congruence|].
  destruct v; cbn in Hv; repeat case_decide; try done; lia.
Qed.

Lemma decode_encode_walk pend : ∀ n m,
  Forall Update_typed pend → is_uint32 n →
  encode_walk (reverse pend) n = Some m → m ≠ 0 →
  decode_replay pend m = Some n.
Proof.
  induction pend as [|v pend IH] using rev_ind; intros n m Hp Hn Henc Hm.
  { cbn in *. congruence. }
  apply Forall_app in Hp as [Hp Hv]. rewrite Forall_singleton in Hv.
  rewrite reverse_snoc in Henc. rewrite decode_replay_app.
  destruct v; cbn [encode_walk] in Henc; cbn in Hv.
  - case_decide.
    + destruct (decide (n = uint32_modulus - 1)) as [->|].
      * rewrite succ32_max in Henc.
        apply encode_walk_zero in Henc; [done|by apply Forall_reverse].
      * rewrite succ32_below in Henc by u32.
        rewrite (IH (n + 1) m) by (done || u32). cbn.
        repeat case_decide; try lia. f_equal. lia.
    + rewrite (IH n m) by done. cbn. repeat case_decide; (done || lia).
  - case_decide; [done|]. by rewrite (IH n m).
  - by rewrite (IH n m).
  - by rewrite (IH n m).
Qed.

Lemma encode_walk_uint32 pend : ∀ n m,
  is_uint32 n → encode_walk pend n = Some m → is_uint32 m.
Proof.
  induction pend as [|v pend IH]; intros n m Hn; cbn [encode_walk].
  { by intros [= <-]. }
  destruct v; repeat case_decide; try done; try by apply IH.
  apply IH. unfold succ32, wrap32, is_uint32, uint32_modulus. apply Z.mod_pos_bound. lia.
Qed.

(** The round trip on one session tracker. *)
Lemma Decode_Encode t st n m :
  Forall update_wf (queue st) → is_uint32 n →
  EncodeSeqNum t st n = Ok m → m ≠ 0 →
  DecodeSeqNum t st m = Ok n.
Proof.
  intros Hq Hn Henc Hm. unfold EncodeSeqNum in Henc.
  case_decide; [congruence|].
  destruct (mailbox st) as [[]|] eqn:Hmb; [|done].
  case_decide; [congruence|].
  rewrite encode_loop_walk, pending_reverse in Henc by (by apply Forall_reverse).
  destruct (encode_walk _ _) as [m'|] eqn:Hw; [|congruence].
  injection Henc as ->.
  assert (Forall update_typed (queue st)) as Hty
    by (eapply Forall_impl; [done|apply update_wf_typed]).
  pose proof (encode_walk_uint32 _ _ _ Hn Hw) as Hm32.
  apply decode_encode_walk in Hw; [|by apply pending_typed|done..].
  unfold DecodeSeqNum. rewrite decide_False by done.
  rewrite decode_loop_replay, Hw, Hmb by (done || u32).
  by rewrite decide_False.
Qed.

(** *** Decode against the observer's view as a list of messages *)

Lemma apply_expunges_sublist {A} pend : ∀ msgs : list A,
  apply_expunges pend msgs `sublist_of` msgs.
Proof.
  induction pend as [|v pend IH]; intros msgs; [done|].
  destruct v; cbn [apply_expunges]; try apply IH.
  etrans; [apply IH|]. case_decide; [apply sublist_delete|done].
Qed.

(** Where the message at position [r] of the view sits after the pending
    expunges: at the position [decode_replay] computes, or nowhere. *)
Lemma decode_replay_tracks {A} pend : ∀ (msgs : list A) (x : A) (r : Z),
  Forall Update_typed pend → NoDup msgs → 0 < r →
  msgs !! Z.to_nat (r - 1) = Some x →
  match decode_replay pend r with
  | Some r' => 0 < r' ∧ apply_expunges pend msgs !! Z.to_nat (r' - 1) = Some x
  | None => x ∉ apply_expunges pend msgs
  end.
Proof.
  induction pend as [|v pend IH]; intros msgs x r Hp Hnd Hr Hx; [done|].
  apply Forall_cons in Hp as [Hv Hp].
  destruct v; cbn [decode_replay apply_expunges]; cbn in Hv;
    try (by apply IH).
  rewrite (decide_True (P := 0 < position)) by lia.
  assert (NoDup (delete (Z.to_nat (position - 1)) msgs)) as Hnd'
    by (eapply sublist_NoDup; [done|apply sublist_delete]).
  repeat case_decide.
  - subst r. intros Hin.
    eapply elem_of_sublist in Hin; [|apply apply_expunges_sublist].
    apply list_elem_of_lookup in Hin as [j Hj].
    destruct (decide (j < Z.to_nat (position - 1))%nat).
    + rewrite list_lookup_delete_lt in Hj by done.
      pose proof (NoDup_lookup _ _ _ _ Hnd Hj Hx). lia.
    + rewrite list_lookup_delete_ge in Hj by lia.
      pose proof (NoDup_lookup _ _ _ _ Hnd Hj Hx). lia.
  - apply IH; [done|done|lia|].
    rewrite list_lookup_delete_ge by lia.
    by replace (S (Z.to_nat (r - 1 - 1))) with (Z.to_nat (r - 1)) by lia.
  - apply IH; [done|done|lia|].
    by rewrite list_lookup_delete_lt by lia.
Qed.

Lemma decode_replay_marks_expunged pend m :
  Forall Update_typed pend → 0 < m →
  decode_replay pend m = None ↔ marks_expunged pend m.
Proof.
  intros Hp Hm.
  pose proof (decode_replay_tracks pend (seqZ 1 m) m m Hp (NoDup_seqZ _ _) Hm) as H.
  rewrite lookup_seqZ_lt in H by lia.
  specialize (H ltac:(f_equal; lia)).
  unfold marks_expunged. destruct (decode_replay pend m) as [r|].
  - destruct H as [_ H]. apply list_elem_of_lookup_2 in H.
    split; [done|]. intros [_ Hn]. by destruct Hn.
  - by split.
Qed.

(** A number the pending queue marks as expunged decodes to 0. *)
Lemma Decode_marked_expunged t st m :
  Forall update_typed (queue st) → is_uint32 m →
  marks_expunged (pending (queue st)) m →
  DecodeSeqNum t st m = Ok 0.
Proof.
  intros Hq Hm Hmark. pose proof Hmark as [Hpos _].
  apply decode_replay_marks_expunged in Hmark; [|by apply pending_typed|done].
  unfold DecodeSeqNum. rewrite decide_False by lia.
  by rewrite decode_loop_replay, Hmark by (done || u32).
Qed.

End SeqNum.

(** ** The mailbox tracker and its sessions *)

Section Broadcast.

Lemma broadcast_lookup update source sessions h p :
  broadcast update source sessions h !! p =
  (λ st, if decide (p ∈ sessions)
         then if decide (source = Some p) then st else session_queueUpdate update st
         else st) <$> h !! p.
Proof.
  unfold broadcast. rewrite map_lookup_imap.
  by destruct (h !! p).
Qed.

Lemma queueUpdate_Ok update source w w' :
  queueUpdate update source w = Ok w' →
  ¬ (expunge update ≠ 0 ∧ expunge update > t_numMessages (tracker w)) ∧
  ¬ (numMessages update ≠ 0 ∧ numMessages update < t_numMessages (tracker w)) ∧
  heap w' = broadcast update source (t_sessions (tracker w)) (heap w) ∧
  t_sessions (tracker w') = t_sessions (tracker w) ∧
  next w' = next w ∧
  t_numMessages (tracker w') =
    (if decide (expunge update ≠ 0) then wrap32 (t_numMessages (tracker w) - 1)
     else if decide (numMessages update ≠ 0) then numMessages update
     else t_numMessages (tracker w)).
Proof.
  unfold queueUpdate. repeat case_decide; try done; by intros [= <-].
Qed.

Lemma notify_queueUpdate m w w' :
  notify m w = Ok w' →
  queueUpdate (mutation_record m) (mutation_source m) w = Ok w'.
Proof.
  destruct m as [n| | |]; cbn; try done.
  unfold QueueExpunge. by case_decide.
Qed.

(** After a notification a session's queue is the old one, with the record
    appended once when the session is attached and is not the source. *)
Lemma notify_queue m w w' p st :
  notify m w = Ok w' → heap w !! p = Some st →
  ∃ st', heap w' !! p = Some st' ∧
    mailbox st' = mailbox st ∧
    queue st' =
      if decide (p ∈ t_sessions (tracker w) ∧ mutation_source m ≠ Some p)
      then queue st ++ [mutation_record m] else queue st.
Proof.
  intros Hn%notify_queueUpdate Hp.
  apply queueUpdate_Ok in Hn as (_ & _ & -> & _).
  rewrite broadcast_lookup, Hp. cbn. eexists. split; [done|].
  repeat case_decide; try done; tauto.
Qed.

Lemma mutation_record_wf m w w' :
  mutation_typed m → notify m w = Ok w' → update_wf (mutation_record m).
Proof.
  destruct m as [n|n|fl|sq ui fl src]; cbn; intros Ht Hn.
  - left. exists n. split; [done|].
    unfold QueueExpunge in Hn. case_decide; [done|]. u32.
  - right. left. by exists n.
  - right. right. left. by eexists.
  - right. right. right. by eexists.
Qed.

Lemma world_wf_NewMailboxTracker n : is_uint32 n → world_wf (NewMailboxTracker n).
Proof.
  intros ?. split; [done|]. split; [set_solver|].
  intros p st. cbn. by rewrite lookup_empty.
Qed.

Lemma world_wf_NewSession w : world_wf w → world_wf (NewSession w).1.
Proof.
  intros (Hn & Hs & Hh). split_and!; cbn.
  - done.
  - intros p [->%elem_of_singleton|Hp]%elem_of_union.
    + by rewrite lookup_insert_eq.
    + destruct (Hs p Hp) as [st Hst]. destruct (Hh _ _ Hst) as (? & _).
      rewrite lookup_insert_ne by lia. by eexists.
  - intros p st. destruct (decide (p = next w)) as [->|Hne].
    + rewrite lookup_insert_eq. intros [= <-]. cbn.
      split_and!; [lia|done|]. split; [done|set_solver].
    + rewrite lookup_insert_ne by done. intros Hst.
      destruct (Hh _ _ Hst) as (? & ? & Hiff). split_and!; [lia|done|].
      rewrite <- Hiff. set_solver.
Qed.

Lemma world_wf_Close p w w' : world_wf w → Close p w = Ok w' → world_wf w'.
Proof.
  intros (Hn & Hs & Hh). unfold Close.
  destruct (heap w !! p) as [st|] eqn:Hp; [|done].
  destruct (mailbox st) eqn:Hm; [|done]. intros [= <-].
  split_and!; cbn.
  - done.
  - intros q [Hq Hne]%elem_of_difference.
    rewrite lookup_insert_ne by set_solver. by apply Hs.
  - intros q st'. destruct (decide (q = p)) as [->|Hne].
    + rewrite lookup_insert_eq. intros [= <-]. cbn.
      destruct (Hh _ _ Hp) as (? & ? & _). split_and!; [done..|].
      split; [set_solver|done].
    + rewrite lookup_insert_ne by done. intros Hst.
      destruct (Hh _ _ Hst) as (? & ? & Hiff). split_and!; [done..|].
      rewrite <- Hiff. set_solver.
Qed.

Lemma world_wf_notify m w w' :
  mutation_typed m → world_wf w → notify m w = Ok w' → world_wf w'.
Proof.
  intros Ht (Hn & Hs & Hh) Hnot.
  pose proof (mutation_record_wf _ _ _ Ht Hnot) as Hwf.
  pose proof (notify_queueUpdate _ _ _ Hnot) as Hq.
  apply queueUpdate_Ok in Hq as (_ & _ & Hheap & Hsess & Hnext & Hnum).
  split_and!.
  - rewrite Hnum. apply update_wf_typed in Hwf as [? ?].
    repeat case_decide; try done.
    unfold wrap32, is_uint32, uint32_modulus. apply Z.mod_pos_bound. lia.
  - intros p Hp. rewrite Hsess in Hp. destruct (Hs p Hp) as [st Hst].
    destruct (notify_queue _ _ _ _ _ Hnot Hst) as (st' & -> & _). by eexists.
  - intros p st'. rewrite Hheap, broadcast_lookup, Hsess, Hnext.
    intros (st & Hst & ->)%fmap_Some.
    destruct (Hh _ _ Hst) as (? & ? & ?).
    repeat case_decide; split_and!; try done;
      cbn; apply Forall_app; (split; [done|]); by apply Forall_singleton.
Qed.

Lemma poll_scan_spec q : ∀ i updates,
  ∃ pre post,
    q = pre ++ post ∧
    Forall (λ u, expunge u = 0) pre ∧
    match post with [] => True | u :: _ => expunge u ≠ 0 end ∧
    poll_scan i q updates =
      (updates ++ pre, match post with [] => None | _ => Some (i + length pre)%nat end).
Proof.
  induction q as [|u q IH]; intros i updates.
  { exists [], []. cbn. by rewrite app_nil_r. }
  cbn [poll_scan]. case_decide as Hu.
  - exists [], (u :: q). rewrite app_nil_r. cbn.
    split_and!; try done. do 2 f_equal. lia.
  - destruct (IH (S i) (updates ++ [u])) as (pre & post & -> & Hpre & Hpost & ->).
    exists (u :: pre), post. split_and!; try done.
    + constructor; [|done]. by destruct (decide (expunge u = 0)).
    + rewrite <- app_assoc. cbn. destruct post; [done|]. do 2 f_equal. lia.
Qed.

(** What [Poll] dequeues: everything, or the records before the first
    expunge record. *)
Lemma Poll_dequeue_spec allow st :
  ∃ pre post,
    queue st = pre ++ post ∧
    Poll_dequeue allow st = (pre, set_queue st post) ∧
    if allow then post = []
    else Forall (λ u, expunge u = 0) pre ∧
         match post with [] => True | u :: _ => expunge u ≠ 0 end.
Proof.
  unfold Poll_dequeue. destruct allow.
  { exists (queue st), []. by rewrite app_nil_r. }
  destruct (poll_scan_spec (queue st) 0 []) as (pre & post & Hq & Hpre & Hpost & ->).
  exists pre, post. split_and!; try done. cbn. do 2 f_equal.
  destruct post as [|u post]; [done|].
  rewrite Hq. by rewrite drop_app_length.
Qed.

Lemma world_wf_run_op o w w' :
  op_typed o → world_wf w → run_op o w = Ok w' → world_wf w'.
Proof.
  destruct o as [|p|m|p allow]; cbn; intros Ht Hw Hrun.
  - injection Hrun as <-. by apply world_wf_NewSession.
  - by eapply world_wf_Close.
  - by eapply world_wf_notify.
  - destruct (heap w !! p) as [st|] eqn:Hp; [|done]. injection Hrun as <-.
    destruct Hw as (Hn & Hs & Hh).
    destruct (Poll_dequeue_spec allow st) as (pre & post & Hq & -> & _).
    split_and!; cbn.
    + done.
    + intros q Hq'. destruct (decide (q = p)) as [->|].
      * by rewrite lookup_insert_eq.
      * rewrite lookup_insert_ne by done. by apply Hs.
    + intros q st'. destruct (decide (q = p)) as [->|].
      * rewrite lookup_insert_eq. intros [= <-]. cbn.
        destruct (Hh _ _ Hp) as (? & Hf & ?). split_and!; try done.
        rewrite Hq in Hf. by apply Forall_app in Hf as [_ ?].
      * rewrite lookup_insert_ne by done. apply Hh.
Qed.

Lemma world_wf_run ops : ∀ w w',
  Forall op_typed ops → world_wf w → run ops w = Ok w' → world_wf w'.
Proof.
  induction ops as [|o ops IH]; intros w w' Ht Hw; cbn.
  { by intros [= <-]. }
  apply Forall_cons in Ht as [Ho Ht].
  destruct (run_op o w) as [w1|] eqn:Ho1; [|done]. cbn.
  eapply IH; [done|]. by eapply world_wf_run_op.
Qed.

(** *** Delivery *)

Section Delivery.

Variable io_err : list Response → option error.

Lemma Poll_write1_Nil wr u c c' :
  Poll_write1 io_err wr u c = (c', Nil) →
  ∃ v, view u = Some v ∧
       c' = {| state := state c; session := session c; wire := wire c ++ [response_of v] |}.
Proof.
  unfold Poll_write1, view, WriteExpunge, WriteNumMessages, WriteMailboxFlags,
    WriteMessageFlags, conn_write.
  repeat case_decide; repeat case_match; intros ?; simplify_eq;
    try (by eexists); eexists; (split; [done|]); cbn; by case_decide.
Qed.

Lemma Poll_write1_ok wr u v c :
  (∀ l, io_err l = None) → view u = Some v →
  allowExpunge wr = true ∨ expunge u = 0 →
  Poll_write1 io_err wr u c =
    ({| state := state c; session := session c; wire := wire c ++ [response_of v] |}, Nil).
Proof.
  intros Hio. unfold Poll_write1, view, WriteExpunge, WriteNumMessages, WriteMailboxFlags,
    WriteMessageFlags, conn_write. rewrite !Hio.
  intros Hv [Ha|He]; repeat case_decide; repeat case_match; try done;
    simplify_eq; try done; cbn; by case_decide.
Qed.

Lemma Poll_write_Nil wr updates : ∀ c c',
  Poll_write io_err wr updates c = (c', Nil) →
  wire c' = wire c ++ (response_of <$> pending updates)
  ∧ length (pending updates) = length updates
  ∧ state c' = state c ∧ session c' = session c.
Proof.
  induction updates as [|u updates IH]; intros c c'; cbn [Poll_write].
  { intros [= <-]. by rewrite app_nil_r. }
  destruct (Poll_write1 io_err wr u c) as [c1 r1] eqn:H1.
  destruct r1; try done. intros Hrest.
  apply Poll_write1_Nil in H1 as (v & Hv & ->).
  apply IH in Hrest as (-> & Hlen & -> & ->). cbn.
  unfold pending in *. cbn [omap list_omap]. rewrite Hv. cbn.
  rewrite <- app_assoc. by rewrite Hlen.
Qed.

Lemma Poll_write_ok wr updates : ∀ c,
  (∀ l, io_err l = None) →
  Forall (λ u, is_Some (view u)) updates →
  allowExpunge wr = true ∨ Forall (λ u, expunge u = 0) updates →
  ∃ c', Poll_write io_err wr updates c = (c', Nil).
Proof.
  induction updates as [|u updates IH]; intros c Hio Hv Ha; cbn [Poll_write].
  { by eexists. }
  apply Forall_cons in Hv as [[v Hv] Hvs].
  rewrite (Poll_write1_ok wr u v) by
    first [done|destruct Ha as [?|[? ?]%Forall_cons]; [by left|by right]].
  apply IH; [done..|].
  destruct Ha as [?|[? ?]%Forall_cons]; [by left|by right].
Qed.

(** What [Poll] dequeues and leaves, and what it has written when it
    returns nil. *)
Lemma Poll_spec (wr : UpdateWriter) (allow : bool) (st : SessionTracker) (c : Conn) :
  ∃ pre post c' r,
    Poll io_err wr allow st c = (set_queue st post, c', r) ∧
    queue st = pre ++ post ∧
    (if allow then post = []
     else Forall (λ u, expunge u = 0) pre ∧
          match post with [] => True | u :: _ => expunge u ≠ 0 end) ∧
    (r = Nil →
       wire c' = wire c ++ (response_of <$> pending pre) ∧
       length (pending pre) = length pre).
Proof.
  unfold Poll.
  destruct (Poll_dequeue_spec allow st) as (pre & post & Hq & -> & Hsplit).
  destruct (Poll_write io_err wr pre c) as [c' r] eqn:Hw.
  exists pre, post, c', r. split_and!; try done.
  intros ->. by apply Poll_write_Nil in Hw as (? & ? & _).
Qed.

(** C5.  [Poll] splits the queue in the records it dequeues and the
    records it leaves.  When expunges are allowed it dequeues the whole
    queue and leaves it empty; otherwise it dequeues exactly the records
    before the first expunge record, which stays queued with everything
    behind it.  When [Poll] returns nil it has written the dequeued
    records, each as its response and in order, and nothing else; it does
    return nil whenever the transport takes every write and every dequeued
    record is one of the four kinds. *)
Theorem Poll_partial_drain
    (wr : UpdateWriter) (allow : bool) (st : SessionTracker) (c : Conn) :
  allowExpunge wr = allow →
  ∃ pre post st' c' r,
    Poll io_err wr allow st c = (st', c', r) ∧
    queue st = pre ++ post ∧
    st' = set_queue st post ∧
    (if allow then post = []
     else Forall (λ u, expunge u = 0) pre ∧
          match post with [] => True | u :: _ => expunge u ≠ 0 end) ∧
    (r = Nil →
       wire c' = wire c ++ (response_of <$> pending pre) ∧
       length (pending pre) = length pre) ∧
    ((∀ l, io_err l = None) → Forall (λ u, is_Some (view u)) pre → r = Nil).
Proof.
  intros Hwr. unfold Poll.
  destruct (Poll_dequeue_spec allow st) as (pre & post & Hq & -> & Hsplit).
  destruct (Poll_write io_err wr pre c) as [c' r] eqn:Hw.
  exists pre, post, (set_queue st post), c', r. split_and!; try done.
  - intros ->. by apply Poll_write_Nil in Hw as (? & ? & _).
  - intros Hio Hv.
    destruct (Poll_write_ok wr pre c Hio Hv) as [c'' Hok]; [|congruence].
    destruct allow; [by left|right]. by destruct Hsplit.
Qed.

End Delivery.

Lemma Poll_partial_drain_witness :
  let st :=
    {| mailbox := Some ();
       queue := [update_numMessages 43; update_expunge 20; update_numMessages 44];
       updates := None |} in
  let c :=
    {| state := ConnStateSelected; session := {| us_mailbox := Some 1%positive |};
       wire := [] |} in
  ∃ pre post st' c',
    Poll (λ _, None) {| allowExpunge := false |} false st c = (st', c', Nil) ∧
    queue st = pre ++ post ∧
    queue st' = post ∧
    Forall (λ u, expunge u = 0) pre ∧
    match post with [] => True | u :: _ => expunge u ≠ 0 end ∧
    wire c' = wire c ++ (response_of <$> pending pre).
Proof.
  intros st c.
  destruct (Poll_partial_drain (λ _, None) {| allowExpunge := false |} false st c)
    as (pre & post & st' & c' & r & HP & Hq & -> & [Hpre Hpost] & Hnil & Hok);
    [done|].
  assert (r = Nil) as ->.
  { apply Hok; [done|].
    assert (Forall (λ u, is_Some (view u)) (queue st)) as Hv
      by (repeat constructor; by eexists).
    rewrite Hq in Hv. by apply Forall_app in Hv as [? _]. }
  exists pre, post, (set_queue st post), c'.
  split_and!; try done. by apply Hnil.
Defined.


(** C3.  After any history of attach, detach, notify and poll operations
    on one mailbox tracker, for every attached observer: a server-view
    number n that the observer can see (it encodes to a non-zero m)
    decodes back from m to n; and a client-view number k that the pending
    queue marks as expunged decodes to 0. *)
Theorem SeqNum_round_trip
    (n0 : Z) (ops : list op) (w : World) (p : SessionPtr) (st : SessionTracker)
    (n m k : Z) :
  is_uint32 n0 →
  Forall op_typed ops →
  run ops (NewMailboxTracker n0) = Ok w →
  p ∈ t_sessions (tracker w) →
  heap w !! p = Some st →
  is_uint32 n → is_uint32 k →
  (EncodeSeqNum_at p n w = Ok m → m ≠ 0 → DecodeSeqNum_at p m w = Ok n)
  ∧ (marks_expunged (pending (queue st)) k → DecodeSeqNum_at p k w = Ok 0).
Proof.
  intros Hn0 Hops Hrun Hp Hst Hn Hk.
  assert (world_wf w) as (_ & _ & Hh)
    by (apply (world_wf_run ops (NewMailboxTracker n0));
        [done|by apply world_wf_NewMailboxTracker|done]).
  destruct (Hh _ _ Hst) as (_ & Hq & _).
  unfold EncodeSeqNum_at, DecodeSeqNum_at. rewrite Hst. split.
  - by apply Decode_Encode.
  - apply Decode_marked_expunged; [|done].
    eapply Forall_impl; [done|apply update_wf_typed].
Qed.

Lemma SeqNum_round_trip_witness :
  let ops := [OpNewSession; OpNewSession; OpNotify (MExpunge 3);
              OpNotify (MNumMessages 10); OpClose 2%positive] in
  ∃ w, run ops (NewMailboxTracker 9) = Ok w
       ∧ EncodeSeqNum_at 1%positive 5 w = Ok 6
       ∧ DecodeSeqNum_at 1%positive 6 w = Ok 5
       ∧ DecodeSeqNum_at 1%positive 3 w = Ok 0.
Proof.
  intros ops. eexists. split; [by vm_compute|].
  split; [by vm_compute|].
  match goal with |- DecodeSeqNum_at _ _ ?W = _ ∧ _ => set (w := W) end.
  destruct (SeqNum_round_trip 9 ops w 1%positive
              {| mailbox := Some (); queue := [update_expunge 3; update_numMessages 10];
                 updates := None |} 5 6 3) as [H1 H2].
  - by vm_compute.
  - repeat constructor; by vm_compute.
  - by vm_compute.
  - apply (bool_decide_unpack _). by vm_compute.
  - by vm_compute.
  - by vm_compute.
  - by vm_compute.
  - split.
    + apply H1; [by vm_compute|done].
    + apply H2. split; [done|]. apply (bool_decide_unpack _). by vm_compute.
Defined.

(** C4, as the code has it.  A notification leaves out only the session
    passed as its source, and only [QueueMessageFlags] takes one: with
    source O1 the record is not appended to O1's queue and is appended
    exactly once to the queue of another attached session O2.
    [QueueExpunge], [QueueNumMessages] and [QueueMailboxFlags] take no
    source: their record is appended exactly once to the queue of every
    attached session, O1's and O2's alike. *)
Theorem notify_reaches_all_but_source
    (m : mutation) (w w' : World) (O1 O2 : SessionPtr) (st1 st2 : SessionTracker) :
  O1 ≠ O2 →
  O1 ∈ t_sessions (tracker w) → O2 ∈ t_sessions (tracker w) →
  heap w !! O1 = Some st1 → heap w !! O2 = Some st2 →
  mutation_source m = None ∨ mutation_source m = Some O1 →
  notify m w = Ok w' →
  ∃ st1' st2',
    heap w' !! O1 = Some st1' ∧ heap w' !! O2 = Some st2' ∧
    queue st2' = queue st2 ++ [mutation_record m] ∧
    queue st1' =
      match m with
      | MMessageFlags _ _ _ (Some _) => queue st1
      | _ => queue st1 ++ [mutation_record m]
      end.
Proof.
  intros Hne H1 H2 Hst1 Hst2 Hsrc Hnot.
  destruct (notify_queue _ _ _ _ _ Hnot Hst1) as (st1' & Hl1 & _ & Hq1).
  destruct (notify_queue _ _ _ _ _ Hnot Hst2) as (st2' & Hl2 & _ & Hq2).
  exists st1', st2'. split_and!; [done..| |].
  - rewrite Hq2. rewrite decide_True; [done|].
    split; [done|]. destruct Hsrc as [->| ->]; congruence.
  - rewrite Hq1. destruct m as [| | |sq ui fl [src|]]; cbn in *;
      try (rewrite decide_True; [done|by split]).
    destruct Hsrc as [?|[= ->]]; [done|].
    rewrite decide_False; [done|]. by intros [_ ?].
Qed.

Lemma notify_reaches_all_but_source_witness :
  let w := (NewSession (NewSession (NewMailboxTracker 42)).1).1 in
  let m := MMessageFlags 7 70 ["\Seen"] (Some 1%positive) in
  ∃ w' st1' st2',
    notify m w = Ok w' ∧
    heap w' !! 1%positive = Some st1' ∧ heap w' !! 2%positive = Some st2' ∧
    queue st2' = [mutation_record m] ∧
    queue st1' = [].
Proof.
  intros w m.
  destruct (notify m w) as [w'|] eqn:Hn; [|by vm_compute in Hn].
  destruct (notify_reaches_all_but_source m w w' 1%positive 2%positive
              {| mailbox := Some (); queue := []; updates := None |}
              {| mailbox := Some (); queue := []; updates := None |})
    as (st1' & st2' & H1 & H2 & H3 & H4).
  - done.
  - apply (bool_decide_unpack _). by vm_compute.
  - apply (bool_decide_unpack _). by vm_compute.
  - by vm_compute.
  - by vm_compute.
  - by right.
  - done.
  - by exists w', st1', st2'.
Defined.

(** C4, as the claim states it, fails: [QueueExpunge] has no source, so
    the expunge record is queued for every attached session, the one that
    performed the expunge included. *)
Lemma expunge_is_queued_for_its_own_session :
  ¬ (∀ (w w' : World) (O1 O2 : SessionPtr) (st1 : SessionTracker) (seqNum : Z),
       O1 ≠ O2 →
       O1 ∈ t_sessions (tracker w) → O2 ∈ t_sessions (tracker w) →
       heap w !! O1 = Some st1 →
       QueueExpunge seqNum w = Ok w' →
       queue <$> heap w' !! O1 = Some (queue st1)).
Proof.
  intros H.
  set (w := (NewSession (NewSession (NewMailboxTracker 42)).1).1).
  destruct (QueueExpunge 20 w) as [w'|] eqn:Hq; [|by vm_compute in Hq].
  specialize (H w w' 1%positive 2%positive
                {| mailbox := Some (); queue := []; updates := None |} 20).
  assert (queue <$> heap w' !! 1%positive = Some [update_expunge 20]) as Hw'.
  { vm_compute in Hq. injection Hq as <-. by vm_compute. }
  assert (Some [update_expunge 20] = Some []) as [=].
  rewrite <- Hw'. apply H.
  - done.
  - apply (bool_decide_unpack _). by vm_compute.
  - apply (bool_decide_unpack _). by vm_compute.
  - by vm_compute.
  - done.
Qed.

(** *** The preconditions of the notifications *)

Lemma QueueExpunge_panics_iff seqNum w :
  (∃ msg, QueueExpunge seqNum w = Panic msg) ↔
  seqNum = 0 ∨ seqNum > t_numMessages (tracker w).
Proof.
  unfold QueueExpunge, queueUpdate. cbn.
  split.
  - intros [msg H]. repeat case_decide; try done; tauto.
  - intros H. repeat case_decide; try (by exists ""; done); try (by eexists);
      exfalso; tauto.
Qed.

Lemma QueueExpunge_count seqNum w w' :
  is_uint32 seqNum → is_uint32 (t_numMessages (tracker w)) →
  QueueExpunge seqNum w = Ok w' →
  t_numMessages (tracker w') = t_numMessages (tracker w) - 1.
Proof.
  intros Hs Hn. unfold QueueExpunge. case_decide; [done|].
  intros (Hr & _ & _ & _ & _ & ->)%queueUpdate_Ok. cbn in *.
  rewrite decide_True by done. apply wrap32_id.
  assert (¬ seqNum > t_numMessages (tracker w)) by tauto. u32.
Qed.

Lemma QueueNumMessages_panics_iff n w :
  (∃ msg, QueueNumMessages n w = Panic msg) ↔
  n ≠ 0 ∧ n < t_numMessages (tracker w).
Proof.
  unfold QueueNumMessages, queueUpdate. cbn.
  split.
  - intros [msg H]. repeat case_decide; try done; tauto.
  - intros H. repeat case_decide; try (by exists ""; done); try (by eexists);
      exfalso; tauto.
Qed.

Lemma QueueNumMessages_count n w w' :
  n ≠ 0 → QueueNumMessages n w = Ok w' → t_numMessages (tracker w') = n.
Proof.
  intros Hn (_ & _ & _ & _ & _ & ->)%queueUpdate_Ok. cbn.
  by rewrite decide_False, decide_True by tauto.
Qed.

(** C6, at the input where the code departs from it: with 5 messages in
    the mailbox, [QueueNumMessages 0] does not panic; it leaves the count
    at 5 and queues a record with no field set, on which the next [Poll]
    of the session panics. *)
Theorem QueueNumMessages_zero_is_not_rejected :
  let '(w, A) := NewSession (NewMailboxTracker 5) in
  ∃ w', QueueNumMessages 0 w = Ok w'
    ∧ t_numMessages (tracker w') = 5
    ∧ queue <$> heap w' !! A = Some [update_numMessages 0]
    ∧ ∀ io_err wr allow c,
        (Poll_at io_err wr allow A (c, w')).2 = Panicked "imapserver: 未知的跟踪更新 %#v".
Proof.
  cbn. eexists. split; [by vm_compute|].
  split; [done|]. split; [by vm_compute|].
  intros io_err wr [] c; by vm_compute.
Qed.

End Broadcast.

(** ** Idle *)

Section Idle.

Variable io_err : list Response → option error.

Lemma Poll_updates wr allow st c :
  updates (Poll io_err wr allow st c).1.1 = updates st.
Proof.
  unfold Poll. destruct (Poll_dequeue_spec allow st) as (pre & post & _ & -> & _).
  by destruct (Poll_write io_err wr pre c).
Qed.

(** A registered call and a non-nil [updates] go together, and there is
    at most one of them. *)
Lemma idle_invariant c0 s :
  idle_reachable io_err c0 s →
  (i_running s = 0%nat ∧ updates (i_st s) = None) ∨
  (i_running s = 1%nat ∧ is_Some (updates (i_st s))).
Proof.
  induction 1 as [|s a s' r _ IH Hstep]; [by left|].
  destruct a as [|u| | |allow]; unfold idle_step in Hstep.
  - unfold Idle_register in Hstep.
    destruct IH as [[Hr Hu]|[Hr [k Hu]]]; rewrite Hu in Hstep;
      injection Hstep as <- <-; cbn; [right|right]; rewrite ?Hr; eauto.
  - injection Hstep as <- <-. cbn.
    destruct IH as [[Hr Hu]|[Hr [k Hu]]]; rewrite Hu; [by left|right].
    split; [done|]. case_decide; by eexists.
  - destruct (i_running s) as [|j] eqn:Hr; [done|].
    destruct (updates (i_st s)) as [[|n]|] eqn:Hu; try done.
    assert (j = 0%nat) as -> by (destruct IH as [[? _]|[? _]]; lia).
    pose proof (Poll_updates {| allowExpunge := true |} true
                  (set_updates (i_st s) (Some n)) (i_conn s)) as Hpu.
    destruct (Poll _ _ _ _ _) as [[st' c'] r'].
    destruct r'; injection Hstep as <- <-; cbn in *; [right|by left|by left].
    split; [done|]. rewrite Hpu. by eexists.
  - destruct (i_running s) as [|j] eqn:Hr; [done|].
    assert (j = 0%nat) as -> by (destruct IH as [[? _]|[? _]]; lia).
    injection Hstep as <- <-. by left.
  - pose proof (Poll_updates {| allowExpunge := allow |} allow (i_st s) (i_conn s)) as Hpu.
    destruct (Poll _ _ _ _ _) as [[st' c'] r'].
    injection Hstep as <- <-. cbn in *. by rewrite Hpu.
Qed.

(** C10.  In every state reached from a fresh session tracker: at most
    one [Idle] call is registered; while one is, another call returns an
    error in that very step and leaves the tracker and the connection as
    they were; and when the registered call returns, by [stop], by an
    error of [Poll] or by a panic, no call is registered and the next call
    is accepted, the queue untouched. *)
Theorem Idle_is_exclusive (c0 : Conn) (s : IdleSys) :
  idle_reachable io_err c0 s →
  (i_running s ≤ 1)%nat
  ∧ (i_running s = 1%nat →
       ∃ e, idle_step io_err ACall s = Some (s, Some (Err e)))
  ∧ (∀ a s' r,
       a ≠ ACall → idle_step io_err a s = Some (s', Some r) →
       i_running s' = 0%nat ∧
       ∃ s'', idle_step io_err ACall s' = Some (s'', None) ∧
              i_running s'' = 1%nat ∧
              queue (i_st s'') = queue (i_st s') ∧
              i_conn s'' = i_conn s').
Proof.
  intros Hs. pose proof (idle_invariant _ _ Hs) as Hinv. split_and!.
  - destruct Hinv as [[-> _]|[-> _]]; lia.
  - intros Hr. destruct Hinv as [[? _]|[_ [k Hu]]]; [lia|].
    cbn. unfold Idle_register. rewrite Hu. by eexists.
  - intros a s' r Ha Hstep.
    assert (idle_reachable io_err c0 s') as Hs' by (by eapply idle_reach_step).
    assert (i_running s' = 0%nat ∧ updates (i_st s') = None) as [Hr' Hu'].
    { destruct a as [|u| | |allow]; unfold idle_step in Hstep; try done.
      - destruct (i_running s) as [|j] eqn:Hr; [done|].
        destruct (updates (i_st s)) as [[|n]|] eqn:Hu; try done.
        assert (j = 0%nat) as -> by (destruct Hinv as [[? _]|[? _]]; lia).
        destruct (Poll _ _ _ _ _) as [[st' c'] r'].
        by destruct r'; simplify_eq.
      - destruct (i_running s) as [|j] eqn:Hr; [done|].
        assert (j = 0%nat) as -> by (destruct Hinv as [[? _]|[? _]]; lia).
        by simplify_eq.
      - by destruct (Poll _ _ _ _ _) as [[st' c'] r']. }
    split; [done|]. cbn. unfold Idle_register. rewrite Hu'.
    eexists. split; [done|]. cbn. by rewrite Hr'.
Qed.

End Idle.

Lemma Idle_is_exclusive_witness :
  let c0 := {| state := ConnStateSelected; session := {| us_mailbox := Some 1%positive |};
               wire := [] |} in
  let s := {| i_st := {| mailbox := Some (); queue := [update_numMessages 43];
                         updates := Some 1%nat |};
              i_conn := c0; i_running := 1 |} in
  ∃ e, idle_step (λ _, None) ACall s = Some (s, Some (Err e)).
Proof.
  intros c0 s.
  apply (Idle_is_exclusive (λ _, None) c0 s); [|done].
  apply (idle_reach_step _ _
           {| i_st := {| mailbox := Some (); queue := []; updates := Some 0%nat |};
              i_conn := c0; i_running := 1 |}
           (AQueued (update_numMessages 43)) s None); [|done].
  apply (idle_reach_step _ _
           {| i_st := {| mailbox := Some (); queue := []; updates := None |};
              i_conn := c0; i_running := 0 |}
           ACall _ None); [|done].
  apply idle_reach_init.
Defined.


(** ** The command loop *)

Section CommandLoop.

Variable io_err : list Response → option error.
Variable handle : string → string → Conn * World → (Conn * World) * handler_error.

Lemma conn_write_Nil r c c' :
  conn_write io_err r c = (c', Nil) → wire c' = wire c ++ [r].
Proof. unfold conn_write. destruct (io_err (wire c)); by intros [= <-]. Qed.

(** What a successful [Conn.poll] dequeued and wrote. *)
Lemma Conn_poll_Nil name cw cw' :
  Conn_poll io_err name cw = (cw', Nil) →
  ∃ dequeued,
    wire cw'.1 = wire cw.1 ++ (response_of <$> pending dequeued) ∧
    length (pending dequeued) = length dequeued ∧
    match polled_session cw.1 with
    | None => dequeued = [] ∧ cw'.2 = cw.2
    | Some p =>
      ∃ st post,
        heap cw.2 !! p = Some st ∧
        heap cw'.2 !! p = Some (set_queue st post) ∧
        queue st = dequeued ++ post ∧
        if decide (name = "FETCH" ∨ name = "STORE" ∨ name = "SEARCH")
        then Forall (λ u, expunge u = 0) dequeued ∧
             match post with [] => True | u :: _ => expunge u ≠ 0 end
        else post = []
    end.
Proof.
  destruct cw as [c w]. unfold Conn_poll, polled_session, UserSession_Poll. cbn [fst snd].
  assert (∀ cw', (c, w, Nil) = (cw', Nil) →
            ∃ dequeued : list trackerUpdate,
              wire cw'.1 = wire c ++ (response_of <$> pending dequeued) ∧
              length (pending dequeued) = length dequeued ∧ dequeued = [] ∧ cw'.2 = w)
    as Hnone.
  { intros ? [= <-]. exists []. cbn. by rewrite app_nil_r. }
  destruct (state c); try (intros H; by destruct (Hnone _ H) as (d & ? & ? & ? & ?); exists d).
  all: destruct (us_mailbox (session c)) as [p|];
    try (intros H; by destruct (Hnone _ H) as (d & ? & ? & ? & ?); exists d).
  all: unfold Poll_at; destruct (heap w !! p) as [st|] eqn:Hst; [|done].
  all: set (allow := if decide (name = "FETCH" ∨ name = "STORE" ∨ name = "SEARCH")
                     then false else true).
  all: destruct (Poll_spec io_err {| allowExpunge := allow |} allow st c)
         as (pre & post & c' & r & -> & Hq & Hsplit & Hnil).
  all: intros [= <- ->]; destruct (Hnil eq_refl) as [Hw Hlen].
  all: exists pre; split_and!; [done..|].
  all: exists st, post; cbn; rewrite lookup_insert_eq; split_and!; [done..|].
  all: subst allow; by case_decide.
Qed.

(** C7, as the code has it.  When the handler of a known command returns
    nil and the loop owes the tagged OK, and [readCommand] returns nil:
    after what the handler wrote, the loop has written the response of
    every update it dequeued from the session tracker, in queue order, and
    then the tagged OK, and nothing else.  What it dequeued is the whole
    pending queue, except for FETCH, STORE and SEARCH, where it is the
    records before the first pending expunge; that expunge and the records
    behind it stay queued for a later poll. *)
Theorem readCommand_updates_before_completion
    (tag name : string) (cw cw1 cw' : Conn * World) :
  name ∈ known_commands →
  handle name tag cw = (cw1, HNil) →
  sendOK name = true →
  readCommand io_err handle tag name cw = (cw', Nil) →
  ∃ dequeued,
    wire cw'.1 =
      wire cw1.1 ++ (response_of <$> pending dequeued) ++ [completion tag name] ∧
    length (pending dequeued) = length dequeued ∧
    match polled_session cw1.1 with
    | None => dequeued = [] ∧ cw'.2 = cw1.2
    | Some p =>
      ∃ st post,
        heap cw1.2 !! p = Some st ∧
        heap cw'.2 !! p = Some (set_queue st post) ∧
        queue st = dequeued ++ post ∧
        if decide (name = "FETCH" ∨ name = "STORE" ∨ name = "SEARCH")
        then Forall (λ u, expunge u = 0) dequeued ∧
             match post with [] => True | u :: _ => expunge u ≠ 0 end
        else post = []
    end.
Proof.
  intros Hk Hh Hok. unfold readCommand.
  rewrite (bool_decide_eq_true_2 _ Hk).
  rewrite bool_decide_eq_false_2 by (by intros [? _]).
  rewrite Hh, Hok.
  destruct (Conn_poll io_err name cw1) as [cw2 r] eqn:Hpoll.
  destruct r; try (by intros [= <- ?]).
  apply Conn_poll_Nil in Hpoll as (dequeued & Hw & Hlen & Hrest).
  unfold writeStatusResp.
  destruct (conn_write _ _ _) as [c3 r3] eqn:Hcw. intros [= <- ->].
  apply conn_write_Nil in Hcw. cbn [fst snd].
  exists dequeued. split_and!; [|done..].
  rewrite Hcw, Hw. by rewrite <- app_assoc.
Qed.

End CommandLoop.

Lemma readCommand_updates_before_completion_witness :
  let io_err : list Response → option error := λ _, None in
  let handle : string → string → Conn * World → (Conn * World) * handler_error :=
    λ _ _ cw, (cw, HNil) in
  let w0 := (NewSession (NewMailboxTracker 42)).1 in
  let c := {| state := ConnStateSelected; session := {| us_mailbox := Some 1%positive |};
              wire := [] |} in
  ∃ w cw' dequeued,
    run [OpNotify (MNumMessages 43); OpNotify (MExpunge 20)] w0 = Ok w ∧
    readCommand io_err handle "A1" "STORE" (c, w) = (cw', Nil) ∧
    wire cw'.1 = (response_of <$> pending dequeued) ++ [completion "A1" "STORE"] ∧
    length (pending dequeued) = length dequeued.
Proof.
  intros io_err handle w0 c.
  destruct (run [OpNotify (MNumMessages 43); OpNotify (MExpunge 20)] w0) as [w|] eqn:Hrun;
    [|by vm_compute in Hrun].
  destruct (readCommand io_err handle "A1" "STORE" (c, w)) as [cw' r] eqn:Hrc.
  assert (r = Nil) as ->.
  { vm_compute in Hrun. injection Hrun as <-. vm_compute in Hrc. by injection Hrc as <- <-. }
  destruct (readCommand_updates_before_completion io_err handle "A1" "STORE" (c, w) (c, w) cw')
    as (dequeued & Hw & Hlen & _).
  - apply (bool_decide_unpack _). by vm_compute.
  - done.
  - by vm_compute.
  - done.
  - exists w, cw', dequeued. by split_and!.
Defined.

(** C7, as the claim states it, fails: after a FETCH the loop writes the
    tagged OK while an expunge queued for the session is still pending;
    it is written after that completion, at a later poll. *)
Lemma pending_expunge_is_not_written_before_FETCH_completion :
  ¬ (∀ (io_err : list Response → option error)
       (handle : string → string → Conn * World → (Conn * World) * handler_error)
       (tag name : string) (cw cw1 cw' : Conn * World)
       (p : SessionPtr) (st : SessionTracker),
       name ∈ known_commands →
       handle name tag cw = (cw1, HNil) →
       sendOK name = true →
       readCommand io_err handle tag name cw = (cw', Nil) →
       polled_session cw1.1 = Some p →
       heap cw1.2 !! p = Some st →
       wire cw'.1 =
         wire cw1.1 ++ (response_of <$> pending (queue st)) ++ [completion tag name]).
Proof.
  intros H.
  set (w := match QueueExpunge 20 (NewSession (NewMailboxTracker 42)).1 with
            | Ok w => w
            | Panic _ => NewMailboxTracker 42
            end).
  set (c := {| state := ConnStateSelected; session := {| us_mailbox := Some 1%positive |};
               wire := [] |}).
  specialize (H (λ _, None) (λ _ _ cw, (cw, HNil)) "A1" "FETCH" (c, w) (c, w)
                (readCommand (λ _, None) (λ _ _ cw, (cw, HNil)) "A1" "FETCH" (c, w)).1
                1%positive
                {| mailbox := Some (); queue := [update_expunge 20]; updates := None |}).
  assert ([completion "A1" "FETCH"] = [RespExpunge 20; completion "A1" "FETCH"]) as [=].
  apply H.
  - apply (bool_decide_unpack _). by vm_compute.
  - done.
  - by vm_compute.
  - by vm_compute.
  - done.
  - by vm_compute.
Qed.

(** ** The client command engine *)

Section Client.

Import Imapclient.

Lemma chan_send_not_Parked {A} (v : A) ch c : chan_send v ch ≠ Parked c.
Proof. unfold chan_send. by repeat case_match. Qed.

Lemma chan_close_not_Parked {A} (ch : chan A) c : chan_close ch ≠ Parked c.
Proof. unfold chan_close. by case_match. Qed.

(** The switch of [completeCommand] changes at most the command itself,
    and not its base. *)
Lemma complete_kind_spec q cmd e c c' :
  complete_kind q cmd e c = Done c' ∨ complete_kind q cmd e c = Parked c' →
  pendingCmds c' = pendingCmds c ∧ next_cmd c' = next_cmd c ∧
  conn_closed c' = conn_closed c ∧ cmdTag c' = cmdTag c ∧
  (cmds c' = cmds c ∨ ∃ cmd', cmds c' = <[q:=cmd']> (cmds c) ∧ base cmd' = base cmd).
Proof.
  unfold complete_kind.
  destruct (kind cmd);
    try (destruct (bool_decide (e = None)); intros [[= <-]|[=]]; split_and!; try done; by left).
  - destruct (pendingData cmd) as [d|]; cbn.
    + unfold parks, chan_send.
      destruct (closed (mailboxes cmd)) eqn:Hcl; cbn; [by intros [|]|].
      case_decide; cbn.
      * intros [[= <-]|[=]]. split_and!; try done. right. eexists. split; reflexivity.
      * intros [[=]|[= <-]]. split_and!; try done. by left.
    + unfold chan_close. destruct (closed (mailboxes cmd)); cbn; [by intros [|]|].
      intros [[= <-]|[=]]. split_and!; try done. right. eexists. split; reflexivity.
  - destruct (stream_closed cmd); cbn; [by intros [|]|].
    intros [[= <-]|[=]]. split_and!; try done. right. eexists. split; reflexivity.
  - destruct (stream_closed cmd); cbn; [by intros [|]|].
    intros [[= <-]|[=]]. split_and!; try done. right. eexists. split; reflexivity.
Qed.

(** [completeCommand] replaces the command by one with the same tag and
    stored error whose [done] channel has taken the error and is closed,
    and changes no other command. *)
Lemma completeCommand_spec q e c c' :
  completeCommand q e c = Done c' ∨ completeCommand q e c = Parked c' →
  pendingCmds c' = pendingCmds c ∧ next_cmd c' = next_cmd c ∧
  conn_closed c' = conn_closed c ∧ cmdTag c' = cmdTag c ∧
  ∃ cmd cmd',
    cmds c !! q = Some cmd ∧ cmds c' = <[q:=cmd']> (cmds c) ∧
    tag (base cmd') = tag (base cmd) ∧ err (base cmd') = err (base cmd) ∧
    chan_send e (done (base cmd)) ≫= chan_close = Done (done (base cmd')).
Proof.
  unfold completeCommand.
  destruct (cmds c !! q) as [cmd|] eqn:Hq; [|by intros [|]].
  destruct (chan_send e (done (base cmd))) as [ch| | |c0] eqn:Hsend;
    [|by intros [|]..|by apply chan_send_not_Parked in Hsend]. cbn.
  destruct (chan_close ch) as [ch'| | |c0] eqn:Hclose;
    [|by intros [|]..|by apply chan_close_not_Parked in Hclose]. cbn.
  intros (Hp & Hn & Hc & Ht & Hcmds)%complete_kind_spec. cbn in *.
  split_and!; try done. exists cmd.
  destruct Hcmds as [->|(cmd' & -> & Hb)].
  - exists (set_done cmd ch'). split_and!; try done. by rewrite Hsend.
  - exists cmd'. rewrite insert_insert_eq, Hb. split_and!; try done. by rewrite Hsend.
Qed.

Lemma completeCommand_frame q e c c' :
  completeCommand q e c = Done c' ∨ completeCommand q e c = Parked c' →
  pendingCmds c' = pendingCmds c ∧
  next_cmd c' = next_cmd c ∧
  conn_closed c' = conn_closed c ∧
  is_Some (cmds c !! q) ∧
  (∀ p, is_Some (cmds c' !! p) ↔ is_Some (cmds c !! p)) ∧
  (∀ p, p ≠ q → cmds c' !! p = cmds c !! p).
Proof.
  intros (Hp & Hn & Hc & _ & cmd & cmd' & Hq & -> & _)%completeCommand_spec.
  split_and!; try done.
  - intros p. destruct (decide (p = q)) as [->|].
    + rewrite lookup_insert_eq, Hq. split; by eexists.
    + by rewrite lookup_insert_ne.
  - intros p ?. by rewrite lookup_insert_ne.
Qed.

Lemma chan_send_close_fresh (e : option error) :
  chan_send e (make_chan 1) ≫= chan_close = Done {| buf := [e]; cap := 1; closed := true |}.
Proof. done. Qed.

(** A LIST command is stuck exactly when the send of the entry it holds
    back cannot proceed. *)
Lemma stream_stuck_false cmd c :
  closed (mailboxes cmd) = false →
  stream_stuck cmd = false →
  match kind cmd with
  | ListCommand _ =>
    ∃ ch, match pendingData cmd with
          | Some d => parks c (chan_send d (mailboxes cmd))
          | None => Done (mailboxes cmd)
          end = Done ch ∧ closed ch = false
  | _ => True
  end.
Proof.
  unfold stream_stuck. intros Hcl. destruct (kind cmd); try done.
  destruct (pendingData cmd) as [d|]; cbn; [|by eexists].
  unfold parks, chan_send. rewrite Hcl.
  intros Hlen%bool_decide_eq_false. rewrite decide_True by lia. by eexists.
Qed.

Lemma stream_stuck_true cmd c :
  closed (mailboxes cmd) = false →
  stream_stuck cmd = true →
  ∃ rs d, kind cmd = ListCommand rs ∧ pendingData cmd = Some d ∧
          parks c (chan_send d (mailboxes cmd)) = Parked c.
Proof.
  unfold stream_stuck. intros Hcl. destruct (kind cmd); try done.
  intros [[d Hd]%bool_decide_eq_true Hlen%bool_decide_eq_true]%andb_prop.
  eexists _, d. split_and!; try done.
  unfold parks, chan_send. rewrite Hcl. by rewrite decide_False by lia.
Qed.

(** Completing a command that is not completed yet: the call returns,
    unless the command is a LIST whose stream is stuck, in which the call
    is parked; either way the [done] channel holds the error and is
    closed. *)
Lemma completeCommand_fresh p e c cmd :
  cmds c !! p = Some cmd →
  done (base cmd) = make_chan 1 →
  stream_closed cmd = false →
  closed (mailboxes cmd) = false →
  ∃ c', completeCommand p e c = (if stream_stuck cmd then Parked c' else Done c') ∧
        done_of c' p = Some {| buf := [e]; cap := 1; closed := true |}.
Proof.
  intros Hp Hd Hs Hm. unfold completeCommand. rewrite Hp, Hd.
  change (chan_send e (make_chan 1)) with
    (Done (A:=chan (option error)) {| buf := [e]; cap := 1; closed := false |}).
  cbn.
  match goal with |- context [complete_kind p ?cmd0 e _] => set (cmd1 := cmd0) end.
  match goal with |- context [complete_kind p cmd1 e ?c0] => set (c1 := c0) end.
  assert (cmds c1 !! p = Some cmd1) as Hp1 by (cbn; by rewrite lookup_insert_eq).
  assert (done (base cmd1) = {| buf := [e]; cap := 1; closed := true |}) as Hd1 by done.
  assert (stream_stuck cmd1 = stream_stuck cmd) as <- by done.
  assert (closed (mailboxes cmd1) = false) as Hm1 by done.
  assert (stream_closed cmd1 = false) as Hs1 by done.
  clearbody cmd1 c1.
  destruct (stream_stuck cmd1) eqn:Hst.
  - destruct (stream_stuck_true cmd1 c1 Hm1 Hst) as (rs & d & Hk & Hpd & Hpark).
    exists c1. unfold complete_kind. rewrite Hk, Hpd, Hpark. cbn.
    split; [done|]. unfold done_of. by rewrite Hp1; cbn; rewrite Hd1.
  - pose proof (stream_stuck_false cmd1 c1 Hm1 Hst) as Hsend.
    unfold complete_kind. rewrite Hs1.
    destruct (kind cmd1);
      try (try destruct (bool_decide (e = None)); eexists; (split; [done|]);
           unfold done_of; cbn;
           rewrite ?lookup_insert_eq; by rewrite ?Hp1; cbn; rewrite ?Hd1).
    destruct Hsend as (ch & -> & Hch). cbn. unfold chan_close. rewrite Hch. cbn.
    eexists; split; [done|]. unfold done_of. cbn. rewrite lookup_insert_eq. cbn.
    by rewrite Hd1.
Qed.

Lemma completeCommand_base q e c c' :
  completeCommand q e c = Done c' ∨ completeCommand q e c = Parked c' →
  cmdTag c' = cmdTag c ∧
  (∀ p, tag ∘ base <$> cmds c' !! p = tag ∘ base <$> cmds c !! p) ∧
  (∀ p, err ∘ base <$> cmds c' !! p = err ∘ base <$> cmds c !! p).
Proof.
  intros (_ & _ & _ & Ht & cmd & cmd' & Hq & -> & Htag & Herr & _)%completeCommand_spec.
  split_and!; [done|..]; intros p; (destruct (decide (p = q)) as [->|];
    [rewrite lookup_insert_eq, Hq; cbn; congruence|by rewrite lookup_insert_ne]).
Qed.

(** The loop of [closeWithError] over commands that are not completed
    yet: it completes them in order and gets through all of them, or is
    parked at the first one whose stream is stuck. *)
Lemma complete_all_fresh l : ∀ e c,
  NoDup l →
  (∀ p, p ∈ l → ∃ cmd, cmds c !! p = Some cmd ∧ done (base cmd) = make_chan 1 ∧
                        stream_closed cmd = false ∧ closed (mailboxes cmd) = false) →
  ∃ c' l1 l2,
    l = l1 ++ l2 ∧
    (complete_all l e c = Done c' ∧ l2 = [] ∧
       (∀ q cmd, q ∈ l1 → cmds c !! q = Some cmd → stream_stuck cmd = false) ∨
     complete_all l e c = Parked c' ∧
       ∃ l0 p cmd, l1 = l0 ++ [p] ∧ cmds c !! p = Some cmd ∧ stream_stuck cmd = true ∧
         (∀ q cmdq, q ∈ l0 → cmds c !! q = Some cmdq → stream_stuck cmdq = false)) ∧
    pendingCmds c' = pendingCmds c ∧
    next_cmd c' = next_cmd c ∧
    conn_closed c' = conn_closed c ∧
    cmdTag c' = cmdTag c ∧
    (∀ p, is_Some (cmds c' !! p) ↔ is_Some (cmds c !! p)) ∧
    (∀ p, tag ∘ base <$> cmds c' !! p = tag ∘ base <$> cmds c !! p) ∧
    (∀ p, p ∈ l1 → done_of c' p = Some {| buf := [e]; cap := 1; closed := true |}) ∧
    (∀ p, p ∉ l1 → cmds c' !! p = cmds c !! p).
Proof.
  induction l as [|q l IH]; intros e c Hnd Hl; cbn [complete_all].
  { exists c, [], []. split_and!; try done.
    - left. split_and!; try done. by intros q cmd ?%elem_of_nil.
    - by intros p ?%elem_of_nil. }
  apply NoDup_cons in Hnd as [Hq Hnd].
  destruct (Hl q) as (cmd & Hcmd & Hd & Hs & Hm); [by left|].
  destruct (completeCommand_fresh q e c cmd Hcmd Hd Hs Hm) as (c1 & H1 & Hdone).
  assert (completeCommand q e c = Done c1 ∨ completeCommand q e c = Parked c1) as Hends.
  { rewrite H1. destruct (stream_stuck cmd); [by right|by left]. }
  pose proof (completeCommand_frame _ _ _ _ Hends) as (Hp1 & Hn1 & Hc1 & _ & Hdom1 & Hfr1).
  pose proof (completeCommand_base _ _ _ _ Hends) as (Ht1 & Htag1 & _).
  rewrite H1. destruct (stream_stuck cmd) eqn:Hst; cbn.
  - exists c1, [q], l. split_and!; try done.
    + right. split; [done|]. exists [], q, cmd. split_and!; try done.
      by intros q' cmdq ?%elem_of_nil.
    + by intros p ->%list_elem_of_singleton.
    + intros p Hp. apply Hfr1. intros ->. apply Hp. by left.
  - destruct (IH e c1 Hnd) as (c' & l1 & l2 & -> & Hres & Hp' & Hn' & Hc' & Ht' & Hdom' & Htag' & Hin & Hout).
    { intros p Hp. rewrite Hfr1 by (intros ->; done). apply Hl. by right. }
    assert (∀ p, p ∈ l1 → cmds c1 !! p = cmds c !! p) as Hl1.
    { intros p Hp. apply Hfr1. intros ->. apply Hq, elem_of_app. by left. }
    exists c', (q :: l1), l2. split; [done|]. split_and!; try congruence.
    + destruct Hres as [(-> & -> & Hfree)|(-> & l0 & p & cmdp & -> & Hp & Hstp & Hfree)].
      * left. split_and!; try done.
        intros q' cmdq [->|Hq']%elem_of_cons Hcq; [congruence|].
        apply (Hfree q'); [done|]. by rewrite Hl1.
      * right. split; [done|]. exists (q :: l0), p, cmdp. split_and!; try done.
        -- rewrite <- Hp. symmetry. apply Hl1, elem_of_app. right. by left.
        -- intros q' cmdq [->|Hq']%elem_of_cons Hcq; [congruence|].
           apply (Hfree q'); [done|]. rewrite Hl1; [done|]. apply elem_of_app. by left.
    + intros p. by rewrite Hdom'.
    + intros p [->|Hp]%elem_of_cons; [|by apply Hin].
      unfold done_of in *. rewrite Hout; [done|].
      intros Hq1. apply Hq, elem_of_app. by left.
    + intros p [Hne Hp]%not_elem_of_cons. rewrite Hout by done. by apply Hfr1.
Qed.

Lemma delete_by_tag_spec h t l q l' :
  delete_by_tag h t l = Some (q, l') →
  ∃ l1 l2, l = l1 ++ q :: l2 ∧ l' = l1 ++ l2 ∧ tag ∘ base <$> h !! q = Some t.
Proof.
  revert q l'. induction l as [|p l IH]; intros q l'; cbn [delete_by_tag]; [done|].
  case_bool_decide as Ht.
  - intros [= <- <-]. by exists [], l.
  - destruct (delete_by_tag h t l) as [[q' l'']|]; [|done]. cbn. intros [= <- <-].
    destruct (IH q' l'' eq_refl) as (l1 & l2 & -> & -> & ?).
    by exists (p :: l1), l2.
Qed.

Lemma find_cmd_spec h f l p :
  find_cmd h f l = Some p → p ∈ l ∧ ∃ cmd, h !! p = Some cmd ∧ f cmd = true.
Proof.
  induction l as [|q l IH]; cbn [find_cmd]; [done|].
  destruct (h !! q) as [cmd|] eqn:Hq; cbn.
  - destruct (f cmd) eqn:Hf.
    + intros [= <-]. split; [by left|]. by exists cmd.
    + intros [? ?]%IH. split; [by right|done].
  - intros [? ?]%IH. split; [by right|done].
Qed.

(** The untagged responses and [Next] change at most one command, a
    pending one for the responses, and of it neither the base nor whether
    its streams are closed. *)
Lemma set_cmd_set_cmd p cmd cmd' c : set_cmd p cmd' (set_cmd p cmd c) = set_cmd p cmd' c.
Proof. unfold set_cmd. cbn. by rewrite insert_insert_eq. Qed.

Lemma handleList_updates data c c' :
  (∃ r, handleList data c = Done (c', r)) ∨ handleList data c = Parked c' →
  updates_stream c c'.
Proof.
  unfold handleList, findPendingCmdFunc.
  destruct (find_cmd _ _ _) as [p|] eqn:Hfind.
  2:{ intros [[r [= <-]]|[=]]. by left. }
  apply find_cmd_spec in Hfind as (Hp & cmd & Hcmd & _). rewrite Hcmd.
  destruct (kind cmd) as [| | |mb| | |[|]|mb| | |];
    try (intros [[r [= <-]]|[=]]; by left).
  - intros [[r [= <-]]|[=]]. right. by exists p, cmd, (set_data_List (Some data) cmd).
  - destruct (pendingData cmd) as [d|]; cbn.
    + unfold parks, chan_send. destruct (closed (mailboxes cmd)) eqn:Hcl; cbn.
      { by intros [[r [=]]|[=]]. }
      case_decide; cbn.
      * intros [[r [= <-]]|[=]]. right. eexists p, cmd, _. by split_and!.
      * intros [[r [=]]|[= <-]]. by left.
    + intros [[r [= <-]]|[=]]. right. eexists p, cmd, _. by split_and!.
  - unfold parks, chan_send. destruct (closed (mailboxes cmd)) eqn:Hcl; cbn.
    { by intros [[r [=]]|[=]]. }
    case_decide; cbn.
    + intros [[r [= <-]]|[=]]. right. eexists p, cmd, _. by split_and!.
    + intros [[r [=]]|[= <-]]. by left.
Qed.

Lemma handleStatus_updates data c c' :
  (∃ r, handleStatus data c = Done (c', r)) ∨ handleStatus data c = Parked c' →
  updates_stream c c'.
Proof.
  unfold handleStatus, findPendingCmdFunc.
  destruct (find_cmd _ _ _) as [p|] eqn:Hfind.
  2:{ intros [[r [= <-]]|[=]]. by left. }
  apply find_cmd_spec in Hfind as (Hp & cmd & Hcmd & _). rewrite Hcmd.
  destruct (kind cmd) as [| | |mb| | |rs|mb| | |];
    try (intros [[r [= <-]]|[=]]; by left).
  - destruct (pendingData cmd) as [d|]; [|by intros [[r [=]]|[=]]].
    unfold parks, chan_send. cbn.
    destruct (closed (mailboxes cmd)) eqn:Hcl; cbn.
    { by intros [[r [=]]|[=]]. }
    case_decide; cbn.
    + intros [[r [= <-]]|[=]]. rewrite set_cmd_set_cmd.
      right. eexists p, cmd, _. by split_and!.
    + intros [[r [=]]|[= <-]]. right. eexists p, cmd, _. by split_and!.
  - intros [[r [= <-]]|[=]]. right. by exists p, cmd, (set_st_data (Some data) cmd).
Qed.

Lemma Next_updates p c c' r : Next p c = Done (c', r) → updates_stream c c'.
Proof.
  unfold Next. destruct (cmds c !! p) as [cmd|] eqn:Hcmd; [|done].
  destruct (buf (mailboxes cmd)) as [|d rest].
  - destruct (closed (mailboxes cmd)); [|done]. intros [= <- _]. by left.
  - intros [= <- _]. right. eexists p, cmd, _. by split_and!.
Qed.

Lemma updates_stream_inv c c' : updates_stream c c' → client_inv c → client_inv c'.
Proof.
  intros [->|(p & cmd & cmd' & Hcmd & -> & Hb & Hs & Hm)]; [done|].
  intros (Hnd & Hpend & Hnext). unfold client_inv, set_cmd. cbn.
  split_and!; [done| |].
  - intros q Hq. destruct (Hpend _ Hq) as (cmdq & Hcq & Hd & Hsq & Hmq).
    destruct (decide (q = p)) as [->|].
    + rewrite lookup_insert_eq. exists cmd'. rewrite Hcmd in Hcq. injection Hcq as <-.
      split_and!; congruence.
    + rewrite lookup_insert_ne by done. by exists cmdq.
  - intros q cmdq. destruct (decide (q = p)) as [->|].
    + intros _. by eapply Hnext.
    + rewrite lookup_insert_ne by done. apply Hnext.
Qed.

Lemma updates_stream_base c c' p :
  updates_stream c c' → base <$> cmds c' !! p = base <$> cmds c !! p.
Proof.
  intros [->|(q & cmd & cmd' & Hcmd & -> & Hb & _)]; [done|]. cbn.
  destruct (decide (p = q)) as [->|].
  - rewrite lookup_insert_eq, Hcmd. cbn. by rewrite Hb.
  - by rewrite lookup_insert_ne.
Qed.

(** Pending commands are distinct and not completed. *)
Lemma reachable_inv c : reachable c → client_inv c.
Proof.
  induction 1 as [|o c c' _ IHc Hstep].
  { split_and!; [constructor|by intros p ?%elem_of_nil|done]. }
  pose proof IHc as (Hnd & Hpend & Hnext).
  destruct o as [k|id p|t e|p|e|data|data|p]; cbn in Hstep.
  - injection Hstep as <-. unfold client_inv, beginCommand. cbn [fst pendingCmds cmds next_cmd].
    split_and!.
    + apply NoDup_app. split_and!; [done| |apply NoDup_singleton].
      intros p Hp ->%list_elem_of_singleton.
      destruct (Hpend _ Hp) as (cmd & Hcmd & _). apply Hnext in Hcmd. lia.
    + intros p [Hp| ->%list_elem_of_singleton]%elem_of_app.
      * destruct (Hpend _ Hp) as (cmd & Hcmd & ?).
        exists cmd. split; [|done]. rewrite lookup_insert_ne; [done|].
        apply Hnext in Hcmd. lia.
      * rewrite lookup_insert_eq. by eexists.
    + intros p cmd. destruct (decide (p = next_cmd c)) as [->|].
      * intros _. lia.
      * rewrite lookup_insert_ne by done. intros ?%Hnext. lia.
  - by injection Hstep as <-.
  - unfold readResponseTagged, deletePendingCmdByTag in Hstep.
    destruct (delete_by_tag _ _ _) as [[q l]|] eqn:Hdel.
    2:{ cbn in Hstep. by injection Hstep as <-. }
    apply delete_by_tag_spec in Hdel as (l1 & l2 & Hl & -> & _).
    destruct (completeCommand q e _) as [c1| | |] eqn:Hc; try done.
    cbn in Hstep. injection Hstep as <-.
    pose proof (completeCommand_frame _ _ _ _ (or_introl Hc)) as (Hp1 & Hn1 & _ & _ & Hdom & Hfr).
    cbn in *.
    rewrite Hl in Hnd. apply NoDup_app in Hnd as (Hnd1 & Hdisj & [Hq2 Hnd2]%NoDup_cons).
    split_and!.
    + rewrite Hp1. apply NoDup_app. split_and!; [done| |done].
      intros p Hp1' Hp2. apply (Hdisj p Hp1'). by right.
    + intros p. rewrite Hp1. intros Hp.
      assert (p ≠ q) as Hne.
      { intros ->. apply elem_of_app in Hp as [Hp|Hp]; [|done].
        apply (Hdisj q Hp). by left. }
      rewrite Hfr by done. apply Hpend. rewrite Hl.
      apply elem_of_app in Hp as [?|?]; apply elem_of_app; [by left|right; by right].
    + intros p cmd Hcmd. rewrite Hn1.
      destruct (proj1 (Hdom p) (mk_is_Some _ _ Hcmd)) as [cmd0 Hcmd0]. by eapply Hnext.
  - unfold wait in Hstep.
    destruct (cmds c !! p) as [cmd|] eqn:Hp; [|done].
    destruct (err (base cmd)); [cbn in Hstep; by injection Hstep as <-|].
    destruct (buf (done (base cmd))) as [|v rest] eqn:Hbuf.
    { destruct (closed _); [|done]. cbn in Hstep. by injection Hstep as <-. }
    cbn in Hstep. injection Hstep as <-.
    unfold client_inv, set_cmd. cbn [pendingCmds cmds next_cmd]. split_and!; [done| |].
    + intros q Hq. destruct (Hpend _ Hq) as (cmd' & Hcmd' & Hd & ?).
      exists cmd'. split; [|done]. rewrite lookup_insert_ne; [done|].
      intros ->. rewrite Hp in Hcmd'. injection Hcmd' as ->. by rewrite Hd in Hbuf.
    + intros q cmd'. destruct (decide (q = p)) as [->|].
      * intros _. by eapply Hnext.
      * rewrite lookup_insert_ne by done. apply Hnext.
  - unfold closeWithError in Hstep.
    match type of Hstep with complete_all _ _ ?c0 = _ =>
      destruct (complete_all_fresh (pendingCmds c) e c0)
        as (c1 & l1 & l2 & _ & Hres & Hp1 & Hn1 & _ & _ & Hdom & _); [done|apply Hpend|] end.
    assert (c1 = c') as -> by (destruct Hres as [(Hr & _)|(Hr & _)]; congruence).
    cbn in *. split_and!.
    + rewrite Hp1. constructor.
    + rewrite Hp1. by intros p ?%elem_of_nil.
    + intros p cmd Hcmd. rewrite Hn1.
      destruct (proj1 (Hdom p) (mk_is_Some _ _ Hcmd)) as [cmd0 Hcmd0]. by eapply Hnext.
  - destruct (handleList data c) as [[c1 r]| | |] eqn:Hh; try done.
    cbn in Hstep. injection Hstep as <-.
    eapply updates_stream_inv; [|done]. apply (handleList_updates data). left. by exists r.
  - destruct (handleStatus data c) as [[c1 r]| | |] eqn:Hh; try done.
    cbn in Hstep. injection Hstep as <-.
    eapply updates_stream_inv; [|done]. apply (handleStatus_updates data). left. by exists r.
  - destruct (Next p c) as [[c1 r]| | |] eqn:Hh; try done.
    cbn in Hstep. injection Hstep as <-.
    eapply updates_stream_inv; [|done]. by eapply Next_updates.
Qed.

Lemma bind_fst_ends {B : Type} (r : result (Client * B)) c1 :
  ('(c, _) ← r; Done c) = Done c1 ∨ ('(c, _) ← r; Done c) = Parked c1 →
  (∃ b, r = Done (c1, b)) ∨ r = Parked c1.
Proof.
  destruct r as [[c b]| | |]; cbn; intros [[=]|[=]]; subst; [left; by eexists|by right].
Qed.

Lemma run_reachable ops : ∀ c c', reachable c → run ops c = Done c' → reachable c'.
Proof.
  induction ops as [|o ops IH]; intros c c' Hc; cbn [run].
  { by intros [= <-]. }
  destruct (run_op o c) as [c1| | |] eqn:Ho; try done. cbn.
  apply IH. by eapply reach_step.
Qed.

(** C8.  In every state the client can reach, [closeWithError] empties
    the pending list, closes the connection and completes the commands
    that were pending in the order they were begun: each had an open,
    empty completion channel and gets a closed one holding exactly the
    error passed to [closeWithError], the same for all.  The call gets
    through all of them and returns when no pending LIST command holds an
    entry back with its result stream full.  At the first pending command
    that does, the call is parked in the send of that entry, after it has
    fulfilled the completion signal of the command: the commands behind
    it keep their open, empty completion channel.  Nothing panics, a
    command that was not pending is not touched, and no step of the
    engine fulfils the completion signal of a pending command except
    [closeWithError] and the tagged response carrying the command's
    tag. *)
Theorem closeWithError_fails_pending_commands_in_order (c : Client) (e : option error) :
  reachable c →
  (∃ c' l1 l2,
     pendingCmds c = l1 ++ l2 ∧
     (closeWithError e c = Done c' ∧ l2 = [] ∧
        (∀ q cmd, q ∈ l1 → cmds c !! q = Some cmd → stream_stuck cmd = false) ∨
      closeWithError e c = Parked c' ∧
        ∃ l0 p cmd, l1 = l0 ++ [p] ∧ cmds c !! p = Some cmd ∧ stream_stuck cmd = true ∧
          (∀ q cmdq, q ∈ l0 → cmds c !! q = Some cmdq → stream_stuck cmdq = false)) ∧
     pendingCmds c' = [] ∧ conn_closed c' = true ∧
     (∀ p, p ∈ l1 →
        done_of c p = Some (make_chan 1) ∧
        done_of c' p = Some {| buf := [e]; cap := 1; closed := true |}) ∧
     (∀ p, p ∈ l2 → done_of c' p = Some (make_chan 1)) ∧
     (∀ p, p ∉ l1 → cmds c' !! p = cmds c !! p))
  ∧ ((∀ p cmd, p ∈ pendingCmds c → cmds c !! p = Some cmd → stream_stuck cmd = false) →
     ∃ c', closeWithError e c = Done c' ∧
           ∀ p, p ∈ pendingCmds c →
                done_of c' p = Some {| buf := [e]; cap := 1; closed := true |})
  ∧ (∀ o c1 p,
       run_op o c = Done c1 ∨ run_op o c = Parked c1 →
       p ∈ pendingCmds c → done_of c1 p ≠ done_of c p →
       (∃ e', o = OpCloseWithError e') ∨
       (∃ t e', o = OpTagged t e' ∧ tag ∘ base <$> cmds c !! p = Some t)).
Proof.
  intros (Hnd & Hpend & Hnext)%reachable_inv.
  assert (∀ p, p ∈ pendingCmds c → done_of c p = Some (make_chan 1)) as Hopen.
  { intros p Hp. destruct (Hpend _ Hp) as (cmd & Hcmd & Hd & _).
    unfold done_of. rewrite Hcmd. cbn. by rewrite Hd. }
  unfold closeWithError.
  match goal with |- context [complete_all _ _ ?c0] =>
    destruct (complete_all_fresh (pendingCmds c) e c0)
      as (c' & l1 & l2 & Hl & Hres & Hp1 & _ & Hc1 & _ & _ & _ & Hin & Hout);
      [done|apply Hpend|] end.
  cbn in Hp1, Hc1, Hout, Hres.
  split_and!.
  - exists c', l1, l2. split_and!; try done.
    + intros p Hp. split; [|by apply Hin].
      apply Hopen. rewrite Hl. apply elem_of_app. by left.
    + intros p Hp. unfold done_of. rewrite Hout.
      * apply Hopen. rewrite Hl. apply elem_of_app. by right.
      * intros Hp1'. rewrite Hl in Hnd. apply NoDup_app in Hnd as (_ & Hdisj & _).
        by apply (Hdisj p).
  - intros Hfree.
    destruct Hres as [(Hr & -> & _)|(_ & l0 & p & cmd & -> & Hp & Hst & _)].
    + exists c'. split; [done|]. intros p Hp. apply Hin.
      by rewrite Hl, app_nil_r in Hp.
    + rewrite (Hfree p cmd) in Hst; [done| |done].
      rewrite Hl. apply elem_of_app. left. apply elem_of_app. right. by left.
  - intros o c1 p Hstep Hp Hdiff.
    destruct (Hpend _ Hp) as (cmd & Hcmd & Hd & _).
    destruct o as [k|id q|t e'|q|e'|data|data|q]; cbn in Hstep.
    + exfalso. apply Hdiff. destruct Hstep as [[= <-]|[=]].
      unfold done_of, beginCommand. cbn [fst cmds].
      rewrite lookup_insert_ne; [done|]. apply Hnext in Hcmd. lia.
    + exfalso. apply Hdiff. by destruct Hstep as [[= <-]|[=]].
    + right. exists t, e'. split; [done|].
      apply bind_fst_ends in Hstep.
      unfold readResponseTagged, deletePendingCmdByTag in Hstep.
      destruct (delete_by_tag _ _ _) as [[q l]|] eqn:Hdel.
      2:{ by destruct Hstep as [[b [= <- _]]|[=]]. }
      apply delete_by_tag_spec in Hdel as (l1' & l2' & Hl' & -> & Htag).
      assert (completeCommand q e'
                {| state := state c; mailbox := mailbox c; cmdTag := cmdTag c;
                   pendingCmds := l1' ++ l2'; contReqs := contReqs c; cmds := cmds c;
                   next_cmd := next_cmd c; cancelled := cancelled c;
                   conn_closed := conn_closed c |} = Done c1 ∨
              completeCommand q e'
                {| state := state c; mailbox := mailbox c; cmdTag := cmdTag c;
                   pendingCmds := l1' ++ l2'; contReqs := contReqs c; cmds := cmds c;
                   next_cmd := next_cmd c; cancelled := cancelled c;
                   conn_closed := conn_closed c |} = Parked c1) as Hc.
      { destruct (completeCommand q e' _) as [c2| | |c2]; cbn in Hstep;
          destruct Hstep as [[b [=]]|[=]]; subst; [by left|by right]. }
      apply completeCommand_frame in Hc as (_ & _ & _ & _ & _ & Hfr). cbn in Hfr.
      destruct (decide (p = q)) as [->|Hne]; [done|].
      exfalso. apply Hdiff. unfold done_of. by rewrite Hfr.
    + exfalso. apply Hdiff. apply bind_fst_ends in Hstep as [[b Hstep]|Hstep].
      2:{ unfold wait in Hstep. by repeat case_match. }
      unfold wait in Hstep.
      destruct (cmds c !! q) as [cmd'|] eqn:Hq; [|done].
      destruct (err (base cmd')); [by injection Hstep as <-|].
      destruct (buf (done (base cmd'))) as [|v rest] eqn:Hbuf.
      { destruct (closed _); [|done]. by injection Hstep as <-. }
      injection Hstep as <- _.
      unfold done_of, set_cmd. cbn [cmds].
      rewrite lookup_insert_ne; [done|].
      intros ->. rewrite Hq in Hcmd. injection Hcmd as ->. by rewrite Hd in Hbuf.
    + left. by eexists.
    + exfalso. apply Hdiff. apply bind_fst_ends, handleList_updates in Hstep.
      unfold done_of. by rewrite !option_fmap_compose, (updates_stream_base c c1).
    + exfalso. apply Hdiff. apply bind_fst_ends, handleStatus_updates in Hstep.
      unfold done_of. by rewrite !option_fmap_compose, (updates_stream_base c c1).
    + exfalso. apply Hdiff. apply bind_fst_ends in Hstep as [[b Hstep]|Hstep].
      2:{ unfold Next in Hstep. by repeat case_match. }
      apply Next_updates in Hstep.
      unfold done_of. by rewrite !option_fmap_compose, (updates_stream_base c c1).
Qed.

Lemma closeWithError_fails_pending_commands_in_order_witness :
  let data := {| ld_Mailbox := "INBOX"; ld_Status := None |} in
  let ops := [OpBegin (ListCommand true); OpBegin otherCommand] ++
             replicate 65 (OpList data) in
  let e := Some "unexpected EOF" in
  ∃ c c',
    run ops New = Done c ∧ pendingCmds c = [1%positive; 2%positive] ∧
    closeWithError e c = Parked c' ∧ pendingCmds c' = [] ∧
    done_of c' 1%positive = Some {| buf := [e]; cap := 1; closed := true |} ∧
    done_of c' 2%positive = Some (make_chan 1).
Proof.
  intros data ops e.
  destruct (run ops New) as [c| | |] eqn:Hrun; [|by vm_compute in Hrun..].
  pose proof (run_reachable ops New c reach_New Hrun) as Hreach.
  assert (pendingCmds c = [1%positive; 2%positive] ∧
          stream_stuck <$> cmds c !! 1%positive = Some true) as (Hpend & Hst1).
  { vm_compute in Hrun. injection Hrun as <-. by vm_compute. }
  clearbody ops e. clear data.
  destruct (closeWithError_fails_pending_commands_in_order c e Hreach)
    as [(c' & l1 & l2 & Hl & Hres & Hp' & _ & Hin & Hout & _) _].
  rewrite Hpend in Hl.
  destruct (cmds c !! 1%positive) as [cmd1|] eqn:Hc1; [|discriminate Hst1].
  injection Hst1 as Hst1.
  destruct Hres as [(_ & -> & Hfree)|(Hr & l0 & p & cmd & -> & Hp & Hst & Hfree)].
  { destruct l1 as [|x l1]; [discriminate Hl|]. injection Hl as <- _.
    rewrite (Hfree 1%positive cmd1) in Hst1; [discriminate Hst1|by left|exact Hc1]. }
  destruct l0 as [|x l0].
  - injection Hl as <- <-. exists c, c'. split_and!; [done..| |].
    + apply Hin. by left.
    + apply Hout. by left.
  - injection Hl as <- _.
    rewrite (Hfree 1%positive cmd1) in Hst1; [discriminate Hst1|by left|exact Hc1].
Defined.

(** C8, as the claim states it, fails: a LIST command with RETURN
    (STATUS) whose caller has not read its 64 buffered entries holds one
    more back; [closeWithError] fulfils the completion signal of that
    command and is parked in the send of the entry, and the command begun
    after it keeps its open, empty completion channel. *)
Lemma closeWithError_leaves_commands_behind_a_stuck_LIST :
  ¬ (∀ (c : Client) (e : option error),
       reachable c →
       ∃ c', (closeWithError e c = Done c' ∨ closeWithError e c = Parked c') ∧
             pendingCmds c' = [] ∧
             ∀ p, p ∈ pendingCmds c →
                  done_of c' p = Some {| buf := [e]; cap := 1; closed := true |}).
Proof.
  intros H.
  set (data := {| ld_Mailbox := "INBOX"; ld_Status := None |}).
  set (ops := [OpBegin (ListCommand true); OpBegin otherCommand] ++
              replicate 65 (OpList data)).
  set (e := Some "unexpected EOF" : option error).
  destruct (run ops New) as [c| | |] eqn:Hrun; [|by vm_compute in Hrun..].
  pose proof (run_reachable ops New c reach_New Hrun) as Hreach.
  assert (2%positive ∈ pendingCmds c ∧
          ∃ c1, closeWithError e c = Parked c1 ∧
                done_of c1 2%positive = Some (make_chan 1)) as (Hp & c1 & Hc1 & Hd1).
  { vm_compute in Hrun. injection Hrun as <-. split.
    - apply (bool_decide_unpack _). by vm_compute.
    - eexists. split; vm_compute; reflexivity. }
  destruct (H c e Hreach) as (c' & Hres & _ & Hall).
  specialize (Hall _ Hp).
  destruct Hres as [Hres|Hres]; rewrite Hc1 in Hres; [done|].
  injection Hres as <-. rewrite Hd1 in Hall. done.
Qed.

End Client.

(** * Further properties of the tracker *)

Section TrackerOrder.

Lemma decode_replay_lt pend : ∀ m1 m2 n1 n2,
  m1 < m2 →
  decode_replay pend m1 = Some n1 → decode_replay pend m2 = Some n2 → n1 < n2.
Proof.
  induction pend as [|v pend IH]; intros m1 m2 n1 n2 Hlt; cbn [decode_replay].
  { by intros [= <-] [= <-]. }
  destruct v; try (by apply IH).
  repeat case_decide; try done; try lia; apply IH; lia.
Qed.

Lemma decode_replay_bounds pend : ∀ m n,
  Forall Update_typed pend → 0 < m →
  decode_replay pend m = Some n → 0 < n ≤ m.
Proof.
  induction pend as [|v pend IH]; intros m n Hp Hm; cbn [decode_replay].
  { intros [= <-]. lia. }
  apply Forall_cons in Hp as [Hv Hp].
  destruct v; cbn in Hv; try (by apply IH).
  repeat case_decide; try done; intros Hd; apply IH in Hd; (done || lia).
Qed.

Lemma DecodeSeqNum_replay t st m n :
  Forall update_typed (queue st) → is_uint32 m →
  DecodeSeqNum t st m = Ok n → n ≠ 0 →
  decode_replay (pending (queue st)) m = Some n ∧ 0 < m ∧ n ≤ t_numMessages t.
Proof.
  intros Hq Hm. unfold DecodeSeqNum.
  case_decide; [by intros [= <-]|].
  rewrite decode_loop_replay by (done || u32).
  destruct (decode_replay _ _) as [r|]; [|by intros [= <-]].
  destruct (mailbox st); [|done].
  case_decide; intros [= <-]; [done|]. intros _. split_and!; (done || u32).
Qed.

(** X1.  Decoding keeps the order of the messages: of two client numbers
    that both decode to a message, the smaller decodes to the smaller
    server number, so no two client numbers decode to the same message. *)
Theorem DecodeSeqNum_order_preserving
    (t : MailboxTracker) (st : SessionTracker) (m1 m2 n1 n2 : Z) :
  Forall update_typed (queue st) →
  is_uint32 m1 → is_uint32 m2 →
  DecodeSeqNum t st m1 = Ok n1 → n1 ≠ 0 →
  DecodeSeqNum t st m2 = Ok n2 → n2 ≠ 0 →
  m1 < m2 → n1 < n2.
Proof.
  intros Hq H1 H2 Hd1 Hn1 Hd2 Hn2 Hlt.
  apply DecodeSeqNum_replay in Hd1 as (Hd1 & _); [|done..].
  apply DecodeSeqNum_replay in Hd2 as (Hd2 & _); [|done..].
  by eapply decode_replay_lt.
Qed.

Lemma DecodeSeqNum_order_preserving_witness :
  let t := {| t_numMessages := 40; t_sessions := ∅ |} in
  let st := {| mailbox := Some (); queue := [update_expunge 20; update_expunge 5];
               updates := None |} in
  DecodeSeqNum t st 10 = Ok 9 ∧ DecodeSeqNum t st 30 = Ok 28 ∧ 9 < 28.
Proof.
  intros t st. split_and!; [done..|].
  apply (DecodeSeqNum_order_preserving t st 10 30 9 28); try done; try u32.
  repeat constructor; cbn; u32.
Defined.





(** X3.  Encoding keeps the order of the messages: of two server numbers
    that the observer can both see, the smaller encodes to the smaller
    client number. *)
Theorem EncodeSeqNum_order_preserving
    (t : MailboxTracker) (st : SessionTracker) (n1 n2 m1 m2 : Z) :
  Forall update_wf (queue st) →
  is_uint32 n1 → is_uint32 n2 →
  EncodeSeqNum t st n1 = Ok m1 → m1 ≠ 0 →
  EncodeSeqNum t st n2 = Ok m2 → m2 ≠ 0 →
  n1 < n2 → m1 < m2.
Proof.
  intros Hq H1 H2 He1 Hm1 He2 Hm2 Hlt.
  assert (Forall update_typed (queue st)) as Hty
    by (eapply Forall_impl; [done|apply update_wf_typed]).
  assert (∀ n m, is_uint32 n → EncodeSeqNum t st n = Ok m → m ≠ 0 → is_uint32 m) as H32.
  { intros n m Hn He Hm. unfold EncodeSeqNum in He.
    case_decide; [by simplify_eq|]. destruct (mailbox st); [|done].
    case_decide; [by simplify_eq|].
    rewrite encode_loop_walk in He by (by apply Forall_reverse).
    destruct (encode_walk _ _) eqn:Hw; [|by simplify_eq]. simplify_eq.
    by eapply encode_walk_uint32. }
  assert (∀ n m, EncodeSeqNum t st n = Ok m → m ≠ 0 → n ≠ 0) as Hnz.
  { intros n m He Hm ->. unfold EncodeSeqNum in He. case_decide; by simplify_eq. }
  pose proof (Decode_Encode _ _ _ _ Hq H1 He1 Hm1) as Hd1.
  pose proof (Decode_Encode _ _ _ _ Hq H2 He2 Hm2) as Hd2.
  apply DecodeSeqNum_replay in Hd1 as (Hd1 & _); [|by eauto..].
  apply DecodeSeqNum_replay in Hd2 as (Hd2 & _); [|by eauto..].
  destruct (decide (m1 < m2)) as [|Hge]; [done|exfalso].
  destruct (decide (m1 = m2)) as [->|Hne]; [rewrite Hd1 in Hd2; simplify_eq; lia|].
  assert (n2 < n1); [|lia].
  eapply (decode_replay_lt _ m2 m1); [lia|done..].
Qed.

Lemma EncodeSeqNum_order_preserving_witness :
  let t := {| t_numMessages := 40; t_sessions := ∅ |} in
  let st := {| mailbox := Some (); queue := [update_expunge 20; update_expunge 5];
               updates := None |} in
  EncodeSeqNum t st 9 = Ok 10 ∧ EncodeSeqNum t st 28 = Ok 30 ∧ 10 < 30.
Proof.
  intros t st. split_and!; [done..|].
  apply (EncodeSeqNum_order_preserving t st 9 28 10 30); try done; try u32.
  apply Forall_cons. split; [left; exists 20; split; [done|u32]|].
  apply Forall_cons. split; [left; exists 5; split; [done|u32]|].
  constructor.
Defined.

End TrackerOrder.

Section TrackerLifecycle.

Lemma encode_walk_lower pend : ∀ n m,
  Forall Update_typed pend → is_uint32 n →
  encode_walk pend n = Some m → m = 0 ∨ n ≤ m.
Proof.
  induction pend as [|v pend IH]; intros n m Hp Hn; cbn [encode_walk].
  { intros [= <-]. by right. }
  apply Forall_cons in Hp as [Hv Hp].
  destruct v; cbn in Hv; repeat case_decide; try done; try (by apply IH).
  destruct (decide (n = uint32_modulus - 1)) as [->|].
  - rewrite succ32_max. intros ?%encode_walk_zero; [by left|done].
  - rewrite succ32_below by u32. intros Hw.
    apply IH in Hw as [?|?]; [by left|right; lia|done|u32].
Qed.

(** X4.  The translations stay within bounds: a client number never
    decodes to a larger number, nor to one above the canonical count, and
    a server number the observer can see never encodes to a smaller
    one. *)
Theorem SeqNum_bounds (t : MailboxTracker) (st : SessionTracker) (k r : Z) :
  Forall update_wf (queue st) →
  is_uint32 k →
  (DecodeSeqNum t st k = Ok r → r ≤ k ∧ r ≤ Z.max 0 (t_numMessages t))
  ∧ (EncodeSeqNum t st k = Ok r → r = 0 ∨ k ≤ r).
Proof.
  intros Hq Hk.
  assert (Forall update_typed (queue st)) as Hty
    by (eapply Forall_impl; [done|apply update_wf_typed]).
  split.
  - intros Hd. destruct (decide (r = 0)) as [->|Hr]; [u32|].
    apply DecodeSeqNum_replay in Hd as (Hd & Hpos & Hle); [|done..].
    apply decode_replay_bounds in Hd; [lia|by apply pending_typed|done].
  - unfold EncodeSeqNum. case_decide; [intros [= <-]; by left|].
    destruct (mailbox st); [|done]. case_decide; [intros [= <-]; by left|].
    rewrite encode_loop_walk, pending_reverse by (by apply Forall_reverse).
    destruct (encode_walk _ _) as [m|] eqn:Hw; intros [= <-]; [|by left].
    eapply encode_walk_lower; [|done..]. apply Forall_reverse. by apply pending_typed.
Qed.

Lemma SeqNum_bounds_witness :
  let t := {| t_numMessages := 40; t_sessions := ∅ |} in
  let st := {| mailbox := Some (); queue := [update_expunge 20; update_expunge 5];
               updates := None |} in
  DecodeSeqNum t st 30 = Ok 28 ∧ 28 ≤ 30 ∧ 28 ≤ 40.
Proof.
  intros t st. split; [done|].
  destruct (SeqNum_bounds t st 30 28) as [H _].
  - apply Forall_cons. split; [left; exists 20; split; [done|u32]|].
    apply Forall_cons. split; [left; exists 5; split; [done|u32]|].
    constructor.
  - u32.
  - destruct (H eq_refl) as [? ?]. split; [done|]. cbn in *. lia.
Defined.

(** X5.  Once an observer has polled with expunges allowed, its view is
    the server's: every number from 1 to the canonical count encodes and
    decodes to itself, and every number above the count to 0. *)
Theorem SeqNum_identity_after_full_Poll
    (w w' : World) (p : SessionPtr) (st : SessionTracker) (n : Z) :
  heap w !! p = Some st → mailbox st = Some () →
  run_op (OpPoll p true) w = Ok w' →
  0 < n →
  EncodeSeqNum_at p n w' = Ok (if decide (n ≤ t_numMessages (tracker w)) then n else 0)
  ∧ DecodeSeqNum_at p n w' = Ok (if decide (n ≤ t_numMessages (tracker w)) then n else 0).
Proof.
  intros Hst Hm Hrun Hn. cbn in Hrun. rewrite Hst in Hrun. injection Hrun as <-.
  unfold EncodeSeqNum_at, DecodeSeqNum_at. cbn. rewrite lookup_insert_eq.
  unfold EncodeSeqNum, DecodeSeqNum. cbn. rewrite Hm.
  rewrite !(decide_False (P := n = 0)) by lia.
  split; repeat case_decide; (done || lia).
Qed.

Lemma SeqNum_identity_after_full_Poll_witness :
  let st := {| mailbox := Some (); queue := [update_expunge 20; update_numMessages 45];
               updates := None |} in
  let w := {| tracker := {| t_numMessages := 45; t_sessions := {[ 1%positive ]} |};
              heap := {[ 1%positive := st ]}; next := 2%positive |} in
  ∃ w', EncodeSeqNum_at 1%positive 45 w = Ok 0 ∧
        run_op (OpPoll 1%positive true) w = Ok w' ∧
        EncodeSeqNum_at 1%positive 45 w' = Ok 45 ∧
        DecodeSeqNum_at 1%positive 45 w' = Ok 45.
Proof.
  intros st w.
  destruct (run_op (OpPoll 1%positive true) w) as [w'|] eqn:Hrun; [|by vm_compute in Hrun].
  exists w'. split; [by vm_compute|]. split; [done|].
  by apply (SeqNum_identity_after_full_Poll w w' 1%positive st 45).
Defined.

Lemma Close_Ok p w w' :
  Close p w = Ok w' →
  ∃ st, heap w !! p = Some st ∧ mailbox st = Some () ∧
        heap w' = <[ p := set_mailbox st None ]> (heap w) ∧
        t_sessions (tracker w') = t_sessions (tracker w) ∖ {[ p ]} ∧
        t_numMessages (tracker w') = t_numMessages (tracker w) ∧
        next w' = next w.
Proof.
  unfold Close. destruct (heap w !! p) as [st|]; [|done].
  destruct (mailbox st) as [[]|] eqn:Hm; [|done]. intros [= <-]. by exists st.
Qed.

(** A session that is not attached is left alone by everything but its
    own [Poll]. *)
Lemma detached_stays ops : ∀ (w w' : World) (p : SessionPtr) (st : SessionTracker),
  heap w !! p = Some st → mailbox st = None →
  (p < next w)%positive → p ∉ t_sessions (tracker w) →
  (∀ allow, OpPoll p allow ∉ ops) →
  run ops w = Ok w' →
  heap w' !! p = Some st ∧ p ∉ t_sessions (tracker w').
Proof.
  induction ops as [|o ops IH]; intros w w' p st Hst Hmb Hlt Hnin Hnp; cbn [run].
  { by intros [= <-]. }
  destruct (run_op o w) as [w1|] eqn:Ho; [|done]. cbn. intros Hrun.
  assert (heap w1 !! p = Some st ∧ (p < next w1)%positive ∧ p ∉ t_sessions (tracker w1))
    as (Hst1 & Hlt1 & Hnin1).
  { destruct o as [|q|m|q allow]; cbn in Ho.
    - injection Ho as <-. cbn. rewrite lookup_insert_ne by lia.
      split_and!; [done|lia|].
      intros [->%elem_of_singleton|?]%elem_of_union; [lia|done].
    - apply Close_Ok in Ho as (st' & Hq & Hmq & -> & -> & _ & ->).
      assert (q ≠ p).
      { intros ->. pose proof (eq_trans (eq_sym Hst) Hq) as Heq.
        injection Heq as <-. congruence. }
      rewrite lookup_insert_ne by done. split_and!; [done..|set_solver].
    - apply notify_queueUpdate, queueUpdate_Ok in Ho as (_ & _ & Hheap & -> & -> & _).
      rewrite Hheap, broadcast_lookup, Hst. cbn.
      by rewrite decide_False.
    - destruct (heap w !! q) eqn:Hq; [|done]. injection Ho as <-. cbn.
      rewrite lookup_insert_ne; [done|]. intros ->. apply (Hnp allow). by left. }
  eapply IH; [done..| |done].
  intros allow Hin. apply (Hnp allow). by right.
Qed.

(** X6.  Detaching works: after [Close] the session is no longer attached
    and whatever is notified, attached or closed afterwards, nothing more
    reaches its queue. *)
Theorem Close_detaches
    (ops : list op) (w w1 w2 : World) (p : SessionPtr) (st : SessionTracker) :
  (p < next w)%positive →
  heap w !! p = Some st →
  Close p w = Ok w1 →
  (∀ allow, OpPoll p allow ∉ ops) →
  run ops w1 = Ok w2 →
  (p ∉ t_sessions (tracker w2)) ∧
  ∃ st2, heap w2 !! p = Some st2 ∧ queue st2 = queue st ∧ mailbox st2 = None.
Proof.
  intros Hlt Hst Hc Hnp Hrun.
  apply Close_Ok in Hc as (st' & Hst' & _ & Hheap & Hsess & _ & Hnext).
  rewrite Hst in Hst'. injection Hst' as <-.
  destruct (detached_stays ops w1 w2 p (set_mailbox st None)) as [H1 H2]; try done.
  - by rewrite Hheap, lookup_insert_eq.
  - by rewrite Hnext.
  - rewrite Hsess. set_solver.
  - split; [done|]. by eexists.
Qed.

Lemma Close_detaches_witness :
  ∃ w w1 w2 st2,
    run [OpNewSession; OpNewSession; OpNotify (MNumMessages 43)] (NewMailboxTracker 42) = Ok w ∧
    Close 1%positive w = Ok w1 ∧
    run [OpNotify (MExpunge 20); OpNewSession; OpNotify (MNumMessages 50)] w1 = Ok w2 ∧
    heap w2 !! 1%positive = Some st2 ∧ queue st2 = [update_numMessages 43].
Proof.
  destruct (run [OpNewSession; OpNewSession; OpNotify (MNumMessages 43)]
              (NewMailboxTracker 42)) as [w|] eqn:Hw; [|by vm_compute in Hw].
  destruct (Close 1%positive w) as [w1|] eqn:Hw1;
    [|vm_compute in Hw; injection Hw as <-; by vm_compute in Hw1].
  destruct (run [OpNotify (MExpunge 20); OpNewSession; OpNotify (MNumMessages 50)] w1)
    as [w2|] eqn:Hw2;
    [|vm_compute in Hw; injection Hw as <-; vm_compute in Hw1; injection Hw1 as <-;
      by vm_compute in Hw2].
  destruct (Close_detaches
              [OpNotify (MExpunge 20); OpNewSession; OpNotify (MNumMessages 50)]
              w w1 w2 1%positive
              {| mailbox := Some (); queue := [update_numMessages 43]; updates := None |})
    as (_ & st2 & Hst2 & Hq2 & _); try done.
  - vm_compute in Hw. by injection Hw as <-.
  - vm_compute in Hw. by injection Hw as <-.
  - intros allow Hin. repeat (apply elem_of_cons in Hin as [?|Hin]; [done|]).
    by apply elem_of_nil in Hin.
  - by exists w, w1, w2, st2.
Defined.

(** X7.  A closed session tracker must not be used: a second [Close] and
    [EncodeSeqNum] of any non-zero number panic on the nil mailbox, and
    [DecodeSeqNum] of a non-zero number panics unless the replay of the
    queue already answered 0. *)
Theorem closed_tracker_panics (w w1 : World) (p : SessionPtr) (n : Z) :
  Close p w = Ok w1 → n ≠ 0 →
  Close p w1 = Panic "nil pointer dereference"
  ∧ EncodeSeqNum_at p n w1 = Panic "nil pointer dereference"
  ∧ (DecodeSeqNum_at p n w1 = Panic "nil pointer dereference"
     ∨ DecodeSeqNum_at p n w1 = Ok 0).
Proof.
  intros (st & Hst & _ & Hheap & _)%Close_Ok Hn.
  unfold Close, EncodeSeqNum_at, DecodeSeqNum_at, EncodeSeqNum, DecodeSeqNum.
  rewrite Hheap, lookup_insert_eq. cbn.
  rewrite !(decide_False (P := n = 0)) by done.
  split_and!; [done..|]. destruct (decode_loop _ _); [by left|by right].
Qed.

Lemma closed_tracker_panics_witness :
  ∃ w1, Close 1%positive (NewSession (NewMailboxTracker 42)).1 = Ok w1 ∧
        EncodeSeqNum_at 1%positive 7 w1 = Panic "nil pointer dereference".
Proof.
  destruct (Close 1%positive (NewSession (NewMailboxTracker 42)).1) as [w1|] eqn:Hc;
    [|by vm_compute in Hc].
  exists w1. split; [done|].
  by destruct (closed_tracker_panics _ w1 1%positive 7 Hc) as (_ & ? & _).
Defined.

Lemma run_notify_queue ms : ∀ (w w' : World) (p : SessionPtr) (st : SessionTracker),
  run (OpNotify <$> ms) w = Ok w' →
  heap w !! p = Some st →
  ∃ st', heap w' !! p = Some st' ∧ mailbox st' = mailbox st ∧
    t_sessions (tracker w') = t_sessions (tracker w) ∧
    queue st' =
      if decide (p ∈ t_sessions (tracker w))
      then queue st ++
           (mutation_record <$> filter (λ m, mutation_source m ≠ Some p) ms)
      else queue st.
Proof.
  induction ms as [|m ms IH]; intros w w' p st; cbn [fmap list_fmap run].
  { intros [= <-] Hst. exists st. split_and!; try done.
    case_decide; [|done]. by rewrite app_nil_r. }
  destruct (run_op (OpNotify m) w) as [w1|] eqn:Ho; [|done]. cbn in Ho |- *.
  intros Hrun Hst.
  destruct (notify_queue _ _ _ _ _ Ho Hst) as (st1 & Hst1 & Hmb1 & Hq1).
  apply notify_queueUpdate, queueUpdate_Ok in Ho as (_ & _ & _ & Hs1 & _).
  destruct (IH _ _ _ _ Hrun Hst1) as (st' & Hst' & Hmb' & Hs' & Hq').
  exists st'. split_and!; [done|congruence|congruence|].
  rewrite Hs1 in Hq'. rewrite Hq', Hq1.
  repeat case_decide; try tauto; try done.
  cbn. by rewrite <- app_assoc.
Qed.

(** X8.  A pending queue is the history in order: for an attached session,
    after a run of notifications its queue is the queue it had followed by
    the record of every notification that did not name it as source, one
    each, in the order they were made. *)
Theorem queue_is_notification_history
    (ms : list mutation) (w w' : World) (p : SessionPtr) (st : SessionTracker) :
  p ∈ t_sessions (tracker w) →
  heap w !! p = Some st →
  run (OpNotify <$> ms) w = Ok w' →
  ∃ st', heap w' !! p = Some st' ∧
    queue st' =
      queue st ++ (mutation_record <$> filter (λ m, mutation_source m ≠ Some p) ms).
Proof.
  intros Hp Hst Hrun.
  destruct (run_notify_queue ms w w' p st Hrun Hst) as (st' & Hst' & _ & _ & Hq).
  exists st'. split; [done|]. by rewrite Hq, decide_True.
Qed.

Lemma queue_is_notification_history_witness :
  let ms := [MNumMessages 43; MMessageFlags 3 30 [] (Some 1%positive);
             MExpunge 20; MMessageFlags 4 40 [] None] in
  ∃ w' st',
    run (OpNotify <$> ms) (NewSession (NewMailboxTracker 42)).1 = Ok w' ∧
    heap w' !! 1%positive = Some st' ∧
    queue st' = [update_numMessages 43; update_expunge 20;
                 update_fetch {| seqNum := 4; uid := 40; flags := [] |}].
Proof.
  intros ms.
  destruct (run (OpNotify <$> ms) (NewSession (NewMailboxTracker 42)).1) as [w'|] eqn:Hrun;
    [|by vm_compute in Hrun].
  destruct (queue_is_notification_history ms (NewSession (NewMailboxTracker 42)).1 w'
              1%positive {| mailbox := Some (); queue := []; updates := None |})
    as (st' & Hst' & Hq); [by apply (bool_decide_unpack _); vm_compute|done|done|].
  exists w', st'. split_and!; [done|done|]. rewrite Hq. reflexivity.
Defined.

End TrackerLifecycle.

(** * Further properties of [Poll] *)

Section PollDelivery.

Variable io_err : list Response → option error.

(** One dequeued record is written as its response, or the write fails
    and leaves the connection as it was. *)
Lemma Poll_write1_cases wr u c :
  (∃ v, view u = Some v ∧ (allowExpunge wr = true ∨ expunge u = 0) ∧
        Poll_write1 io_err wr u c =
          ({| state := state c; session := session c;
              wire := wire c ++ [response_of v] |}, Nil))
  ∨ (∃ r, r ≠ Nil ∧ Poll_write1 io_err wr u c = (c, r)).
Proof.
  unfold Poll_write1, view, WriteExpunge, WriteNumMessages, WriteMailboxFlags,
    WriteMessageFlags, conn_write.
  repeat case_decide; repeat case_match; simplify_eq;
    first [ right; eexists; split; [|reflexivity]; done
          | left; eexists; split_and!; [done|by (left + right)|];
            cbn; try done; by case_decide ].
Qed.

(** The delivery loop writes a prefix of the dequeued records; it returns
    nil exactly when the prefix is all of them. *)
Lemma Poll_write_split wr updates : ∀ c c' r,
  Poll_write io_err wr updates c = (c', r) →
  ∃ sent rest,
    updates = sent ++ rest ∧
    wire c' = wire c ++ (response_of <$> pending sent) ∧
    length (pending sent) = length sent ∧
    state c' = state c ∧ session c' = session c ∧
    (allowExpunge wr = false → Forall (λ u, expunge u = 0) sent) ∧
    (r = Nil ↔ rest = []).
Proof.
  induction updates as [|u updates IH]; intros c c' r; cbn [Poll_write].
  { intros [= <- <-]. exists [], []. cbn. by rewrite app_nil_r. }
  destruct (Poll_write1_cases wr u c) as [(v & Hv & Ha & ->)|(r1 & Hr1 & ->)].
  - intros (sent & rest & -> & Hw & Hlen & Hs & Hse & Hexp & Hr)%IH.
    exists (u :: sent), rest. cbn in *. unfold pending in *. cbn [omap list_omap].
    rewrite Hv. cbn. rewrite Hw, <- app_assoc, Hlen. split_and!; try done.
    intros Hwr. constructor; [|by apply Hexp]. destruct Ha; congruence.
  - destruct r1; [done| |]; intros [= <- <-]; exists [], (u :: updates); cbn;
      rewrite app_nil_r; split_and!; try done.
Qed.

Lemma pending_no_expunge l n :
  Forall (λ u, expunge u = 0) l → RespExpunge n ∉ response_of <$> pending l.
Proof.
  intros Hl (v & Hv & Hin)%list_elem_of_fmap.
  apply list_elem_of_omap in Hin as (u & Hu & Hview).
  rewrite Forall_forall in Hl.
  pose proof (view_no_expunge u v (Hl u Hu) Hview) as Hne.
  destruct v; try done. by destruct (Hne position).
Qed.

(** X9.  No EXPUNGE where none is allowed: when [Poll] is called with
    expunges not allowed, or with a writer that does not allow them,
    whatever it writes and however it returns, none of the responses it
    writes is an EXPUNGE. *)
Theorem Poll_writes_no_expunge_unless_allowed
    (wr : UpdateWriter) (allow : bool) (st : SessionTracker) (c : Conn) :
  allow = false ∨ allowExpunge wr = false →
  ∃ written,
    wire (Poll io_err wr allow st c).1.2 = wire c ++ written ∧
    ∀ n, RespExpunge n ∉ written.
Proof.
  intros Hno. unfold Poll.
  destruct (Poll_dequeue_spec allow st) as (pre & post & Hq & -> & Hsplit).
  destruct (Poll_write io_err wr pre c) as [c' r] eqn:Hw. cbn.
  apply Poll_write_split in Hw as (sent & rest & -> & Hw & _ & _ & _ & Hexp & _).
  exists (response_of <$> pending sent). split; [done|].
  intros n. apply pending_no_expunge.
  destruct Hno as [-> | Hwr]; [|by apply Hexp].
  destruct Hsplit as [Hpre _]. by apply Forall_app in Hpre as [? _].
Qed.

(** X10.  A failed delivery loses records: when [Poll] returns an error or
    panics, the queue has already been cut, so the record whose write
    failed and the dequeued records behind it are neither on the wire nor
    in the queue any more; the records before it were written, in
    order. *)
Theorem Poll_failure_drops_dequeued
    (wr : UpdateWriter) (allow : bool) (st st' : SessionTracker) (c c' : Conn) (r : ret) :
  Poll io_err wr allow st c = (st', c', r) →
  r ≠ Nil →
  ∃ sent lost post,
    queue st = sent ++ lost ++ post ∧
    lost ≠ [] ∧
    queue st' = post ∧
    wire c' = wire c ++ (response_of <$> pending sent) ∧
    length (pending sent) = length sent ∧
    (if allow then post = []
     else match post with [] => True | u :: _ => expunge u ≠ 0 end).
Proof.
  unfold Poll. intros HP Hr.
  destruct (Poll_dequeue_spec allow st) as (pre & post & Hq & Hd & Hsplit).
  rewrite Hd in HP.
  destruct (Poll_write io_err wr pre c) as [c1 r1] eqn:Hw. injection HP as <- <- <-.
  apply Poll_write_split in Hw as (sent & rest & -> & Hw & Hlen & _ & _ & _ & Hnil).
  exists sent, rest, post. rewrite <- app_assoc in Hq. split_and!; try done.
  - intros ->. apply Hr. by apply Hnil.
  - destruct allow; [done|]. by destruct Hsplit.
Qed.

Lemma Poll_write_app wr l1 l2 c :
  Poll_write io_err wr (l1 ++ l2) c =
    match Poll_write io_err wr l1 c with
    | (c', Nil) => Poll_write io_err wr l2 c'
    | (c', r) => (c', r)
    end.
Proof.
  revert c. induction l1 as [|u l1 IH]; intros c; cbn [app Poll_write]; [done|].
  destruct (Poll_write1 io_err wr u c) as [c1 []]; by rewrite ?IH.
Qed.

Lemma Poll_write_no_expunge wr1 wr2 l c :
  Forall (λ u, expunge u = 0) l →
  Poll_write io_err wr1 l c = Poll_write io_err wr2 l c.
Proof.
  revert c. induction l as [|u l IH]; intros c Hl; [done|].
  apply Forall_cons in Hl as [Hu Hl]. cbn [Poll_write].
  assert (Poll_write1 io_err wr1 u c = Poll_write1 io_err wr2 u c) as ->.
  { unfold Poll_write1. rewrite !(decide_False (P := expunge u ≠ 0)) by (intros ?; congruence).
    done. }
  destruct (Poll_write1 io_err wr2 u c) as [c1 []]; by rewrite ?IH.
Qed.

(** X11.  Nothing is delivered twice or skipped across polls: after a
    poll without expunges that returned nil, a poll with expunges ends in
    the very state, on the wire and in the queue, in which a single poll
    with expunges from the start would have ended. *)
Theorem Poll_partial_then_full
    (wr1 wr2 : UpdateWriter) (st st1 : SessionTracker) (c c1 : Conn) :
  Poll io_err wr1 false st c = (st1, c1, Nil) →
  Poll io_err wr2 true st1 c1 = Poll io_err wr2 true st c.
Proof.
  unfold Poll. intros HP.
  destruct (Poll_dequeue_spec false st) as (pre & post & Hq & Hd & Hpre & _).
  rewrite Hd in HP.
  destruct (Poll_write io_err wr1 pre c) as [c' r] eqn:Hw. injection HP as <- <- ->.
  cbn [Poll_dequeue set_queue queue]. rewrite Hq, Poll_write_app.
  rewrite (Poll_write_no_expunge wr2 wr1 pre c Hpre), Hw.
  by destruct (Poll_write io_err wr2 post c').
Qed.

End PollDelivery.

Lemma Poll_writes_no_expunge_unless_allowed_witness :
  let st := {| mailbox := Some ();
               queue := [update_numMessages 43; update_expunge 20];
               updates := None |} in
  let c := {| state := ConnStateSelected; session := {| us_mailbox := Some 1%positive |};
              wire := [] |} in
  ∃ written,
    wire (Poll (λ _, None) {| allowExpunge := false |} false st c).1.2 = wire c ++ written ∧
    ∀ n, RespExpunge n ∉ written.
Proof.
  intros st c.
  apply (Poll_writes_no_expunge_unless_allowed (λ _, None) {| allowExpunge := false |}
           false st c).
  by left.
Defined.

Lemma Poll_failure_drops_dequeued_witness :
  let io_err : list Response → option error :=
    λ l, if decide (length l = 1%nat) then Some "broken pipe" else None in
  let st := {| mailbox := Some ();
               queue := [update_numMessages 43; update_numMessages 44;
                         update_numMessages 45];
               updates := None |} in
  let c := {| state := ConnStateSelected; session := {| us_mailbox := Some 1%positive |};
              wire := [] |} in
  ∃ st' c' sent lost,
    Poll io_err {| allowExpunge := true |} true st c = (st', c', Err "broken pipe") ∧
    queue st = sent ++ lost ∧ lost ≠ [] ∧ queue st' = [] ∧
    wire c' = response_of <$> pending sent.
Proof.
  intros io_err st c.
  destruct (Poll io_err {| allowExpunge := true |} true st c) as [[st' c'] r] eqn:HP.
  assert (r = Err "broken pipe") as -> by (vm_compute in HP; by injection HP as <- <- <-).
  destruct (Poll_failure_drops_dequeued io_err {| allowExpunge := true |} true st st' c c'
              (Err "broken pipe") HP)
    as (sent & lost & post & Hq & Hl & Hq' & Hw & _ & ->); [done|].
  exists st', c', sent, lost. rewrite app_nil_r in Hq. by split_and!.
Defined.

Lemma Poll_partial_then_full_witness :
  let io_err : list Response → option error := λ _, None in
  let st := {| mailbox := Some ();
               queue := [update_numMessages 43; update_expunge 20; update_numMessages 44];
               updates := None |} in
  let c := {| state := ConnStateSelected; session := {| us_mailbox := Some 1%positive |};
              wire := [] |} in
  ∃ st1 c1,
    Poll io_err {| allowExpunge := false |} false st c = (st1, c1, Nil) ∧
    wire c1 = [RespExists 43] ∧
    Poll io_err {| allowExpunge := true |} true st1 c1 =
    Poll io_err {| allowExpunge := true |} true st c.
Proof.
  intros io_err st c.
  destruct (Poll io_err {| allowExpunge := false |} false st c) as [[st1 c1] r] eqn:HP.
  assert (r = Nil ∧ wire c1 = [RespExists 43]) as [-> Hw]
    by (vm_compute in HP; by injection HP as <- <- <-).
  exists st1, c1. split_and!; [done..|].
  by apply (Poll_partial_then_full io_err {| allowExpunge := false |}
              {| allowExpunge := true |} st st1 c c1).
Defined.

(** * Further properties of the command loop *)

Section ServeLoop.

Variable io_err : list Response → option error.
Variable handle : string → string → Conn * World → (Conn * World) * handler_error.

Lemma conn_write_cases r c :
  (∃ e, io_err (wire c) = Some e ∧ conn_write io_err r c = (c, Err e)) ∨
  (io_err (wire c) = None ∧
   conn_write io_err r c =
     ({| state := state c; session := session c; wire := wire c ++ [r] |}, Nil)).
Proof. unfold conn_write. destruct (io_err (wire c)); [left; by eexists|by right]. Qed.

(** X12.  An unknown command is answered without any handler: on a
    transport that takes every write, the tagged BAD is written and the
    store is untouched; before authentication the connection moreover goes
    to the logout state and the untagged BYE follows the BAD, after
    authentication the state stays as it is. *)
Theorem readCommand_unknown_command (tag name : string) (cw : Conn * World) :
  name ∉ known_commands →
  (∀ l, io_err l = None) →
  readCommand io_err handle tag name cw =
    (({| state := if decide (state cw.1 = ConnStateNotAuthenticated)
                  then ConnStateLogout else state cw.1;
         session := session cw.1;
         wire := wire cw.1 ++
                 RespStatus tag unknownBad ::
                 (if decide (state cw.1 = ConnStateNotAuthenticated)
                  then [RespStatus "" unknownBye] else []) |}, cw.2), Nil).
Proof.
  intros Hn Hio. destruct cw as [c w]. unfold readCommand. cbn [fst snd].
  rewrite (bool_decide_eq_false_2 _ (λ H, Hn H)).
  unfold writeStatusResp, conn_write, set_state.
  case_decide as Hs.
  - rewrite bool_decide_eq_true_2 by done. cbn. rewrite ?Hio. cbn. rewrite ?Hio.
    by rewrite <- app_assoc.
  - rewrite bool_decide_eq_false_2 by (by intros [_ ?]). cbn. rewrite ?Hio.
    by destruct c.
Qed.

(** X13.  One unknown command before authentication ends the connection,
    whatever the transport does: the loop stops in the logout state, no
    later command is read, no handler has run, the store is untouched,
    and what was written is the tagged BAD and the untagged BYE, or what
    of them the transport took. *)
Theorem serve_ends_at_unknown_command_before_login
    (tag name : string) (rest : list (option (string * string))) (cw : Conn * World) :
  name ∉ known_commands →
  state cw.1 = ConnStateNotAuthenticated →
  ∃ written,
    written `sublist_of` [RespStatus tag unknownBad; RespStatus "" unknownBye] ∧
    serve_loop io_err handle (Some (tag, name) :: rest) cw =
      ({| state := ConnStateLogout; session := session cw.1;
          wire := wire cw.1 ++ written |}, cw.2).
Proof.
  intros Hn Hs. destruct cw as [c w]. cbn [fst snd] in *.
  cbn [serve_loop fst]. rewrite decide_False by (rewrite Hs; done).
  unfold readCommand. cbn [fst snd].
  rewrite (bool_decide_eq_false_2 _ (λ H, Hn H)).
  rewrite bool_decide_eq_true_2 by done.
  unfold writeStatusResp, set_state. cbn [fst snd].
  match goal with |- context [conn_write io_err ?r ?c0] =>
    destruct (conn_write_cases r c0) as [(e & He & ->)|[He ->]] end; cbn [fst snd];
  match goal with |- context [conn_write io_err ?r ?c0] =>
    destruct (conn_write_cases r c0) as [(e' & He' & ->)|[He' ->]] end; cbn [fst snd wire].
  - exists []. split; [apply sublist_nil_l|]. by rewrite app_nil_r.
  - exists [RespStatus "" unknownBye]. split; [|done].
    apply sublist_cons, sublist_skip, sublist_nil_l.
  - exists [RespStatus tag unknownBad]. split; [apply sublist_skip, sublist_nil_l|].
    destruct rest; [done|]. cbn. by rewrite decide_True.
  - exists [RespStatus tag unknownBad; RespStatus "" unknownBye]. split; [done|].
    rewrite <- app_assoc.
    destruct rest; [done|]. cbn. by rewrite decide_True.
Qed.

(** X14.  After a handler error there is no poll: the store is as the
    handler left it, so nothing is dequeued, and the loop writes at most
    one response, a status response with the command's tag.  An error
    that is neither an IMAP error nor a decoder error is not shown to the
    client: the response is then NO [SERVERBUG] whatever the error
    says. *)
Theorem readCommand_handler_error_skips_poll
    (tag name : string) (cw cw1 : Conn * World) (e : handler_error) :
  name ∈ known_commands →
  handle name tag cw = (cw1, e) →
  e ≠ HNil →
  ∃ resp,
    readCommand io_err handle tag name cw =
      (let '(c, r) := conn_write io_err (RespStatus tag resp) cw1.1 in ((c, cw1.2), r)) ∧
    (∀ msg, e = HOther msg → resp = internalServerErrorResp) ∧
    (∀ msg, e = HDecoderExpectError msg →
       Type_ resp = StatusResponseTypeBad ∧ Code resp = "CLIENTBUG").
Proof.
  intros Hk Hh He. unfold readCommand.
  rewrite (bool_decide_eq_true_2 _ Hk).
  rewrite bool_decide_eq_false_2 by (by intros [? _]).
  rewrite Hh. unfold writeStatusResp.
  destruct e as [|resp|msg|msg]; [done|..].
  - exists resp. split; [by destruct (conn_write _ _ _)|done].
  - exists {| Type_ := StatusResponseTypeBad; Code := "CLIENTBUG";
              Text := "语法错误: " +:+ msg |}.
    split; [by destruct (conn_write _ _ _)|done].
  - exists internalServerErrorResp. split; [by destruct (conn_write _ _ _)|done].
Qed.

(** X15.  LOGOUT ends the connection without a poll: whatever the
    transport does, the loop stops in the logout state, reads no later
    command and leaves the store, pending updates included, as it was;
    on a transport that takes every write, what is written is the
    untagged BYE and then the tagged OK. *)
Theorem serve_ends_at_LOGOUT
    (tag : string) (decErr : handler_error)
    (rest : list (option (string * string))) (cw : Conn * World) :
  state cw.1 ≠ ConnStateLogout →
  (∀ cw, handle "LOGOUT" tag cw =
           let '(c, e) := handleLogout io_err true decErr cw.1 in ((c, cw.2), e)) →
  let cw' := serve_loop io_err handle (Some (tag, "LOGOUT") :: rest) cw in
  state cw'.1 = ConnStateLogout ∧ session cw'.1 = session cw.1 ∧ cw'.2 = cw.2 ∧
  ((∀ l, io_err l = None) →
   wire cw'.1 = wire cw.1 ++ [RespStatus "" byeLogout; completion tag "LOGOUT"]).
Proof.
  intros Hs Hh. destruct cw as [c w]. cbn [fst snd] in *.
  cbn [serve_loop fst]. rewrite decide_False by done.
  unfold readCommand. cbn [fst snd].
  rewrite bool_decide_eq_true_2 by (apply (bool_decide_unpack _); by vm_compute).
  rewrite bool_decide_eq_false_2
    by (intros [Hn _]; apply Hn, (bool_decide_unpack _); by vm_compute).
  rewrite Hh. cbn [fst snd]. unfold handleLogout, writeStatusResp, set_state.
  assert (sendOK "LOGOUT" = true) as -> by (by vm_compute).
  destruct (conn_write_cases (RespStatus "" byeLogout)
              {| state := ConnStateLogout; session := session c; wire := wire c |})
    as [(e & He & ->)|[He ->]]; cbn [ret_error fst snd].
  - destruct (conn_write_cases (RespStatus tag internalServerErrorResp)
              {| state := ConnStateLogout; session := session c; wire := wire c |})
      as [(e' & He' & ->)|[He' ->]].
    + split_and!; try done. intros Hio. by rewrite Hio in He.
    + split_and!; try (by destruct rest; [|cbn; rewrite decide_True]).
      intros Hio. by rewrite Hio in He.
  - unfold Conn_poll. cbn [fst snd state].
    match goal with |- context [conn_write io_err ?r ?c0] =>
      destruct (conn_write_cases r c0) as [(e' & He' & ->)|[He' ->]] end.
    + split_and!; try done. intros Hio. cbn in He'. by rewrite Hio in He'.
    + split_and!; try (by destruct rest; [|cbn; rewrite decide_True]).
      intros _. destruct rest; [|cbn; rewrite decide_True by done];
        cbn; by rewrite <- app_assoc.
Qed.

(** X16.  A literal of a buffered command above 4096 bytes is refused
    with NO [TOOBIG] before anything is written; through
    [checkBufferedLiteral] the BAD refusal of [acceptLiteral] can never
    be returned; and the only thing [checkBufferedLiteral] ever writes is
    one continuation request, for a synchronising literal of at most 4096
    bytes. *)
Theorem checkBufferedLiteral_cases
    (literalPlus : bool) (size : Z) (nonSync : bool) (c : Conn) :
  let '(c', e) := checkBufferedLiteral io_err literalPlus size nonSync c in
  e ≠ HImapError nonSyncLiteralTooBig ∧
  (size > 4096 → c' = c ∧ e = HImapError literalTooBig) ∧
  (c' ≠ c →
     size ≤ 4096 ∧ nonSync = false ∧ e = HNil ∧
     c' = {| state := state c; session := session c;
             wire := wire c ++ [RespData "+ 中文什么意思"] |}).
Proof.
  unfold checkBufferedLiteral, acceptLiteral, writeContReq.
  case_decide as Hsz; [by split_and!|].
  rewrite (bool_decide_eq_false_2 _ Hsz), andb_false_r. cbn [andb].
  destruct nonSync; [split_and!; (done || lia)|].
  match goal with |- context [conn_write io_err ?r ?c0] =>
    destruct (conn_write_cases r c0) as [(e & He & ->)|[He ->]] end;
    cbn; split_and!; try done; try lia.
Qed.

End ServeLoop.

Lemma readCommand_unknown_command_witness :
  let c := {| state := ConnStateNotAuthenticated; session := {| us_mailbox := None |};
              wire := [] |} in
  readCommand (λ _, None) (λ _ _ cw, (cw, HNil)) "A1" "GET" (c, NewMailboxTracker 0) =
    (({| state := ConnStateLogout; session := {| us_mailbox := None |};
         wire := [RespStatus "A1" unknownBad; RespStatus "" unknownBye] |},
      NewMailboxTracker 0), Nil).
Proof.
  intros c.
  apply (readCommand_unknown_command (λ _, None) (λ _ _ cw, (cw, HNil)) "A1" "GET"
           (c, NewMailboxTracker 0)); [|done].
  apply (bool_decide_unpack _). by vm_compute.
Defined.

Lemma serve_ends_at_unknown_command_before_login_witness :
  let io_err : list Response → option error :=
    λ l, if decide (length l = 1%nat) then Some "broken pipe" else None in
  let c := {| state := ConnStateNotAuthenticated; session := {| us_mailbox := None |};
              wire := [] |} in
  ∃ written,
    written `sublist_of` [RespStatus "A1" unknownBad; RespStatus "" unknownBye] ∧
    serve_loop io_err (λ _ _ cw, (cw, HNil)) [Some ("A1", "GET"); Some ("A2", "NOOP")]
      (c, NewMailboxTracker 0) =
      ({| state := ConnStateLogout; session := {| us_mailbox := None |};
          wire := [] ++ written |}, NewMailboxTracker 0).
Proof.
  intros io_err c.
  apply (serve_ends_at_unknown_command_before_login io_err (λ _ _ cw, (cw, HNil))
           "A1" "GET" [Some ("A2", "NOOP")] (c, NewMailboxTracker 0)); [|done].
  apply (bool_decide_unpack _). by vm_compute.
Defined.

Lemma readCommand_handler_error_skips_poll_witness :
  let handle : string → string → Conn * World → (Conn * World) * handler_error :=
    λ _ _ cw, (cw, HOther "disk failure") in
  let c := {| state := ConnStateSelected; session := {| us_mailbox := Some 1%positive |};
              wire := [] |} in
  let w := {| tracker := {| t_numMessages := 43; t_sessions := {[ 1%positive ]} |};
              heap := {[ 1%positive := {| mailbox := Some ();
                                          queue := [update_numMessages 43];
                                          updates := None |} ]};
              next := 2%positive |} in
  ∃ resp,
    readCommand (λ _, None) handle "A1" "NOOP" (c, w) =
      (let '(c', r) := conn_write (λ _, None) (RespStatus "A1" resp) c in ((c', w), r)) ∧
    resp = internalServerErrorResp.
Proof.
  intros handle c w.
  destruct (readCommand_handler_error_skips_poll (λ _, None) handle "A1" "NOOP"
              (c, w) (c, w) (HOther "disk failure")) as (resp & Hr & Hother & _).
  - apply (bool_decide_unpack _). by vm_compute.
  - done.
  - done.
  - exists resp. split; [done|]. by apply (Hother "disk failure").
Defined.

Lemma serve_ends_at_LOGOUT_witness :
  let io_err : list Response → option error := λ _, None in
  let handle : string → string → Conn * World → (Conn * World) * handler_error :=
    λ _ _ cw, let '(c, e) := handleLogout io_err true HNil cw.1 in ((c, cw.2), e) in
  let c := {| state := ConnStateSelected; session := {| us_mailbox := Some 1%positive |};
              wire := [] |} in
  let w := {| tracker := {| t_numMessages := 43; t_sessions := {[ 1%positive ]} |};
              heap := {[ 1%positive := {| mailbox := Some ();
                                          queue := [update_numMessages 43];
                                          updates := None |} ]};
              next := 2%positive |} in
  let cw' := serve_loop io_err handle [Some ("A1", "LOGOUT"); Some ("A2", "NOOP")] (c, w) in
  state cw'.1 = ConnStateLogout ∧ cw'.2 = w ∧
  wire cw'.1 = [RespStatus "" byeLogout; completion "A1" "LOGOUT"].
Proof.
  intros io_err handle c w.
  destruct (serve_ends_at_LOGOUT io_err handle "A1" HNil [Some ("A2", "NOOP")] (c, w))
    as (Hs & _ & Hw & Hwire); [done|done|].
  split_and!; [done|done|]. by apply Hwire.
Defined.

(** * Further properties of the client command engine *)

Section ClientTags.

Import Imapclient.

Lemma tag_lookup (h h' : gmap CmdPtr command) p cmd' :
  tag ∘ base <$> h' !! p = tag ∘ base <$> h !! p →
  h' !! p = Some cmd' →
  ∃ cmd, h !! p = Some cmd ∧ tag (base cmd) = tag (base cmd').
Proof.
  intros Heq Hp. rewrite Hp in Heq. cbn in Heq.
  destruct (h !! p) as [cmd|]; [|done]. exists cmd. split; [done|].
  cbn in Heq. by injection Heq.
Qed.

Lemma updates_stream_tags c c' : updates_stream c c' → client_tags c → client_tags c'.
Proof.
  intros Hup (Htag & Htags & Herr).
  assert (∀ p, base <$> cmds c' !! p = base <$> cmds c !! p) as Hb
    by (intros p; by apply updates_stream_base).
  assert (cmdTag c' = cmdTag c ∧ next_cmd c' = next_cmd c ∧
          pendingCmds c' = pendingCmds c) as (Ht & Hn & Hp).
  { by destruct Hup as [->|(p & cmd & cmd' & _ & -> & _)]. }
  split_and!.
  - by rewrite Ht, Hn.
  - intros p cmd' Hcmd'.
    assert (base <$> cmds c !! p = Some (base cmd')) as Hc
      by (etrans; [symmetry; apply Hb|exact (f_equal (fmap base) Hcmd')]).
    destruct (cmds c !! p) as [cmd|] eqn:Hcmd; [|done].
    cbn in Hc. injection Hc as <-. by apply Htags.
  - intros p. rewrite Hp. intros Hin.
    by rewrite option_fmap_compose, Hb, <- option_fmap_compose, Herr.
Qed.

Lemma reachable_tags c : reachable c → client_tags c.
Proof.
  induction 1 as [|o c c' Hreach IHc Hstep].
  { split_and!; [done|done|by intros p ?%elem_of_nil]. }
  pose proof IHc as (Htag & Htags & Herr).
  pose proof (reachable_inv _ Hreach) as (Hnd & Hpend & Hnext).
  destruct o as [k|id p|t e|p|e|data|data|p]; cbn in Hstep.
  - injection Hstep as <-. unfold client_tags, beginCommand.
    cbn [fst pendingCmds cmds next_cmd cmdTag].
    assert ((cmdTag c + 1) mod uint64_modulus = Z.pos (next_cmd c) mod uint64_modulus) as Hn.
    { rewrite Htag, Zplus_mod_idemp_l. f_equal. lia. }
    split_and!.
    + rewrite Hn. f_equal. lia.
    + intros p cmd. destruct (decide (p = next_cmd c)) as [->|].
      * rewrite lookup_insert_eq. intros [= <-]. cbn. by rewrite Hn.
      * rewrite lookup_insert_ne by done. apply Htags.
    + intros p [Hp| ->%list_elem_of_singleton]%elem_of_app.
      * rewrite lookup_insert_ne; [by apply Herr|].
        destruct (Hpend _ Hp) as (cmd & Hcmd & _). apply Hnext in Hcmd. lia.
      * by rewrite lookup_insert_eq.
  - by injection Hstep as <-.
  - unfold readResponseTagged, deletePendingCmdByTag in Hstep.
    destruct (delete_by_tag _ _ _) as [[q l]|] eqn:Hdel.
    2:{ cbn in Hstep. by injection Hstep as <-. }
    apply delete_by_tag_spec in Hdel as (l1 & l2 & Hl & -> & _).
    destruct (completeCommand q e _) as [c1| | |] eqn:Hc; try done.
    cbn in Hstep. injection Hstep as <-.
    pose proof (completeCommand_frame _ _ _ _ (or_introl Hc)) as (Hp1 & Hn1 & _).
    apply (λ H, completeCommand_base _ _ _ _ (or_introl H)) in Hc as (Ht1 & Htag1 & Herr1).
    cbn in *.
    split_and!.
    + by rewrite Ht1, Hn1.
    + intros p cmd' Hcmd'.
      destruct (tag_lookup _ _ _ _ (Htag1 p) Hcmd') as (cmd & Hcmd & <-). by apply Htags.
    + intros p. rewrite Hp1, Herr1. intros Hp. apply Herr. rewrite Hl.
      apply elem_of_app in Hp as [?|?]; apply elem_of_app; [by left|right; by right].
  - unfold wait in Hstep.
    destruct (cmds c !! p) as [cmd|] eqn:Hp; [|done].
    destruct (err (base cmd)) eqn:He; [cbn in Hstep; by injection Hstep as <-|].
    destruct (buf (done (base cmd))) as [|v rest] eqn:Hbuf.
    { destruct (closed _); [|done]. cbn in Hstep. by injection Hstep as <-. }
    cbn in Hstep. injection Hstep as <-.
    unfold client_tags, set_cmd. cbn [pendingCmds cmds next_cmd cmdTag]. split_and!; [done| |].
    + intros q cmd'. destruct (decide (q = p)) as [->|].
      * rewrite lookup_insert_eq. intros [= <-]. cbn. by apply Htags.
      * rewrite lookup_insert_ne by done. apply Htags.
    + intros q Hq. rewrite lookup_insert_ne; [by apply Herr|].
      intros ->. destruct (Hpend _ Hq) as (cmd' & Hcmd' & Hd & _).
      rewrite Hp in Hcmd'. injection Hcmd' as ->. by rewrite Hd in Hbuf.
  - unfold closeWithError in Hstep.
    match type of Hstep with complete_all _ _ ?c0 = _ =>
      destruct (complete_all_fresh (pendingCmds c) e c0)
        as (c1 & l1 & l2 & _ & Hres & Hp1 & Hn1 & _ & Ht1 & _ & Htag1 & _);
        [done|apply Hpend|] end.
    assert (c1 = c') as -> by (destruct Hres as [(Hr & _)|(Hr & _)]; congruence).
    cbn in *.
    split_and!.
    + by rewrite Ht1, Hn1.
    + intros p cmd' Hcmd'.
      destruct (tag_lookup _ _ _ _ (Htag1 p) Hcmd') as (cmd & Hcmd & <-). by apply Htags.
    + rewrite Hp1. by intros p ?%elem_of_nil.
  - destruct (handleList data c) as [[c1 r]| | |] eqn:Hh; try done.
    cbn in Hstep. injection Hstep as <-.
    eapply updates_stream_tags; [|done]. apply (handleList_updates data). left. by exists r.
  - destruct (handleStatus data c) as [[c1 r]| | |] eqn:Hh; try done.
    cbn in Hstep. injection Hstep as <-.
    eapply updates_stream_tags; [|done]. apply (handleStatus_updates data). left. by exists r.
  - destruct (Next p c) as [[c1 r]| | |] eqn:Hh; try done.
    cbn in Hstep. injection Hstep as <-.
    eapply updates_stream_tags; [|done]. by eapply Next_updates.
Qed.

(** Before the tag counter wraps, two commands with one tag are one
    command. *)
Lemma reachable_tag_inj c p q cmdp cmdq :
  reachable c →
  Z.pos (next_cmd c) ≤ uint64_modulus →
  cmds c !! p = Some cmdp → cmds c !! q = Some cmdq →
  tag (base cmdp) = tag (base cmdq) → p = q.
Proof.
  intros Hr Hno Hp Hq Heq.
  pose proof (reachable_inv _ Hr) as (_ & _ & Hnext).
  pose proof (reachable_tags _ Hr) as (_ & Htags & _).
  rewrite (Htags _ _ Hp), (Htags _ _ Hq) in Heq.
  apply Hnext in Hp, Hq.
  injection Heq as Heq.
  change (pretty (Z.pos p `mod` uint64_modulus) = pretty (Z.pos q `mod` uint64_modulus))
    in Heq.
  apply pretty_Z_inj in Heq.
  rewrite !Z.mod_small in Heq by lia. by injection Heq.
Qed.

Lemma delete_by_tag_Some h t l p :
  p ∈ l → tag ∘ base <$> h !! p = Some t → is_Some (delete_by_tag h t l).
Proof.
  induction l as [|q l IH]; [by intros ?%elem_of_nil|].
  intros Hp Ht. cbn [delete_by_tag]. case_bool_decide; [by eexists|].
  apply elem_of_cons in Hp as [->|Hp]; [done|].
  destruct (IH Hp Ht) as [[q' l'] ->]. by eexists.
Qed.

Lemma delete_by_tag_None h t l :
  (∀ p, p ∈ l → tag ∘ base <$> h !! p ≠ Some t) → delete_by_tag h t l = None.
Proof.
  induction l as [|q l IH]; intros Hl; [done|]. cbn [delete_by_tag].
  rewrite bool_decide_eq_false_2 by (apply Hl; by left).
  rewrite IH; [done|]. intros p Hp. apply Hl. by right.
Qed.

(** X17.  A tagged response completes the command that carries its tag
    and no other: in a reachable client whose tag counter has not
    wrapped, the response with the tag of a pending command takes that
    command out of the pending list, the others keeping their order,
    puts the response's error on its completion channel and closes it,
    and touches no other command.  The call returns, unless the command
    is a LIST whose stream is stuck: then it has done all this and is
    parked in the send of the entry the command holds back. *)
Theorem tagged_response_completes_its_command
    (c : Client) (p : CmdPtr) (cmd : command) (e : option error) :
  reachable c →
  Z.pos (next_cmd c) ≤ uint64_modulus →
  p ∈ pendingCmds c →
  cmds c !! p = Some cmd →
  ∃ c' l1 l2,
    readResponseTagged (tag (base cmd)) e c =
      (if stream_stuck cmd then Parked c' else Done (c', None)) ∧
    pendingCmds c = l1 ++ p :: l2 ∧ pendingCmds c' = l1 ++ l2 ∧
    done_of c' p = Some {| buf := [e]; cap := 1; closed := true |} ∧
    (∀ q, q ≠ p → cmds c' !! q = cmds c !! q).
Proof.
  intros Hr Hno Hp Hcmd.
  pose proof (reachable_inv _ Hr) as (Hnd & Hpend & Hnext).
  unfold readResponseTagged, deletePendingCmdByTag.
  destruct (delete_by_tag_Some (cmds c) (tag (base cmd)) (pendingCmds c) p Hp)
    as [[q l] Hdel]; [by rewrite Hcmd|].
  rewrite Hdel.
  apply delete_by_tag_spec in Hdel as (l1 & l2 & Hl & -> & Hq).
  destruct (cmds c !! q) as [cmdq|] eqn:Hcq; [|done]. cbn in Hq.
  assert (q = p) as -> by (eapply (reachable_tag_inj c q p); [done..|congruence]).
  rewrite Hcmd in Hcq. injection Hcq as <-. clear Hq.
  destruct (Hpend _ Hp) as (cmd' & Hcmd' & Hd & Hs & Hm).
  rewrite Hcmd in Hcmd'. injection Hcmd' as <-.
  set (c0 := {| state := state c; mailbox := mailbox c; cmdTag := cmdTag c;
                pendingCmds := l1 ++ l2; contReqs := contReqs c; cmds := cmds c;
                next_cmd := next_cmd c; cancelled := cancelled c;
                conn_closed := conn_closed c |}).
  destruct (completeCommand_fresh p e c0 cmd Hcmd Hd Hs Hm) as (c1 & Hc1 & Hdone).
  assert (completeCommand p e c0 = Done c1 ∨ completeCommand p e c0 = Parked c1) as Hends.
  { rewrite Hc1. destruct (stream_stuck cmd); [by right|by left]. }
  pose proof (completeCommand_frame _ _ _ _ Hends) as (Hp1 & _ & _ & _ & _ & Hfr).
  rewrite Hc1.
  exists c1, l1, l2. split_and!; try done. by destruct (stream_stuck cmd).
Qed.

(** X18.  A tagged response whose tag no pending command carries is an
    error of the connection and completes nothing: the client is left
    exactly as it was. *)
Theorem unknown_tag_completes_nothing (c : Client) (t : string) (e : option error) :
  (∀ p, p ∈ pendingCmds c → tag ∘ base <$> cmds c !! p ≠ Some t) →
  ∃ err, readResponseTagged t e c = Done (c, Some err).
Proof.
  intros Hno. unfold readResponseTagged, deletePendingCmdByTag.
  rewrite delete_by_tag_None by done. by eexists.
Qed.

(** X19.  [wait] follows the completion: in a reachable client [wait] on
    a pending command blocks; once the command is completed with an
    error or with nil, [wait] returns just that, and so does every later
    [wait], without blocking and without changing the client again.
    This holds as well while [completeCommand] is parked in the send on
    the stuck stream of a LIST command: the completion channel is
    fulfilled before that send. *)
Theorem wait_blocks_until_completion (c : Client) (p : CmdPtr) (e : option error) :
  reachable c →
  p ∈ pendingCmds c →
  wait p c = Blocks ∧
  ∃ cmd c1 c2,
    cmds c !! p = Some cmd ∧
    completeCommand p e c = (if stream_stuck cmd then Parked c1 else Done c1) ∧
    wait p c1 = Done (c2, e) ∧
    wait p c2 = Done (c2, e).
Proof.
  intros Hr Hp.
  pose proof (reachable_inv _ Hr) as (_ & Hpend & _).
  pose proof (reachable_tags _ Hr) as (_ & _ & Herr).
  destruct (Hpend _ Hp) as (cmd & Hcmd & Hd & Hs & Hm).
  specialize (Herr _ Hp). rewrite Hcmd in Herr. cbn in Herr. injection Herr as Herr.
  split.
  { unfold wait. by rewrite Hcmd, Herr, Hd. }
  destruct (completeCommand_fresh p e c cmd Hcmd Hd Hs Hm) as (c1 & Hc1 & Hdone).
  assert (completeCommand p e c = Done c1 ∨ completeCommand p e c = Parked c1) as Hends.
  { rewrite Hc1. destruct (stream_stuck cmd); [by right|by left]. }
  pose proof (completeCommand_base _ _ _ _ Hends) as (_ & _ & Herr1).
  exists cmd, c1. specialize (Herr1 p). rewrite Hcmd in Herr1. cbn in Herr1.
  unfold done_of in Hdone.
  destruct (cmds c1 !! p) as [cmd1|] eqn:Hcmd1; [|done].
  cbn in Hdone, Herr1. injection Hdone as Hdone. injection Herr1 as Herr1.
  unfold wait at 1. rewrite Hcmd1, Herr1, Herr, Hdone. cbn [buf].
  eexists. split_and!; [done|done|done|].
  unfold wait, set_cmd. cbn [cmds]. rewrite lookup_insert_eq. cbn.
  by destruct e as [e|].
Qed.

(** X20.  No command is completed twice, and completion never panics:
    in every state the client can reach, a tagged response and
    [closeWithError] neither block in the send on a completion channel
    nor send on or close a channel that is already closed.  They return,
    or are parked in the one send left, that of the entry a pending LIST
    command holds back while its result stream is full. *)
Theorem completion_never_panics (c : Client) (o : op) :
  reachable c →
  (∃ t e, o = OpTagged t e) ∨ (∃ e, o = OpCloseWithError e) →
  ∃ c',
    run_op o c = Done c' ∨
    run_op o c = Parked c' ∧
    ∃ p cmd, p ∈ pendingCmds c ∧ cmds c !! p = Some cmd ∧ stream_stuck cmd = true.
Proof.
  intros Hr Ho.
  pose proof (reachable_inv _ Hr) as (Hnd & Hpend & Hnext).
  destruct Ho as [(t & e & ->)|(e & ->)]; cbn.
  - unfold readResponseTagged, deletePendingCmdByTag.
    destruct (delete_by_tag _ _ _) as [[q l]|] eqn:Hdel; [|eexists; by left].
    apply delete_by_tag_spec in Hdel as (l1 & l2 & Hl & -> & _).
    assert (q ∈ pendingCmds c) as Hq by (rewrite Hl; apply elem_of_app; right; by left).
    destruct (Hpend q Hq) as (cmd & Hcmd & Hd & Hs & Hm).
    edestruct (completeCommand_fresh q e) as (c1 & -> & _); [exact Hcmd|done..|].
    exists c1. destruct (stream_stuck cmd) eqn:Hst; cbn; [right|by left].
    split; [done|]. by exists q, cmd.
  - unfold closeWithError.
    match goal with |- ∃ c', complete_all _ _ ?c0 = _ ∨ _ =>
      destruct (complete_all_fresh (pendingCmds c) e c0)
        as (c1 & l1 & l2 & Hl & Hres & _) end; [done|apply Hpend|].
    exists c1. destruct Hres as [(-> & _)|(-> & l0 & p & cmd & -> & Hp & Hst & _)]; [by left|].
    right. split; [done|]. exists p, cmd. split_and!; try done.
    rewrite Hl. apply elem_of_app. left. apply elem_of_app. right. by left.
Qed.

Lemma tagged_response_completes_its_command_witness :
  let data := {| ld_Mailbox := "INBOX"; ld_Status := None |} in
  let ops := [OpBegin loginCommand; OpBegin (ListCommand true)] ++
             replicate 65 (OpList data) in
  let e := Some "NO" in
  ∃ c c',
    run ops New = Done c ∧ pendingCmds c = [1%positive; 2%positive] ∧
    readResponseTagged "T2" e c = Parked c' ∧
    pendingCmds c' = [1%positive] ∧
    done_of c' 2%positive = Some {| buf := [e]; cap := 1; closed := true |} ∧
    cmds c' !! 1%positive = cmds c !! 1%positive.
Proof.
  intros data ops e.
  destruct (run ops New) as [c| | |] eqn:Hrun; [|by vm_compute in Hrun..].
  pose proof (run_reachable ops New c reach_New Hrun) as Hr.
  assert (pendingCmds c = [1%positive; 2%positive] ∧ next_cmd c = 3%positive ∧
          ∃ cmd, cmds c !! 2%positive = Some cmd ∧ tag (base cmd) = "T2" ∧
                 stream_stuck cmd = true) as (Hpend & Hnext & cmd & Hcmd & Htag & Hst).
  { vm_compute in Hrun. injection Hrun as <-. split_and!; [by vm_compute..|].
    eexists. split_and!; vm_compute; reflexivity. }
  clearbody ops e. clear data.
  destruct (tagged_response_completes_its_command c 2%positive cmd e Hr)
    as (c' & l1 & l2 & H1 & Hl & Hl' & Hd & Hfr).
  - rewrite Hnext. by vm_compute.
  - rewrite Hpend. set_solver.
  - exact Hcmd.
  - rewrite Htag, Hst in H1. rewrite Hpend in Hl.
    assert (l1 = [1%positive] ∧ l2 = []) as [-> ->].
    { destruct l1 as [|x [|y l1]]; [discriminate Hl| |].
      - by injection Hl as <- <-.
      - injection Hl as _ _ Hl. by destruct l1. }
    exists c, c'. split_and!; try done. by apply Hfr.
Defined.

Lemma unknown_tag_completes_nothing_witness :
  ∃ c err,
    run [OpBegin loginCommand] New = Done c ∧ pendingCmds c = [1%positive] ∧
    readResponseTagged "T9" None c = Done (c, Some err).
Proof.
  destruct (run [OpBegin loginCommand] New) as [c| | |] eqn:Hrun; [|by vm_compute in Hrun..].
  assert (pendingCmds c = [1%positive] ∧
          tag ∘ base <$> cmds c !! 1%positive = Some "T1") as (Hpend & Htag).
  { vm_compute in Hrun. injection Hrun as <-. by vm_compute. }
  destruct (unknown_tag_completes_nothing c "T9" None) as [err Herr].
  - intros p. rewrite Hpend. intros ->%list_elem_of_singleton Heq.
    by pose proof (eq_trans (eq_sym Htag) Heq) as [=].
  - by exists c, err.
Defined.

Lemma wait_blocks_until_completion_witness :
  let data := {| ld_Mailbox := "INBOX"; ld_Status := None |} in
  let ops := OpBegin (ListCommand true) :: replicate 65 (OpList data) in
  let e := Some "NO" in
  ∃ c c1 c2,
    run ops New = Done c ∧
    wait 1%positive c = Blocks ∧
    completeCommand 1%positive e c = Parked c1 ∧
    wait 1%positive c1 = Done (c2, e) ∧
    wait 1%positive c2 = Done (c2, e).
Proof.
  intros data ops e.
  destruct (run ops New) as [c| | |] eqn:Hrun; [|by vm_compute in Hrun..].
  pose proof (run_reachable ops New c reach_New Hrun) as Hr.
  assert (pendingCmds c = [1%positive] ∧
          stream_stuck <$> cmds c !! 1%positive = Some true) as (Hpend & Hst).
  { vm_compute in Hrun. injection Hrun as <-. by vm_compute. }
  clearbody ops e. clear data.
  destruct (wait_blocks_until_completion c 1%positive e Hr)
    as (Hb & cmd & c1 & c2 & Hcmd & H1 & H2 & H3).
  - rewrite Hpend. set_solver.
  - pose proof (eq_trans (eq_sym (f_equal (fmap stream_stuck) Hcmd)) Hst) as [= Hst'].
    rewrite Hst' in H1. by exists c, c1, c2.
Defined.

Lemma completion_never_panics_witness :
  let data := {| ld_Mailbox := "INBOX"; ld_Status := None |} in
  let ops := OpBegin (ListCommand true) :: replicate 65 (OpList data) in
  ∃ c c',
    run ops New = Done c ∧
    (run_op (OpTagged "T1" None) c = Done c' ∨
     run_op (OpTagged "T1" None) c = Parked c' ∧
     ∃ p cmd, p ∈ pendingCmds c ∧ cmds c !! p = Some cmd ∧ stream_stuck cmd = true).
Proof.
  intros data ops.
  destruct (run ops New) as [c| | |] eqn:Hrun; [|by vm_compute in Hrun..].
  pose proof (run_reachable ops New c reach_New Hrun) as Hr.
  clearbody ops. clear data.
  destruct (completion_never_panics c (OpTagged "T1" None) Hr) as [c' Hc'].
  - left. by eexists _, _.
  - by exists c, c'.
Defined.

End ClientTags.

(** * The in-memory mailbox and its tracker *)

Section Memserver.

Import Imapmemserver.

Lemma filter_ext_in {A} (P Q : A → Prop)
    `{!∀ x, Decision (P x)} `{!∀ x, Decision (Q x)} (xs : list A) :
  (∀ x, x ∈ xs → P x ↔ Q x) → filter P xs = filter Q xs.
Proof.
  induction xs as [|x xs IH]; intros HPQ; [done|].
  rewrite !filter_cons.
  assert (filter P xs = filter Q xs) as -> by (apply IH; intros y Hy; apply HPQ; by right).
  pose proof (HPQ x ltac:(by left)).
  repeat case_decide; (done || tauto).
Qed.

Lemma StronglySorted_sublist {A} (R : relation A) (xs ys : list A) :
  xs `sublist_of` ys → StronglySorted R ys → StronglySorted R xs.
Proof.
  induction 1 as [|x xs ys Hsub IH|x xs ys Hsub IH]; intros Hs; [done|..].
  - apply StronglySorted_cons in Hs as [Hall Hs].
    apply StronglySorted_cons. split; [|by apply IH].
    rewrite Forall_forall in *. intros y Hy. apply Hall. by eapply elem_of_sublist.
  - apply StronglySorted_cons in Hs as [_ Hs]. by apply IH.
Qed.

Lemma StronglySorted_snoc {A} (R : relation A) (xs : list A) (x : A) :
  StronglySorted R xs → Forall (λ y, R y x) xs → StronglySorted R (xs ++ [x]).
Proof.
  induction 1 as [|y xs Hs IH Hy]; intros Hall; cbn.
  { repeat constructor. }
  apply Forall_cons in Hall as [Hyx Hall].
  constructor; [by apply IH|]. apply Forall_app. split; [done|by constructor].
Qed.

Lemma Expunge_collect_spec uids h msgs : ∀ E,
  (∀ msg, msg ∈ msgs → is_Some (h !! msg)) →
  ∃ E', Expunge_collect uids h msgs E = Ok E' ∧
        ∀ x, x ∈ E' ↔ x ∈ E ∨ (x ∈ msgs ∧ to_expunge uids h x = true).
Proof.
  induction msgs as [|msg msgs IH]; intros E Hall.
  { exists E. split; [done|]. intros x. split; [by left|].
    by intros [?|[?%elem_of_nil _]]. }
  destruct (Hall msg) as [m Hm]; [by left|].
  assert (Expunge_collect uids h (msg :: msgs) E =
          Expunge_collect uids h msgs
            (if to_expunge uids h msg then {[ msg ]} ∪ E else E)) as ->.
  { cbn [Expunge_collect]. unfold to_expunge. rewrite Hm.
    destruct uids as [contains|]; [destruct (contains (m_uid m))|];
      by destruct (m_deleted m). }
  destruct (IH (if to_expunge uids h msg then {[ msg ]} ∪ E else E))
    as (E' & -> & HE'); [intros ? ?; apply Hall; by right|].
  exists E'. split; [done|]. intros x. rewrite HE', elem_of_cons.
  destruct (to_expunge uids h msg) eqn:Hte.
  - rewrite elem_of_union, elem_of_singleton. split; [naive_solver|].
    intros [?|[[->|?] ?]]; naive_solver.
  - split; [naive_solver|]. intros [?|[[->|?] ?]]; [by left|congruence|by right].
Qed.

Lemma expunge_loop_spec (E : gset MsgPtr) rl : ∀ i filtered seqNums w,
  Z.of_nat (length rl) = i + 1 →
  t_numMessages (tracker w) = Z.of_nat (length rl + length filtered) →
  is_uint32 (t_numMessages (tracker w)) →
  ∃ sn w',
    expunge_loop rl i E filtered seqNums w =
      Ok (filtered ++ filter (λ msg, msg ∉ E) rl, seqNums ++ sn, w') ∧
    run (OpNotify <$> (MExpunge <$> sn)) w = Ok w' ∧
    t_numMessages (tracker w') =
      Z.of_nat (length (filtered ++ filter (λ msg, msg ∉ E) rl)) ∧
    Forall (λ s, 0 < s < uint32_modulus) sn ∧
    ∀ rest : list MsgPtr,
      apply_expunges (UExpunge <$> sn) (reverse rl ++ rest) =
      reverse (filter (λ msg, msg ∉ E) rl) ++ rest.
Proof.
  induction rl as [|msg rl IH]; intros i filtered seqNums w Hi Hcount H32.
  { exists [], w. cbn. rewrite !app_nil_r. by split_and!. }
  cbn [expunge_loop]. cbn [length] in Hi, Hcount. rewrite filter_cons.
  destruct (decide (msg ∈ E)) as [Hin|Hin].
  - rewrite decide_False by (by intros Hn; apply Hn).
    assert (wrap32 (i + 1) = i + 1) as Hwrap by (apply wrap32_id; u32).
    rewrite Hwrap.
    destruct (QueueExpunge (i + 1) w) as [w1|msg1] eqn:HQ.
    2:{ assert (i + 1 = 0 ∨ i + 1 > t_numMessages (tracker w)) as [?|?]
          by (apply QueueExpunge_panics_iff; by eexists); lia. }
    assert (is_uint32 (i + 1)) as Hi32 by u32.
    pose proof (QueueExpunge_count (i + 1) w w1 Hi32 H32 HQ) as Hc1.
    cbn [mbind outcome_bind].
    destruct (IH (i - 1) filtered (seqNums ++ [i + 1]) w1) as (sn & w' & -> & Hrun & Hc & Hsn & Happ);
      [lia|lia|u32|].
    exists ((i + 1) :: sn), w'. split_and!.
    + by rewrite <- app_assoc.
    + cbn. by rewrite HQ.
    + done.
    + constructor; [u32|done].
    + intros rest. rewrite reverse_cons, <- app_assoc.
      change (apply_expunges (UExpunge <$> (i + 1) :: sn) (reverse rl ++ [msg] ++ rest))
        with (apply_expunges (UExpunge <$> sn)
                (if decide (0 < i + 1)
                 then delete (Z.to_nat (i + 1 - 1)) (reverse rl ++ msg :: rest)
                 else reverse rl ++ msg :: rest)).
      rewrite decide_True by lia.
      replace (Z.to_nat (i + 1 - 1)) with (length (reverse rl))
        by (rewrite length_reverse; lia).
      rewrite delete_middle. apply Happ.
  - rewrite decide_True by done.
    destruct (IH (i - 1) (filtered ++ [msg]) seqNums w) as (sn & w' & -> & Hrun & Hc & Hsn & Happ);
      [lia|rewrite length_app; cbn; lia|done|].
    exists sn, w'. split_and!; try done.
    + by rewrite <- app_assoc.
    + by rewrite <- app_assoc in Hc.
    + intros rest. rewrite !reverse_cons, <- !app_assoc. cbn [app]. apply Happ.
Qed.

(** What [Mailbox.Expunge] does to the list and to the tracker. *)
Lemma Expunge_spec uids mbox :
  mailbox_inv mbox →
  ∃ sn w',
    Expunge uids mbox =
      Ok {| mb_tracker := w';
            l := filter (λ msg, to_expunge uids (messages mbox) msg = false) (l mbox);
            uidNext := uidNext mbox; messages := messages mbox;
            next_msg := next_msg mbox |} ∧
    run (OpNotify <$> (MExpunge <$> sn)) (mb_tracker mbox) = Ok w' ∧
    Forall (λ s, 0 < s < uint32_modulus) sn ∧
    t_numMessages (tracker w') =
      Z.of_nat (length (filter (λ msg, to_expunge uids (messages mbox) msg = false)
                          (l mbox))) ∧
    apply_expunges (UExpunge <$> sn) (l mbox) =
      filter (λ msg, to_expunge uids (messages mbox) msg = false) (l mbox).
Proof.
  intros ((H32 & _) & Hcount & Hnd & Halloc & _).
  unfold Expunge.
  destruct (Expunge_collect_spec uids (messages mbox) (l mbox) ∅ Halloc) as (E & -> & HE).
  cbn.
  assert (filter (λ msg, msg ∉ E) (l mbox) =
          filter (λ msg, to_expunge uids (messages mbox) msg = false) (l mbox)) as Hfilter.
  { apply filter_ext_in. intros x Hx. rewrite HE.
    destruct (to_expunge uids (messages mbox) x); [|set_solver].
    split; [|done]. intros Hn. destruct Hn. by right. }
  case_decide as Hempty.
  - exists [], (mb_tracker mbox). rewrite <- Hfilter.
    assert (filter (λ msg, msg ∉ E) (l mbox) = l mbox) as ->.
    { subst E. clear. induction (l mbox) as [|x xs IH]; [done|].
      rewrite filter_cons, decide_True by set_solver. by rewrite IH. }
    split_and!; try done. by destruct mbox.
  - unfold expungeLocked.
    destruct (expunge_loop_spec E (reverse (l mbox)) (Z.of_nat (length (l mbox)) - 1)
                [] [] (mb_tracker mbox)) as (sn & w' & -> & Hrun & Hc & Hsn & Happ).
    + rewrite length_reverse. lia.
    + rewrite length_reverse, Hcount. f_equal. cbn. lia.
    + done.
    + cbn [mbind outcome_bind app fst] in *.
      specialize (Happ []).
      rewrite filter_reverse, !reverse_involutive, Hfilter in *.
      rewrite length_reverse in Hc. rewrite !app_nil_r in Happ.
      by exists sn, w'.
Qed.

Lemma Forall_fmap_sublist {A B} (f : A → B) (P : B → Prop) (xs ys : list A) :
  xs `sublist_of` ys → Forall P (f <$> ys) → Forall P (f <$> xs).
Proof.
  intros Hsub. rewrite !Forall_forall. intros Hall y Hy. apply Hall.
  eapply elem_of_sublist; [done|]. by apply fmap_sublist.
Qed.

(** X21.  [Mailbox.Expunge] on a mailbox whose tracker counts its
    messages never trips the tracker's range checks: it returns, the
    message list is the old one without the \Deleted messages (of the UID
    set, if one is given), in the old order, and the tracker again counts
    the list; UIDs stay ascending. *)
Theorem Expunge_removes_the_deleted (uids : option (Z → bool)) (mbox : Mailbox) :
  mailbox_inv mbox →
  ∃ mbox',
    Expunge uids mbox = Ok mbox' ∧
    l mbox' = filter (λ msg, to_expunge uids (messages mbox) msg = false) (l mbox) ∧
    messages mbox' = messages mbox ∧
    uidNext mbox' = uidNext mbox ∧
    mailbox_inv mbox'.
Proof.
  intros Hinv.
  destruct (Expunge_spec uids mbox Hinv) as (sn & w' & -> & Hrun & Hsn & Hc & _).
  destruct Hinv as (Hwf & Hcount & Hnd & Halloc & Hnext & Hsorted & Hbound & Hpos).
  eexists. split; [done|]. cbn [l messages uidNext]. split_and!; [done..|].
  unfold mailbox_inv. cbn [mb_tracker l messages uidNext next_msg].
  split_and!; try done.
  - apply (world_wf_run (OpNotify <$> (MExpunge <$> sn)) (mb_tracker mbox)); [|done..].
    apply Forall_fmap, Forall_fmap. eapply Forall_impl; [done|]. cbn. intros; u32.
  - by apply NoDup_filter.
  - intros msg [_ ?]%list_elem_of_filter. by apply Halloc.
  - eapply StronglySorted_sublist; [|done]. apply fmap_sublist, sublist_filter.
  - eapply Forall_fmap_sublist; [|done]. apply sublist_filter.
Qed.

Lemma expunge_records (sn : list Z) (p : SessionPtr) :
  mutation_record <$> filter (λ m, mutation_source m ≠ Some p) (MExpunge <$> sn) =
  update_expunge <$> sn.
Proof.
  induction sn as [|n sn IH]; [done|]. cbn [fmap list_fmap].
  rewrite filter_cons, decide_True by done. cbn. f_equal. apply IH.
Qed.

Lemma pending_expunge_records (sn : list Z) :
  Forall (λ n, 0 < n < uint32_modulus) sn →
  pending (update_expunge <$> sn) = UExpunge <$> sn.
Proof.
  induction 1 as [|n sn Hn _ IH]; [done|].
  unfold pending in *. cbn [fmap list_fmap omap list_omap].
  rewrite view_expunge by (cbn; lia). cbn. f_equal. apply IH.
Qed.

(** X22.  The views of a mailbox follow an expunge: for a view with
    nothing pending, after [Mailbox.Expunge] the number under which the
    view knew a message decodes to 0 when the message was expunged and
    otherwise to the position the message now has in the mailbox. *)
Theorem Expunge_views_follow
    (uids : option (Z → bool)) (mbox mbox' : Mailbox)
    (p : SessionPtr) (st : SessionTracker) (i : nat) (x : MsgPtr) :
  mailbox_inv mbox →
  p ∈ t_sessions (tracker (mb_tracker mbox)) →
  heap (mb_tracker mbox) !! p = Some st →
  queue st = [] →
  Expunge uids mbox = Ok mbox' →
  l mbox !! i = Some x →
  ∃ r,
    DecodeSeqNum_at p (Z.of_nat i + 1) (mb_tracker mbox') = Ok r ∧
    if to_expunge uids (messages mbox) x then r = 0
    else 0 < r ∧ l mbox' !! Z.to_nat (r - 1) = Some x.
Proof.
  intros Hinv Hp Hst Hq Hexp Hx.
  destruct (Expunge_spec uids mbox Hinv) as (sn & w' & Hexp' & Hrun & Hsn & Hc & Happ).
  rewrite Hexp' in Hexp. injection Hexp as <-. cbn [mb_tracker l].
  destruct Hinv as ((H32 & _ & Hh) & Hcount & Hnd & _).
  destruct (Hh _ _ Hst) as (_ & _ & Hmb). apply Hmb in Hp as Hmbox.
  destruct (run_notify_queue _ _ _ _ _ Hrun Hst) as (st' & Hst' & Hmb' & _ & Hq').
  rewrite decide_True in Hq' by done.
  rewrite Hq, expunge_records in Hq'. cbn in Hq'.
  pose proof (lookup_lt_Some _ _ _ Hx) as Hlt.
  assert (Forall update_typed (queue st')) as Hty.
  { rewrite Hq'. apply Forall_fmap. eapply Forall_impl; [done|].
    intros n Hn. split; cbn; u32. }
  unfold DecodeSeqNum_at. rewrite Hst'. unfold DecodeSeqNum.
  rewrite decide_False by lia.
  rewrite decode_loop_replay by (done || u32).
  rewrite Hq', pending_expunge_records by done.
  pose proof (decode_replay_tracks (UExpunge <$> sn) (l mbox) x (Z.of_nat i + 1)) as Htr.
  rewrite Happ in Htr.
  replace (Z.to_nat (Z.of_nat i + 1 - 1)) with i in Htr by lia.
  specialize (Htr ltac:(by apply Forall_fmap) Hnd ltac:(lia) Hx).
  destruct (decode_replay _ _) as [r|].
  - destruct Htr as [Hr Hlook]. rewrite Hmb', Hmbox.
    pose proof (lookup_lt_Some _ _ _ Hlook) as Hlt'.
    rewrite decide_False by lia. exists r. split; [done|].
    pose proof Hlook as Hin.
    apply list_elem_of_lookup_2, list_elem_of_filter in Hin as [-> _]. done.
  - exists 0. split; [done|].
    destruct (to_expunge uids (messages mbox) x) eqn:Hte; [done|].
    destruct Htr. apply list_elem_of_filter. split; [done|].
    by eapply list_elem_of_lookup_2.
Qed.

Lemma mailbox_inv_NewMailbox : mailbox_inv NewMailbox.
Proof.
  unfold mailbox_inv, NewMailbox. cbn [mb_tracker l messages uidNext next_msg].
  split_and!;
    [apply world_wf_NewMailboxTracker; u32|done|constructor|by intros msg ?%elem_of_nil
    |done|constructor|constructor|done].
Qed.

Lemma mailbox_inv_NewView mbox : mailbox_inv mbox → mailbox_inv (NewView mbox).1.
Proof.
  intros (Hwf & Hrest). unfold mailbox_inv, NewView.
  cbn [fst mb_tracker l messages uidNext next_msg NewSession tracker t_numMessages].
  split; [|done]. by apply world_wf_NewSession.
Qed.

(** [appendBytes] returns and keeps the invariant, while neither the
    message count nor the UID counter overflows. *)
Lemma appendBytes_inv deleted mbox :
  mailbox_inv mbox →
  Z.of_nat (length (l mbox)) + 1 < uint32_modulus →
  uidNext mbox + 1 < uint32_modulus →
  ∃ mbox',
    appendBytes deleted mbox = Ok (mbox', uidNext mbox) ∧
    l mbox' = l mbox ++ [next_msg mbox] ∧
    messages mbox' =
      <[next_msg mbox:={| m_uid := uidNext mbox; m_deleted := deleted |}]> (messages mbox) ∧
    QueueNumMessages (Z.of_nat (length (l mbox)) + 1) (mb_tracker mbox) =
      Ok (mb_tracker mbox') ∧
    (∀ msg, msg ∈ l mbox → uid_of (messages mbox') msg = uid_of (messages mbox) msg) ∧
    mailbox_inv mbox'.
Proof.
  intros (Hwf & Hcount & Hnd & Halloc & Hnext & Hsorted & Hbound & Hpos) Hlen Huid.
  unfold appendBytes. rewrite length_app. cbn [length].
  replace (Z.of_nat (length (l mbox) + 1)) with (Z.of_nat (length (l mbox)) + 1) by lia.
  rewrite !wrap32_id by u32.
  set (n := Z.of_nat (length (l mbox)) + 1).
  destruct (QueueNumMessages n (mb_tracker mbox)) as [w1|msg1] eqn:HQ.
  2:{ assert (n ≠ 0 ∧ n < t_numMessages (tracker (mb_tracker mbox))) as [_ ?]
        by (apply QueueNumMessages_panics_iff; by eexists). lia. }
  assert (n ≠ 0) as Hn0 by lia.
  pose proof (QueueNumMessages_count n _ _ Hn0 HQ) as Hc1.
  assert (world_wf w1) as Hwf1
    by (apply (world_wf_notify (MNumMessages n) (mb_tracker mbox)); [cbn; u32|done..]).
  assert (∀ msg, msg ∈ l mbox → msg ≠ next_msg mbox) as Hfresh.
  { intros msg Hin ->. destruct (Halloc _ Hin) as [m Hm]. apply Hnext in Hm. lia. }
  set (h' := <[next_msg mbox:={| m_uid := uidNext mbox; m_deleted := deleted |}]>
               (messages mbox)).
  assert (∀ msg, msg ∈ l mbox → uid_of h' msg = uid_of (messages mbox) msg) as Hold.
  { intros msg Hin. unfold uid_of, h'.
    rewrite lookup_insert_ne; [done|]. intros <-. by eapply Hfresh. }
  assert (uid_of h' <$> l mbox = uid_of (messages mbox) <$> l mbox) as Huids.
  { apply list_fmap_ext. intros j msg Hj. apply Hold. by eapply list_elem_of_lookup_2. }
  assert (uid_of h' (next_msg mbox) = uidNext mbox) as Hnew
    by (unfold uid_of, h'; by rewrite lookup_insert_eq).
  cbn [mbind outcome_bind]. fold h'.
  eexists. split; [reflexivity|]. cbn [l messages mb_tracker].
  split_and!; [done..|].
  unfold mailbox_inv. cbn [mb_tracker l messages uidNext next_msg].
  split_and!.
  - done.
  - rewrite Hc1, length_app. cbn. lia.
  - apply NoDup_app. split_and!; [done| |apply NoDup_singleton].
    intros msg Hin ->%list_elem_of_singleton. by eapply Hfresh.
  - intros msg [Hin| ->%list_elem_of_singleton]%elem_of_app; unfold h'.
    + rewrite lookup_insert_ne by (intros <-; by eapply Hfresh). by apply Halloc.
    + rewrite lookup_insert_eq. by eexists.
  - intros msg m. unfold h'. destruct (decide (msg = next_msg mbox)) as [->|].
    + intros _. lia.
    + rewrite lookup_insert_ne by done. intros ?%Hnext. lia.
  - rewrite fmap_app, Huids. cbn [fmap list_fmap]. rewrite Hnew.
    apply StronglySorted_snoc; [done|]. eapply Forall_impl; [done|]. cbn. intros; lia.
  - rewrite fmap_app, Huids. cbn [fmap list_fmap]. rewrite Hnew.
    apply Forall_app. split.
    + eapply Forall_impl; [done|]. cbn. intros; lia.
    + constructor; [lia|constructor].
  - lia.
Qed.

(** X23.  [Mailbox.appendBytes], while neither the message count nor the
    UID counter overflows: it returns; the new message is last in the
    list and its UID, the old [uidNext], is above the UID of every other
    message; the tracker counts the list again and every view is told the
    new count. *)
Theorem appendBytes_assigns_fresh_uid (deleted : bool) (mbox : Mailbox) :
  mailbox_inv mbox →
  Z.of_nat (length (l mbox)) + 1 < uint32_modulus →
  uidNext mbox + 1 < uint32_modulus →
  ∃ mbox',
    appendBytes deleted mbox = Ok (mbox', uidNext mbox) ∧
    l mbox' = l mbox ++ [next_msg mbox] ∧
    uid_of (messages mbox') (next_msg mbox) = uidNext mbox ∧
    Forall (λ msg, uid_of (messages mbox') msg < uidNext mbox) (l mbox) ∧
    mailbox_inv mbox' ∧
    (∀ p st,
       p ∈ t_sessions (tracker (mb_tracker mbox)) →
       heap (mb_tracker mbox) !! p = Some st →
       ∃ st', heap (mb_tracker mbox') !! p = Some st' ∧
              queue st' =
                queue st ++ [update_numMessages (Z.of_nat (length (l mbox)) + 1)]).
Proof.
  intros Hinv Hlen Huid.
  destruct (appendBytes_inv deleted mbox Hinv Hlen Huid)
    as (mbox' & Happ & Hl & Hmsgs & HQ & Hold & Hinv').
  destruct Hinv as (_ & _ & _ & _ & _ & _ & Hbound & _).
  exists mbox'. split_and!; try done.
  - unfold uid_of. by rewrite Hmsgs, lookup_insert_eq.
  - apply Forall_fmap in Hbound. rewrite Forall_forall in *.
    intros msg Hin. rewrite Hold by done. by apply Hbound.
  - intros p st Hp Hst.
    destruct (notify_queue (MNumMessages (Z.of_nat (length (l mbox)) + 1)) _ _ _ _ HQ Hst)
      as (st' & Hst' & _ & Hq').
    exists st'. split; [done|]. rewrite Hq'. by rewrite decide_True.
Qed.

(** X24.  [staticNumRange]: a range that names no [*] (no 0) is left as it
    is; a range that names one comes out ordered and containing the
    largest number [max]; and when [max] is not 0 no 0 is left in the
    range. *)
Theorem staticNumRange_covers_max (start stop max : Z) :
  (start ≠ 0 → stop ≠ 0 → staticNumRange start stop max = (start, stop)) ∧
  (start = 0 ∨ stop = 0 →
     (staticNumRange start stop max).1 ≤ max ≤ (staticNumRange start stop max).2) ∧
  (max ≠ 0 →
     (staticNumRange start stop max).1 ≠ 0 ∧ (staticNumRange start stop max).2 ≠ 0).
Proof.
  unfold staticNumRange.
  split_and!; intros; repeat case_bool_decide; repeat case_decide; cbn in *; try done;
    try lia; try (split; lia).
Qed.

Lemma expunge_loop_positions (E : gset MsgPtr) rl : ∀ i filtered seqNums w res,
  Z.of_nat (length rl) = i + 1 →
  i + 1 < uint32_modulus →
  expunge_loop rl i E filtered seqNums w = Ok res →
  ∃ sn,
    res.1.2 = seqNums ++ sn ∧
    StronglySorted Z.gt sn ∧
    Forall (λ s, 0 < s ≤ i + 1) sn ∧
    ∀ s, s ∈ sn ↔ 0 < s ∧ ∃ x, reverse rl !! Z.to_nat (s - 1) = Some x ∧ x ∈ E.
Proof.
  induction rl as [|msg rl IH]; intros i filtered seqNums w res Hi H32.
  { cbn. intros [= <-]. exists []. cbn. rewrite app_nil_r.
    split_and!; [done|constructor|constructor|].
    intros s. split; [by intros ?%elem_of_nil|by intros (_ & x & ? & _)]. }
  cbn [expunge_loop]. cbn [length] in Hi.
  assert (∀ s x, reverse (msg :: rl) !! Z.to_nat (s - 1) = Some x → 0 < s →
            (s ≤ i ∧ reverse rl !! Z.to_nat (s - 1) = Some x) ∨ (s = i + 1 ∧ x = msg))
    as Hlook.
  { intros s x Hx Hs. rewrite reverse_cons in Hx.
    apply lookup_app_Some in Hx as [Hx|[Hge Hx]].
    - left. split; [|done]. apply lookup_lt_Some in Hx. rewrite length_reverse in Hx. lia.
    - right. rewrite length_reverse in Hge, Hx.
      apply list_lookup_singleton_Some in Hx as [Hz ->]. split; [lia|done]. }
  assert (∀ s x, reverse rl !! Z.to_nat (s - 1) = Some x →
            reverse (msg :: rl) !! Z.to_nat (s - 1) = Some x) as Hlook'.
  { intros s x Hx. rewrite reverse_cons. by apply lookup_app_l_Some. }
  case_decide as Hin.
  - rewrite wrap32_id by u32.
    destruct (QueueExpunge (i + 1) w) as [w1|] eqn:HQ; [|done]. cbn [mbind outcome_bind].
    intros Hloop.
    destruct (IH (i - 1) filtered (seqNums ++ [i + 1]) w1 res) as (sn & Hres & Hsort & Hb & Hmem);
      [lia|lia|done|].
    exists ((i + 1) :: sn). split_and!.
    + by rewrite Hres, <- app_assoc.
    + constructor; [done|]. eapply Forall_impl; [done|]. cbn. intros; lia.
    + constructor; [lia|]. eapply Forall_impl; [done|]. cbn. intros; lia.
    + intros s. rewrite elem_of_cons, Hmem. split.
      * intros [->|(Hs & x & Hx & HxE)].
        -- split; [lia|]. exists msg. split; [|done].
           rewrite reverse_cons.
           replace (Z.to_nat (i + 1 - 1)) with (length (reverse rl))
             by (rewrite length_reverse; lia).
           by rewrite list_lookup_middle.
        -- split; [done|]. exists x. split; [by apply Hlook'|done].
      * intros (Hs & x & Hx & HxE).
        destruct (Hlook s x Hx Hs) as [[_ Hx']|[-> _]]; [right|by left].
        split; [done|]. by exists x.
  - intros Hloop.
    destruct (IH (i - 1) (filtered ++ [msg]) seqNums w res) as (sn & Hres & Hsort & Hb & Hmem);
      [lia|lia|done|].
    exists sn. split_and!; [done|done| |].
    + eapply Forall_impl; [done|]. cbn. intros; lia.
    + intros s. rewrite Hmem. split.
      * intros (Hs & x & Hx & HxE). split; [done|]. exists x. split; [by apply Hlook'|done].
      * intros (Hs & x & Hx & HxE).
        destruct (Hlook s x Hx Hs) as [[_ Hx']|[_ ->]]; [|done].
        split; [done|]. by exists x.
Qed.

(** X30.  [Mailbox.expungeLocked] returns the old positions, highest
    first: the numbers it returns (and has passed to [QueueExpunge], in
    this order) are strictly decreasing, and they are exactly the
    positions that the expunged messages had in the list before the
    call. *)
Theorem expungeLocked_returns_old_positions
    (E : gset MsgPtr) (mbox mbox' : Mailbox) (seqNums : list Z) :
  Z.of_nat (length (l mbox)) < uint32_modulus →
  expungeLocked E mbox = Ok (mbox', seqNums) →
  StronglySorted Z.gt seqNums ∧
  ∀ s, s ∈ seqNums ↔ 0 < s ∧ ∃ x, l mbox !! Z.to_nat (s - 1) = Some x ∧ x ∈ E.
Proof.
  intros H32. unfold expungeLocked.
  destruct (expunge_loop _ _ _ _ _ _) as [[[filtered sn] w']|] eqn:Hloop; [|done].
  cbn [mbind outcome_bind]. intros [= <- <-].
  apply expunge_loop_positions in Hloop as (sn' & Hres & Hsort & _ & Hmem).
  - cbn in Hres. subst sn'. split; [done|].
    intros s. rewrite Hmem. by rewrite reverse_involutive.
  - rewrite length_reverse. lia.
  - lia.
Qed.

Lemma expungeLocked_returns_old_positions_witness :
  let mbox := {| mb_tracker := NewMailboxTracker 3;
                 l := [1%positive; 2%positive; 3%positive];
                 uidNext := 4; messages := ∅; next_msg := 4%positive |} in
  ∃ mbox',
    expungeLocked {[ 1%positive; 3%positive ]} mbox = Ok (mbox', [3; 1]) ∧
    StronglySorted Z.gt [3; 1].
Proof.
  intros mbox.
  destruct (expungeLocked {[ 1%positive; 3%positive ]} mbox) as [[mbox' seqNums]|] eqn:He;
    [|by vm_compute in He].
  assert (seqNums = [3; 1]) as -> by (vm_compute in He; by injection He as <- <-).
  destruct (expungeLocked_returns_old_positions {[ 1%positive; 3%positive ]} mbox mbox' [3; 1])
    as [Hsort _]; [by vm_compute|done|].
  by exists mbox'.
Defined.

Lemma Expunge_removes_the_deleted_witness :
  ∃ m1 m2 m3 mbox',
    appendBytes false NewMailbox = Ok (m1, 1) ∧
    appendBytes true m1 = Ok (m2, 2) ∧
    appendBytes false m2 = Ok (m3, 3) ∧
    l m3 = [1%positive; 2%positive; 3%positive] ∧
    Expunge None m3 = Ok mbox' ∧
    l mbox' = [1%positive; 3%positive].
Proof.
  destruct (appendBytes_inv false NewMailbox mailbox_inv_NewMailbox)
    as (m1 & H1 & Hl1 & Hm1 & _ & _ & Hinv1); [by vm_compute..|].
  destruct (appendBytes_inv true m1 Hinv1)
    as (m2 & H2 & Hl2 & Hm2 & _ & _ & Hinv2).
  { rewrite Hl1. by vm_compute. }
  { vm_compute in H1. injection H1 as <-. by vm_compute. }
  destruct (appendBytes_inv false m2 Hinv2)
    as (m3 & H3 & Hl3 & Hm3 & _ & _ & Hinv3).
  { rewrite Hl2, Hl1. by vm_compute. }
  { vm_compute in H1. injection H1 as <-. vm_compute in H2. injection H2 as <-.
    by vm_compute. }
  destruct (Expunge_removes_the_deleted None m3 Hinv3) as (mbox' & He & Hl' & _).
  assert (uidNext NewMailbox = 1 ∧ uidNext m1 = 2 ∧ uidNext m2 = 3) as (Hu0 & Hu1 & Hu2).
  { vm_compute in H1. injection H1 as <-. vm_compute in H2. by injection H2 as <-. }
  rewrite Hu0 in H1. rewrite Hu1 in H2. rewrite Hu2 in H3.
  exists m1, m2, m3, mbox'. split_and!; try done.
  - rewrite Hl3, Hl2, Hl1.
    vm_compute in H1. injection H1 as <-. vm_compute in H2. by injection H2 as <-.
  - rewrite Hl'.
    vm_compute in H1. injection H1 as <-. vm_compute in H2. injection H2 as <-.
    vm_compute in H3. by injection H3 as <-.
Defined.

Lemma Expunge_views_follow_witness :
  ∃ m1 m2 m3 mbox',
    appendBytes false NewMailbox = Ok (m1, 1) ∧
    appendBytes true m1 = Ok (m2, 2) ∧
    appendBytes false m2 = Ok (m3, 3) ∧
    (NewView m3).2 = 1%positive ∧
    Expunge None (NewView m3).1 = Ok mbox' ∧
    DecodeSeqNum_at 1%positive 2 (mb_tracker mbox') = Ok 0 ∧
    DecodeSeqNum_at 1%positive 3 (mb_tracker mbox') = Ok 2 ∧
    l mbox' !! 1%nat = Some 3%positive.
Proof.
  destruct (appendBytes_inv false NewMailbox mailbox_inv_NewMailbox)
    as (m1 & H1 & Hl1 & Hm1 & _ & _ & Hinv1); [by vm_compute..|].
  destruct (appendBytes_inv true m1 Hinv1)
    as (m2 & H2 & Hl2 & Hm2 & _ & _ & Hinv2).
  { rewrite Hl1. by vm_compute. }
  { vm_compute in H1. injection H1 as <-. by vm_compute. }
  destruct (appendBytes_inv false m2 Hinv2)
    as (m3 & H3 & Hl3 & Hm3 & _ & _ & Hinv3).
  { rewrite Hl2, Hl1. by vm_compute. }
  { vm_compute in H1. injection H1 as <-. vm_compute in H2. injection H2 as <-.
    by vm_compute. }
  pose proof (mailbox_inv_NewView m3 Hinv3) as Hinv.
  assert (uidNext NewMailbox = 1 ∧ uidNext m1 = 2 ∧ uidNext m2 = 3) as (Hu0 & Hu1 & Hu2).
  { vm_compute in H1. injection H1 as <-. vm_compute in H2. by injection H2 as <-. }
  rewrite Hu0 in H1. rewrite Hu1 in H2. rewrite Hu2 in H3.
  assert (m3 = (match appendBytes false m2 with Ok r => r.1 | Panic _ => m3 end)) as Hm3eq
    by (by rewrite H3).
  assert (m2 = (match appendBytes true m1 with Ok r => r.1 | Panic _ => m2 end)) as Hm2eq
    by (by rewrite H2).
  assert (m1 = (match appendBytes false NewMailbox with Ok r => r.1 | Panic _ => m1 end))
    as Hm1eq by (by rewrite H1).
  destruct (Expunge None (NewView m3).1) as [mbox'|] eqn:He.
  2:{ destruct (Expunge_spec None (NewView m3).1 Hinv) as (? & ? & He' & _).
      by rewrite He in He'. }
  set (st := {| mailbox := Some (); queue := []; updates := None |}).
  assert ((NewView m3).2 = 1%positive ∧
          heap (mb_tracker (NewView m3).1) !! 1%positive = Some st ∧
          l (NewView m3).1 = [1%positive; 2%positive; 3%positive] ∧
          to_expunge None (messages (NewView m3).1) 2%positive = true ∧
          to_expunge None (messages (NewView m3).1) 3%positive = false)
    as (Hp & Hst & Hl & Hd2 & Hd3).
  { vm_compute in H1. injection H1 as <-. vm_compute in H2. injection H2 as <-.
    vm_compute in H3. injection H3 as <-. by vm_compute. }
  destruct (Expunge_views_follow None (NewView m3).1 mbox' 1%positive st 1 2%positive)
    as (r2 & Hr2 & Hz2); try done.
  { unfold NewView. cbn. rewrite <- Hp. unfold NewView. cbn. set_solver. }
  { by rewrite Hl. }
  destruct (Expunge_views_follow None (NewView m3).1 mbox' 1%positive st 2 3%positive)
    as (r3 & Hr3 & Hz3); try done.
  { unfold NewView. cbn. rewrite <- Hp. unfold NewView. cbn. set_solver. }
  { by rewrite Hl. }
  rewrite Hd2 in Hz2. rewrite Hd3 in Hz3. subst r2. destruct Hz3 as [Hpos Hlook].
  assert (r3 = 2) as ->.
  { change (Z.of_nat 2 + 1) with 3 in Hr3.
    assert (DecodeSeqNum_at 1%positive 3 (mb_tracker mbox') = Ok 2) as Hcomp; [|congruence].
    clear -H1 H2 H3 He.
    vm_compute in H1. injection H1 as <-. vm_compute in H2. injection H2 as <-.
    vm_compute in H3. injection H3 as <-. vm_compute in He. injection He as <-.
    by vm_compute. }
  exists m1, m2, m3, mbox'. by split_and!.
Defined.

Lemma appendBytes_assigns_fresh_uid_witness :
  ∃ m1 m2,
    appendBytes false NewMailbox = Ok (m1, 1) ∧
    appendBytes true (NewView m1).1 = Ok (m2, 2) ∧
    l m2 = [1%positive; 2%positive] ∧
    ∃ st', heap (mb_tracker m2) !! 1%positive = Some st' ∧
           queue st' = [update_numMessages 2].
Proof.
  destruct (appendBytes_inv false NewMailbox mailbox_inv_NewMailbox)
    as (m1 & H1 & Hl1 & Hm1 & _ & _ & Hinv1); [by vm_compute..|].
  pose proof (mailbox_inv_NewView m1 Hinv1) as Hinv.
  set (st := {| mailbox := Some (); queue := []; updates := None |}).
  assert (uidNext NewMailbox = 1 ∧ uidNext (NewView m1).1 = 2 ∧
          l (NewView m1).1 = [1%positive] ∧ next_msg (NewView m1).1 = 2%positive ∧
          heap (mb_tracker (NewView m1).1) !! 1%positive = Some st ∧
          1%positive ∈ t_sessions (tracker (mb_tracker (NewView m1).1)))
    as (Hu0 & Hu1 & Hl & Hn & Hst & Hp).
  { vm_compute in H1. injection H1 as <-. split_and!; by vm_compute. }
  destruct (appendBytes_assigns_fresh_uid true (NewView m1).1 Hinv)
    as (m2 & H2 & Hl2 & _ & _ & _ & Hq).
  { rewrite Hl. by vm_compute. }
  { rewrite Hu1. by vm_compute. }
  destruct (Hq 1%positive st Hp Hst) as (st' & Hst' & Hq').
  rewrite Hu0 in H1. rewrite Hu1 in H2.
  exists m1, m2. split_and!; try done.
  - by rewrite Hl2, Hl, Hn.
  - exists st'. split; [exact Hst'|]. by rewrite Hq', Hl.
Defined.

End Memserver.

(** * The accept loop *)

Section Accept.

Lemma backoff_bounds j : 5 * Millisecond ≤ backoff j ≤ Second.
Proof.
  unfold backoff, Millisecond, Second.
  assert (1 ≤ 2 ^ Z.of_nat j) by (apply (Z.pow_le_mono_r 2 0); lia). lia.
Qed.

Lemma backoff_S j :
  (if decide (wrap_int64 (backoff j * 2) > 1 * Second) then 1 * Second
   else wrap_int64 (backoff j * 2)) = backoff (S j).
Proof.
  pose proof (backoff_bounds j) as Hb.
  assert (wrap_int64 (backoff j * 2) = backoff j * 2) as ->.
  { unfold wrap_int64. unfold Millisecond, Second in Hb.
    rewrite Z.mod_small; lia. }
  unfold backoff in *. rewrite Nat2Z.inj_succ, Z.pow_succ_r by lia.
  unfold Millisecond, Second in *. case_decide; lia.
Qed.

Lemma Serve_loop_temporary k : ∀ j rest,
  Serve_loop (replicate k AcceptTemporary ++ rest) (backoff j) =
    ((Sleep ∘ backoff <$> seq (S j) k) ++ (Serve_loop rest (backoff (j + k))).1,
     (Serve_loop rest (backoff (j + k))).2).
Proof.
  induction k as [|k IH]; intros j rest.
  { cbn. replace (j + 0)%nat with j by lia. by destruct (Serve_loop rest _). }
  cbn [replicate app Serve_loop].
  pose proof (backoff_bounds j).
  rewrite (decide_False (P := backoff j = 0)) by (unfold Millisecond in *; lia).
  rewrite backoff_S, IH. cbn [fst snd fmap list_fmap seq app].
  by replace (S j + k)%nat with (j + S k)%nat by lia.
Qed.

Lemma Serve_loop_bounded accepts : ∀ delay,
  delay = 0 ∨ 5 * Millisecond ≤ delay ≤ Second →
  Forall (λ ev, match ev with
                | Sleep d => 5 * Millisecond ≤ d ≤ Second
                | GoServe _ => True
                end) (Serve_loop accepts delay).1.
Proof.
  induction accepts as [|a accepts IH]; intros delay Hd; [constructor|].
  destruct a as [| |e|conn]; cbn [Serve_loop]; try by constructor.
  - set (d := if decide (delay = 0) then 5 * Millisecond else wrap_int64 (delay * 2)).
    set (d' := if decide (d > 1 * Second) then 1 * Second else d).
    assert (5 * Millisecond ≤ d' ≤ Second) as Hd'.
    { subst d' d. unfold wrap_int64, Millisecond, Second in *.
      destruct Hd as [->|Hd].
      - rewrite !(decide_True (P := 0 = 0)) by done. case_decide; lia.
      - rewrite !(decide_False (P := delay = 0)) by lia.
        rewrite !Z.mod_small by lia. case_decide; lia. }
    specialize (IH d' (or_intror Hd')).
    destruct (Serve_loop accepts d') as [ev r]. cbn. by constructor.
  - specialize (IH 0 (or_introl eq_refl)).
    destruct (Serve_loop accepts 0) as [ev r]. cbn. by constructor.
Qed.

(** X25.  The accept loop backs off within bounds: whatever [Accept]
    returns, every sleep of [Serve] lasts at least 5 milliseconds and at
    most one second. *)
Theorem Serve_sleeps_bounded (accepts : list accept_result) (d : Z) :
  Sleep d ∈ (Serve_loop accepts 0).1 → 5 * Millisecond ≤ d ≤ Second.
Proof.
  intros Hin.
  pose proof (Serve_loop_bounded accepts 0 (or_introl eq_refl)) as Hall.
  rewrite Forall_forall in Hall. by apply (Hall (Sleep d)).
Qed.

Lemma Serve_sleeps_bounded_witness :
  Sleep (10 * Millisecond) ∈
    (Serve_loop [AcceptTemporary; AcceptTemporary; AcceptConn 1%positive] 0).1 ∧
  5 * Millisecond ≤ 10 * Millisecond ≤ Second.
Proof.
  assert (Sleep (10 * Millisecond) ∈
          (Serve_loop [AcceptTemporary; AcceptTemporary; AcceptConn 1%positive] 0).1) as Hin.
  { replace (Serve_loop [AcceptTemporary; AcceptTemporary; AcceptConn 1%positive] 0).1
      with [Sleep (5 * Millisecond); Sleep (10 * Millisecond); GoServe 1%positive]
      by (by vm_compute).
    apply elem_of_cons. right. apply elem_of_cons. by left. }
  split; [done|]. by apply (Serve_sleeps_bounded _ _ Hin).
Defined.

(** X26.  The backoff doubles and resets: after an accepted connection
    (or at the start), k temporary errors in a row make [Serve] sleep 5,
    10, 20, ... milliseconds, the j-th sleep being 5·2^(j-1) ms capped at
    one second, and the loop goes on from there; an accepted connection
    is handed to its own goroutine and the delay starts over. *)
Theorem Serve_backoff_doubles
    (delay : Z) (k : nat) (conn : positive) (rest : list accept_result) :
  Serve_loop (AcceptConn conn :: replicate k AcceptTemporary ++ rest) delay =
    (GoServe conn :: (Sleep ∘ backoff <$> seq 0 k) ++
       (Serve_loop rest (match k with O => 0 | S k' => backoff k' end)).1,
     (Serve_loop rest (match k with O => 0 | S k' => backoff k' end)).2).
Proof.
  cbn [Serve_loop].
  destruct k as [|k].
  { cbn. by destruct (Serve_loop rest 0). }
  cbn [replicate app Serve_loop].
  assert ((if decide ((if decide (0 = 0) then 5 * Millisecond else wrap_int64 (0 * 2))
                      > 1 * Second)
           then 1 * Second
           else if decide (0 = 0) then 5 * Millisecond else wrap_int64 (0 * 2))
          = backoff 0) as -> by (by vm_compute).
  rewrite Serve_loop_temporary. by cbn [fst snd fmap list_fmap seq app Nat.add].
Qed.

End Accept.

(** * Mailbox name patterns *)

Section MatchList.

Implicit Types (name pattern delim chunk : gostring).

Lemma IndexAny_wildcard_None pattern :
  IndexAny_wildcard pattern = None → Forall (λ c, is_wildcard c = false) pattern.
Proof.
  induction pattern as [|c pattern IH]; cbn [IndexAny_wildcard]; [by constructor|].
  destruct (is_wildcard c) eqn:Hc; [done|].
  destruct (IndexAny_wildcard pattern); [done|]. intros _. constructor; [done|by apply IH].
Qed.

Lemma IndexAny_wildcard_Some pattern : ∀ i,
  IndexAny_wildcard pattern = Some i →
  ∃ w,
    pattern = take i pattern ++ w :: drop (S i) pattern ∧
    pattern !! i = Some w ∧
    is_wildcard w = true ∧
    Forall (λ c, is_wildcard c = false) (take i pattern).
Proof.
  induction pattern as [|c pattern IH]; intros i; cbn [IndexAny_wildcard]; [done|].
  destruct (is_wildcard c) eqn:Hc.
  - intros [= <-]. exists c. cbn. by rewrite drop_0.
  - destruct (IndexAny_wildcard pattern) as [j|]; [|done]. cbn. intros [= <-].
    destruct (IH j eq_refl) as (w & Heq & Hw & Hwild & Hall).
    exists w. cbn. split_and!; [by f_equal|done|done|by constructor].
Qed.

Lemma Matches_literal delim pattern : ∀ name,
  Forall (λ c, is_wildcard c = false) pattern →
  Matches delim pattern name ↔ name = pattern.
Proof.
  induction pattern as [|c pattern IH]; intros name Hp.
  { split; [by inversion 1|intros ->; constructor]. }
  apply Forall_cons in Hp as [Hc Hp]. split.
  - inversion 1 as [|c' p' n' Hc' Hm| |]; subst; try done.
    f_equal. by apply IH.
  - intros ->. constructor; [done|]. by apply IH.
Qed.

Lemma Matches_chunk delim chunk pattern : ∀ name,
  Forall (λ c, is_wildcard c = false) chunk →
  Matches delim (chunk ++ pattern) name ↔
  ∃ name', name = chunk ++ name' ∧ Matches delim pattern name'.
Proof.
  induction chunk as [|c chunk IH]; intros name Hc.
  { cbn. split; [by eexists|by intros (? & -> & ?)]. }
  apply Forall_cons in Hc as [Hc Hchunk]. cbn [app]. split.
  - inversion 1 as [|c' p' n' Hc' Hm| |]; subst; try done.
    apply IH in Hm as (name' & -> & Hm); [|done]. by exists name'.
  - intros (name' & -> & Hm). cbn [app]. constructor; [done|].
    apply IH; [done|]. by exists name'.
Qed.

Lemma Matches_wildcard delim w pattern name :
  is_wildcard w = true →
  Matches delim (w :: pattern) name ↔
  ∃ s name',
    name = s ++ name' ∧
    (w = "%"%char → Forall (λ b, string_of_byte b ≠ delim) s) ∧
    Matches delim pattern name'.
Proof.
  intros Hw. split.
  - inversion 1 as [|c' p' n' Hc' Hm|p' s n' Hm|p' s n' Hs Hm]; subst.
    + congruence.
    + exists s, n'. by split_and!.
    + exists s, n'. by split_and!.
  - intros (s & name' & -> & Hs & Hm).
    unfold is_wildcard in Hw. apply bool_decide_eq_true in Hw as [-> | ->].
    + by constructor.
    + constructor; [by apply Hs|done].
Qed.

Lemma matchList_expand_spec (rec : gostring → bool) w delim name :
  matchList_expand rec w delim name = true ↔
  ∃ s name',
    name = s ++ name' ∧
    (w = "%"%char → Forall (λ b, string_of_byte b ≠ delim) s) ∧
    rec name' = true.
Proof.
  induction name as [|b name IH]; cbn [matchList_expand].
  { split.
    - intros Hr. exists [], []. by split_and!.
    - intros (s & name' & Heq & _ & Hr). symmetry in Heq.
      by apply app_eq_nil in Heq as [-> ->]. }
  destruct (bool_decide (w = "%"%char) && bool_decide (string_of_byte b = delim)) eqn:Hstop.
  - apply andb_true_iff in Hstop as [Hw%bool_decide_eq_true Hb%bool_decide_eq_true].
    split.
    + intros Hr. exists [], (b :: name). by split_and!.
    + intros (s & name' & Heq & Hs & Hr). destruct s as [|b' s]; [by rewrite Heq|].
      injection Heq as <- _. specialize (Hs Hw). by apply Forall_cons in Hs as [? _].
  - destruct (rec (b :: name)) eqn:Hrec.
    { split; [|done]. intros _. exists [], (b :: name). by split_and!. }
    rewrite IH. split.
    + intros (s & name' & -> & Hs & Hr). exists (b :: s), name'. split_and!; [done| |done].
      intros Hw. constructor; [|by apply Hs].
      apply andb_false_iff in Hstop as [Hn|Hn]; apply bool_decide_eq_false in Hn; done.
    + intros (s & name' & Heq & Hs & Hr). destruct s as [|b' s].
      * cbn in Heq. subst name'. congruence.
      * injection Heq as <- ->. exists s, name'. split_and!; [done| |done].
        intros Hw. specialize (Hs Hw). by apply Forall_cons in Hs as [_ ?].
Qed.

Lemma HasPrefix_spec name chunk :
  HasPrefix name chunk = true ↔ ∃ name', name = chunk ++ name'.
Proof.
  unfold HasPrefix. rewrite bool_decide_eq_true. split.
  - intros Ht. exists (drop (length chunk) name).
    rewrite <- Ht at 1. by rewrite take_drop.
  - intros [name' ->]. by rewrite take_app_length.
Qed.

Lemma TrimPrefix_app chunk name' : TrimPrefix (chunk ++ name') chunk = name'.
Proof.
  unfold TrimPrefix.
  rewrite (proj2 (HasPrefix_spec (chunk ++ name') chunk)) by (by eexists).
  by rewrite drop_app_length.
Qed.

Lemma matchList_fuel_Matches delim fuel : ∀ pattern name,
  (length pattern < fuel)%nat →
  matchList_fuel fuel name delim pattern = true ↔ Matches delim pattern name.
Proof.
  induction fuel as [|fuel IH]; intros pattern name Hlen; [lia|].
  cbn [matchList_fuel].
  destruct (IndexAny_wildcard pattern) as [i|] eqn:Hidx.
  2:{ rewrite bool_decide_eq_true.
      by rewrite Matches_literal by (by apply IndexAny_wildcard_None). }
  destruct (IndexAny_wildcard_Some pattern i Hidx) as (w & Heq & -> & Hw & Hchunk).
  set (chunk := take i pattern) in *. set (rest := drop (S i) pattern) in *.
  assert (length rest < fuel)%nat as Hrest.
  { rewrite Heq in Hlen. rewrite length_app in Hlen. cbn in Hlen. lia. }
  assert (Matches delim pattern name ↔ Matches delim (chunk ++ w :: rest) name) as ->
    by (by rewrite <- Heq).
  rewrite Matches_chunk by done.
  destruct (HasPrefix name chunk) eqn:Hpre.
  - rewrite andb_false_r.
    apply HasPrefix_spec in Hpre as [name' ->]. rewrite TrimPrefix_app.
    rewrite matchList_expand_spec. split.
    + intros (s & name'' & -> & Hs & Hr). exists (s ++ name''). split; [done|].
      apply Matches_wildcard; [done|]. exists s, name''. split_and!; [done..|].
      by apply IH.
    + intros (n & ->%app_inv_head & Hm).
      apply Matches_wildcard in Hm as (s & name'' & -> & Hs & Hm); [|done].
      exists s, name''. split_and!; [done..|]. by apply IH.
  - assert (chunk ≠ []) as Hne.
    { intros Hnil. rewrite Hnil in Hpre. by cbn in Hpre. }
    rewrite bool_decide_eq_true_2 by (destruct chunk; [done|cbn; lia]). cbn.
    split; [done|]. intros (name' & -> & _).
    rewrite (proj2 (HasPrefix_spec _ _)) in Hpre by (by eexists). done.
Qed.

(** X27.  [matchList] decides the pattern language of LIST: a name
    matches a pattern exactly when the pattern's literal characters are
    the name's, with [*] standing for any bytes and [%] for any bytes
    none of which is the delimiter; in particular the search always
    ends. *)
Theorem matchList_decides_Matches (name delim pattern : gostring) :
  matchList name delim pattern = true ↔ Matches delim pattern name.
Proof.
  unfold matchList. apply matchList_fuel_Matches. lia.
Qed.

End MatchList.

(** * Delivery during IDLE *)

Section IdleDelivery.

Variable io_err : list Response → option error.

Lemma idle_run_stopped acts : ∀ s s',
  Forall idling_action acts →
  i_running s = 0%nat →
  idle_run io_err acts s = Some s' → i_running s' = 0%nat.
Proof.
  induction acts as [|a acts IH]; intros s s' Hacts Hr; cbn [idle_run].
  { by intros [= <-]. }
  apply Forall_cons in Hacts as [Ha Hacts].
  destruct a as [|u| | |allow]; try done; unfold idle_step.
  - by apply IH.
  - by rewrite Hr.
Qed.

(** One turn of the [select] loop that keeps the call registered has
    written the whole queue and emptied it. *)
Lemma idle_step_AUpdates s s' r :
  i_running s = 1%nat →
  idle_step io_err AUpdates s = Some (s', r) →
  i_running s' = 1%nat →
  queue (i_st s') = [] ∧
  wire (i_conn s') = wire (i_conn s) ++ (response_of <$> pending (queue (i_st s))).
Proof.
  intros Hr. unfold idle_step. rewrite Hr.
  destruct (updates (i_st s)) as [[|n]|]; try done.
  destruct (Poll_spec io_err {| allowExpunge := true |} true
              (set_updates (i_st s) (Some n)) (i_conn s))
    as (pre & post & c' & r' & -> & Hq & -> & Hnil).
  rewrite app_nil_r in Hq. cbn in Hq. subst pre.
  destruct r'; intros [= <- <-]; cbn; try done.
  intros _. by destruct (Hnil eq_refl) as [-> _].
Qed.

Lemma idle_step_AQueued s s' r u :
  idle_step io_err (AQueued u) s = Some (s', r) →
  queue (i_st s') = queue (i_st s) ++ [u] ∧
  i_conn s' = i_conn s ∧ i_running s' = i_running s ∧
  updates (i_st s') ≠ Some 0%nat.
Proof.
  unfold idle_step. intros [= <- <-]. cbn. split_and!; try done.
  destruct (updates (i_st s)) as [k|]; [|done]. case_decide; [done|].
  intros [= ->]. unfold updates_capacity in *. lia.
Qed.

Lemma idle_run_conserves acts : ∀ s s',
  Forall idling_action acts →
  i_running s = 1%nat →
  idle_run io_err acts s = Some s' →
  i_running s' = 1%nat →
  wire (i_conn s') ++ (response_of <$> pending (queue (i_st s'))) =
    wire (i_conn s) ++ (response_of <$> pending (queue (i_st s) ++ queued acts))
  ∧ (acts ≠ [] → updates (i_st s') = Some 0%nat → queue (i_st s') = []).
Proof.
  induction acts as [|a acts IH]; intros s s' Hacts Hr; cbn [idle_run].
  { intros [= <-] _. unfold queued. cbn. by rewrite app_nil_r. }
  apply Forall_cons in Hacts as [Ha Hacts].
  destruct (idle_step io_err a s) as [[s1 r]|] eqn:Hstep; [|done].
  intros Hrun Hr'.
  destruct (decide (i_running s1 = 1%nat)) as [Hr1|Hr1].
  2:{ destruct a as [|u| | |allow]; try done.
      - apply idle_step_AQueued in Hstep as (_ & _ & ? & _). congruence.
      - assert (i_running s1 = 0%nat) as H0.
        { unfold idle_step in Hstep. rewrite Hr in Hstep.
          destruct (updates (i_st s)) as [[|n]|]; try done.
          destruct (Poll _ _ _ _ _) as [[st' c'] r'].
          destruct r'; injection Hstep as <- <-; cbn in *; done. }
        pose proof (idle_run_stopped _ _ _ Hacts H0 Hrun). congruence. }
  destruct (IH s1 s' Hacts Hr1 Hrun Hr') as [Hwire Hempty].
  destruct a as [|u| | |allow]; try done.
  - apply idle_step_AQueued in Hstep as (Hq & Hc & _ & Htok).
    split.
    + rewrite Hwire, Hq, Hc. unfold queued. cbn [omap list_omap]. fold (queued acts).
      by rewrite <- app_assoc.
    + intros _ Hz. destruct acts as [|a' acts]; [|by apply Hempty].
      cbn in Hrun. injection Hrun as <-. done.
  - apply idle_step_AUpdates in Hstep as (Hq & Hw); [|done..].
    split.
    + rewrite Hwire, Hq, Hw. unfold queued. cbn [omap list_omap]. fold (queued acts).
      cbn [app]. by rewrite pending_app, fmap_app, app_assoc.
    + intros _ Hz. destruct acts as [|a' acts]; [|by apply Hempty].
      cbn in Hrun. by injection Hrun as <-.
Qed.

(** X28.  While an [Idle] call stays registered nothing is lost,
    duplicated or reordered, and no wake-up is lost: after any run of
    notifications reaching the session and turns of the [select] loop,
    what is on the wire followed by what is still queued is what was on
    the wire followed by what was queued and what the run queued, in that
    order; and whenever the [updates] channel is empty after at least one
    step, the queue is empty too. *)
Theorem Idle_delivers_in_order (acts : list idle_action) (s s' : IdleSys) :
  Forall idling_action acts →
  i_running s = 1%nat →
  idle_run io_err acts s = Some s' →
  i_running s' = 1%nat →
  wire (i_conn s') ++ (response_of <$> pending (queue (i_st s'))) =
    wire (i_conn s) ++ (response_of <$> pending (queue (i_st s) ++ queued acts))
  ∧ (acts ≠ [] → updates (i_st s') = Some 0%nat →
       queue (i_st s') = [] ∧
       wire (i_conn s') =
         wire (i_conn s) ++ (response_of <$> pending (queue (i_st s) ++ queued acts))).
Proof.
  intros Hacts Hr Hrun Hr'.
  destruct (idle_run_conserves acts s s' Hacts Hr Hrun Hr') as [Hwire Hempty].
  split; [done|]. intros Hne Hz.
  specialize (Hempty Hne Hz). split; [done|].
  rewrite <- Hwire, Hempty. cbn. by rewrite app_nil_r.
Qed.

End IdleDelivery.

Lemma Idle_delivers_in_order_witness :
  let c0 := {| state := ConnStateSelected; session := {| us_mailbox := Some 1%positive |};
               wire := [] |} in
  let s := {| i_st := {| mailbox := Some (); queue := [update_numMessages 43];
                         updates := Some 0%nat |};
              i_conn := c0; i_running := 1 |} in
  let acts := [AQueued (update_expunge 20); AQueued (update_numMessages 44);
               AUpdates; AUpdates] in
  ∃ s', idle_run (λ _, None) acts s = Some s' ∧
        queue (i_st s') = [] ∧
        wire (i_conn s') = [RespExists 43; RespExpunge 20; RespExists 44].
Proof.
  intros c0 s acts.
  destruct (idle_run (λ _, None) acts s) as [s'|] eqn:Hrun; [|by vm_compute in Hrun].
  assert (i_running s' = 1%nat ∧ updates (i_st s') = Some 0%nat) as [Hr' Hz].
  { vm_compute in Hrun. by injection Hrun as <-. }
  destruct (Idle_delivers_in_order (λ _, None) acts s s') as [_ Hdel]; try done.
  { by repeat constructor. }
  destruct (Hdel ltac:(done) Hz) as [Hq Hw].
  exists s'. by split_and!.
Defined.

(** * The mailboxes of a user *)

Section Users.

Import Imapmemserver.

(** Along a run [prevUidValidity] only grows, by at most one per step,
    and bounds the UIDVALIDITY of every mailbox; no two mailboxes share
    one. *)
Lemma user_run_inv ops : ∀ u,
  0 ≤ prevUidValidity u →
  prevUidValidity u + Z.of_nat (length ops) < uint32_modulus →
  (∀ n v, mailboxes u !! n = Some v → 0 < v ≤ prevUidValidity u) →
  (∀ n1 n2 v, mailboxes u !! n1 = Some v → mailboxes u !! n2 = Some v → n1 = n2) →
  let u' := user_run ops u in
  prevUidValidity u ≤ prevUidValidity u' ≤ prevUidValidity u + Z.of_nat (length ops) ∧
  (∀ n v, mailboxes u' !! n = Some v → 0 < v ≤ prevUidValidity u') ∧
  (∀ n1 n2 v, mailboxes u' !! n1 = Some v → mailboxes u' !! n2 = Some v → n1 = n2).
Proof.
  induction ops as [|o ops IH]; intros u Hpos Hlen Hbound Hinj; cbn [user_run foldl].
  { cbn. split_and!; (done || lia). }
  cbn [length] in Hlen.
  assert (prevUidValidity u ≤ prevUidValidity (user_step u o) ≤ prevUidValidity u + 1 ∧
          (∀ n v, mailboxes (user_step u o) !! n = Some v →
                  0 < v ≤ prevUidValidity (user_step u o)) ∧
          (∀ n1 n2 v, mailboxes (user_step u o) !! n1 = Some v →
                      mailboxes (user_step u o) !! n2 = Some v → n1 = n2))
    as (Hp1 & Hb1 & Hi1).
  { destruct o as [name|name|oldName newName]; cbn [user_step].
    - unfold Create. destruct (mailboxes u !! TrimRight_delim name) eqn:Hn; cbn [fst].
      { split_and!; (done || lia). }
      cbn [mailboxes prevUidValidity]. rewrite wrap32_id by u32.
      split_and!; try lia.
      + intros n v. destruct (decide (n = TrimRight_delim name)) as [->|].
        * rewrite lookup_insert_eq. intros [= <-]. lia.
        * rewrite lookup_insert_ne by done. intros ?%Hbound. lia.
      + intros n1 n2 v.
        destruct (decide (n1 = TrimRight_delim name)) as [->|];
          destruct (decide (n2 = TrimRight_delim name)) as [->|]; try done;
          rewrite ?lookup_insert_eq, ?lookup_insert_ne by done.
        * intros [= <-] ?%Hbound. lia.
        * intros ?%Hbound [= <-]. lia.
        * apply Hinj.
    - unfold Delete. destruct (mailboxes u !! name) eqn:Hn; cbn [fst];
        [|split_and!; (done || lia)].
      cbn [mailboxes prevUidValidity]. split_and!; try lia.
      + intros n v ?%lookup_delete_Some. naive_solver.
      + intros n1 n2 v [_ H1]%lookup_delete_Some [_ H2]%lookup_delete_Some. by eapply Hinj.
    - unfold Rename. destruct (mailboxes u !! oldName) as [mbox|] eqn:Ho; cbn [fst];
        [|split_and!; (done || lia)].
      destruct (mailboxes u !! TrimRight_delim newName) eqn:Hn; cbn [fst];
        [split_and!; (done || lia)|].
      cbn [mailboxes prevUidValidity].
      assert (∀ n v,
                delete oldName (<[TrimRight_delim newName:=mbox]> (mailboxes u)) !! n = Some v →
                (n = TrimRight_delim newName ∧ v = mbox ∧ n ≠ oldName) ∨
                (n ≠ oldName ∧ n ≠ TrimRight_delim newName ∧ mailboxes u !! n = Some v))
        as Hlook.
      { intros n v [Hne Hl]%lookup_delete_Some.
        destruct (decide (n = TrimRight_delim newName)) as [->|].
        - rewrite lookup_insert_eq in Hl. injection Hl as <-. by left.
        - rewrite lookup_insert_ne in Hl by done. by right. }
      split_and!; try lia.
      + intros n v [(-> & -> & _)|(_ & _ & ?)]%Hlook; [by eapply Hbound|by eapply Hbound].
      + intros n1 n2 v [(-> & -> & Hne1)|(Hne1 & Hnn1 & H1)]%Hlook
                         [(-> & Hv & Hne2)|(Hne2 & Hnn2 & H2)]%Hlook; try done.
        * destruct Hne2. by eapply Hinj.
        * subst v. destruct Hne1. by eapply Hinj.
        * by eapply Hinj. }
  destruct (IH (user_step u o)) as (Hp' & Hb' & Hi'); [lia|lia|done|done|].
  unfold user_run in *. cbn [length]. split_and!; [lia|lia|done|done].
Qed.

(** X29.  UIDVALIDITY is never reused: a mailbox that [Create] makes
    gets a UIDVALIDITY above that of every mailbox the user had at any
    earlier time, deleted or renamed since or not, so a mailbox deleted
    and created again under its name comes back with another UIDVALIDITY;
    and no two mailboxes of the user share one.  This holds while fewer
    than 2^32 operations were made. *)
Theorem UIDVALIDITY_never_reused
    (ops1 ops2 : list user_op) (name n1 : gostring) (v1 : Z) (u3 : User) :
  Z.of_nat (length ops1 + length ops2) + 1 < uint32_modulus →
  mailboxes (user_run ops1 NewUser) !! n1 = Some v1 →
  Create name (user_run ops2 (user_run ops1 NewUser)) = (u3, None) →
  ∃ v3,
    mailboxes u3 !! TrimRight_delim name = Some v3 ∧
    v1 < v3 ∧
    (∀ n, mailboxes u3 !! n = Some v3 → n = TrimRight_delim name).
Proof.
  intros Hlen Hn1 Hc.
  destruct (user_run_inv ops1 NewUser) as (Hp1 & Hb1 & Hi1);
    [done|cbn; lia|done|done|]. cbn in Hp1.
  set (u1 := user_run ops1 NewUser) in *.
  destruct (user_run_inv ops2 u1) as (Hp2 & Hb2 & Hi2); [lia|lia|done|done|].
  set (u2 := user_run ops2 u1) in *.
  unfold Create in Hc.
  destruct (mailboxes u2 !! TrimRight_delim name) eqn:Hn; [done|].
  injection Hc as <-. cbn [mailboxes].
  rewrite wrap32_id by u32.
  exists (prevUidValidity u2 + 1). split_and!.
  - by rewrite lookup_insert_eq.
  - apply Hb1 in Hn1. lia.
  - intros n. destruct (decide (n = TrimRight_delim name)) as [->|]; [done|].
    rewrite lookup_insert_ne by done. intros ?%Hb2. lia.
Qed.

Lemma UIDVALIDITY_never_reused_witness :
  let drafts := String.list_ascii_of_string "Drafts" in
  let ops1 := [UCreate drafts] in
  let ops2 := [UDelete drafts] in
  ∃ u3 v3,
    mailboxes (user_run ops1 NewUser) !! drafts = Some 1 ∧
    Create (String.list_ascii_of_string "Drafts/") (user_run ops2 (user_run ops1 NewUser)) =
      (u3, None) ∧
    mailboxes u3 !! drafts = Some v3 ∧ 1 < v3.
Proof.
  intros drafts ops1 ops2.
  destruct (Create (String.list_ascii_of_string "Drafts/") (user_run ops2 (user_run ops1 NewUser)))
    as [u3 e] eqn:Hc.
  assert (e = None) as -> by (vm_compute in Hc; by injection Hc as <- <-).
  assert (mailboxes (user_run ops1 NewUser) !! drafts = Some 1) as H1 by (by vm_compute).
  destruct (UIDVALIDITY_never_reused ops1 ops2 (String.list_ascii_of_string "Drafts/") drafts 1 u3)
    as (v3 & Hv3 & Hlt & _); [by vm_compute|done|done|].
  exists u3, v3. by split_and!.
Defined.

End Users.
